(** * Smi: stage decomposition of a stochastic program (SmiScnData.cpp)

    A shallow embedding of [SmiCoreData] and [SmiNodeData] and the
    properties their documentation states.

    - A C++ [int] used as a count, an offset or an array index is a [nat]:
      the counters of this file never exceed [nrow], [ncol] or the number
      of stored entries, so no wrap-around is reachable; a negative index
      is an access outside the allocation, which C++ leaves undefined.
    - A C++ [double] is a primitive float; the code only copies doubles
      and fills with [0.0], it never computes with them.
    - A C array is a [list]; [a[i]] is [a !!! i] and [a[i] = v] is
      [<[i:=v]> a].  Outside the allocation the C++ behaviour is undefined;
      the model reads the default and ignores the write, and the theorems
      carry the hypotheses that keep every access inside. *)

From Stdlib Require Import PrimFloat.
From stdpp Require Import base list gmap sorting strings.

Abbreviation double := float.

#[global] Instance double_inhabited : Inhabited double := populate 0%float.

(** [inds_[k]] and [dels_[k]] are always read and written at the same
    offset [k]: the two parallel arrays are kept as one array of pairs. *)
Abbreviation entry := (nat * double)%type.

(** ** Index maps of [SmiCoreData::gutsOfConstructor]

    The constructor runs the same four loops for rows and for columns;
    each loop is one definition, used twice. *)

(** [for (i=0;i<n;i++) nInStage[stage[i]]++;] on the zeroed array of
    [nstag+1] counts. *)
Definition count_in_stage (nstag : nat) (stage : list nat) (n : nat) : list nat :=
  foldl (λ cnt i, let s := stage !!! i in <[s := S (cnt !!! s)]> cnt)
        (replicate (S nstag) 0) (seq 0 n).

(** [ptr[0] = 0; for (i=0;i<nstag;i++) ptr[i+1] = ptr[i] + nInStage[i];] *)
Definition set_stage_pointers (nstag : nat) (cnt ptr : list nat) : list nat :=
  foldl (λ p i, <[S i := p !!! i + cnt !!! i]> p) (<[0 := 0]> ptr) (seq 0 nstag).

Record placement := Placement {
  ex2in : list nat;
  in2ex : list nat;
  stagePtr : list nat
}.

(** [ex2in[i] = ptr[stage[i]]; in2ex[ex2in[i]] = i; ptr[stage[i]]++;] *)
Definition place_step (stage : list nat) (st : placement) (i : nat) : placement :=
  let s := stage !!! i in
  let e := <[i := stagePtr st !!! s]> (ex2in st) in
  let x := <[e !!! i := i]> (in2ex st) in
  Placement e x (<[s := S (stagePtr st !!! s)]> (stagePtr st)).

Definition place_indices (stage : list nat) (n : nat) (ptr : list nat) : placement :=
  foldl (place_step stage) (Placement (replicate n 0) (replicate n 0) ptr) (seq 0 n).

(** The four arrays the constructor leaves for one of the two index sets. *)
Record stage_maps := StageMaps {
  sm_nInStage : list nat;
  sm_ptr : list nat;
  sm_ex2in : list nat;
  sm_in2ex : list nat
}.

Definition build_stage_maps (nstag : nat) (stage : list nat) (n : nat) : stage_maps :=
  let cnt := count_in_stage nstag stage n in
  let ptr := set_stage_pointers nstag cnt (replicate (S nstag) 0) in
  let pl := place_indices stage n ptr in
  StageMaps cnt (set_stage_pointers nstag cnt (stagePtr pl)) (ex2in pl) (in2ex pl).

(** ** Data

    [CoinPackedVector] and [CoinPackedMatrix] belong to the COIN-OR
    utilities library; the model keeps what this code reads from them. *)

(** A packed vector: the entries [(ind[j], els[j])], in storage order. *)
Abbreviation CoinPackedVector := (list entry).

(** [CoinPackedVector(n, dense)]: full storage, indices [0 .. n-1]. *)
Definition CoinPackedVector_full (n : nat) (dense : list double) : CoinPackedVector :=
  (λ i, (i, dense !!! i)) <$> seq 0 n.

(** [for (j = 0; j < len; ++j) dv[ind[j]] = els[j];] *)
Definition scatter (dv : list double) (cpv : list entry) : list double :=
  foldl (λ dv e, <[e.1 := e.2]> dv) dv cpv.

(** [denseVector(n)]: [n] zeros with the entries scattered into them. *)
Definition denseVector (n : nat) (cpv : CoinPackedVector) : list double :=
  scatter (replicate n 0%float) cpv.

Definition index_le (a b : entry) : Prop := a.1 ≤ b.1.

#[global] Instance index_le_dec a b : Decision (index_le a b).
Proof. unfold index_le. apply _. Defined.

(** [sortIncrIndex()]: the entries in increasing order of index. *)
Definition sortIncrIndex (cpv : CoinPackedVector) : CoinPackedVector :=
  merge_sort index_le cpv.

(** A row-ordered packed matrix: row [i] is the [len[i]] entries from
    offset [str[i]] of the element and index arrays. *)
Record CoinPackedMatrix := PackedMatrix {
  mx_ents : list entry;
  mx_len : list nat;
  mx_str : list nat
}.

Definition getNumElements (m : CoinPackedMatrix) : nat := sum_list (mx_len m).

Definition matrix_row (m : CoinPackedMatrix) (i : nat) : list entry :=
  take (mx_len m !!! i) (drop (mx_str m !!! i) (mx_ents m)).

(** Quadratic objective data, column starts over a triplet list. *)
Record SmiQuadraticData := QuadraticData {
  qd_n : nat;
  qd_starts : list nat;
  qd_indx : list nat;
  qd_dels : list double;
  qd_hasData : bool
}.

Module Node.
Record t := mk {
  stg_ : nat;
  isCoreNode_ : bool;
  numarrays_ : nat;
  nrow_ : nat;
  ncol_ : nat;
  rowbeg_ : nat;
  colbeg_ : nat;
  nels_ : nat;
  nstrt_ : nat;
  ents_ : list entry;          (* inds_ and dels_ *)
  strt_ : list nat;
  has_matrix_ : bool;
  mat_strt_ : nat;
  clo_strt_ : nat;
  cup_strt_ : nat;
  obj_strt_ : nat;
  rlo_strt_ : nat;
  rup_strt_ : nat;
  dRowMap : gmap nat (list double);
  hasQdata_ : bool;
  nqdata_ : option SmiQuadraticData
}.
End Node.

Module Core.
Record t := mk {
  nrow_ : nat;
  ncol_ : nat;
  nstag_ : nat;
  nColInStage_ : list nat;
  nRowInStage_ : list nat;
  stageColPtr_ : list nat;
  stageRowPtr_ : list nat;
  colStage_ : list nat;
  rowStage_ : list nat;
  colEx2In_ : list nat;
  rowEx2In_ : list nat;
  colIn2Ex_ : list nat;
  rowIn2Ex_ : list nat;
  integerIndices_ : list nat;
  integerLength_ : nat;
  binaryIndices_ : list nat;
  binaryLength_ : nat;
  intColsStagewise : list (list Z);
  cdrlo_ : list (list double);
  cdrup_ : list (list double);
  cdobj_ : list (list double);
  cdclo_ : list (list double);
  cdcup_ : list (list double);
  nodes_ : list Node.t;
  hasQdata_ : bool;
  sqp_ : option SmiQuadraticData
}.
End Core.

(** ** Accessors

    Modelled from the spec: the inline accessors of SmiScnData.hpp, which
    is not among the sources; each returns the array slot its name and the
    spec's data model (section 3) give it. *)

Definition getNumStages (core : Core.t) : nat := Core.nstag_ core.

Definition getNumColsTotal (core : Core.t) : nat := Core.ncol_ core.

Definition getNumRowsTotal (core : Core.t) : nat := Core.nrow_ core.

Definition getNumCols (core : Core.t) (t : nat) : nat := Core.nColInStage_ core !!! t.

Definition getNumRows (core : Core.t) (t : nat) : nat := Core.nRowInStage_ core !!! t.

Definition getColStart (core : Core.t) (t : nat) : nat := Core.stageColPtr_ core !!! t.

Definition getRowStart (core : Core.t) (t : nat) : nat := Core.stageRowPtr_ core !!! t.

Definition getColStage (core : Core.t) (i : nat) : nat := Core.colStage_ core !!! i.

Definition getRowStage (core : Core.t) (i : nat) : nat := Core.rowStage_ core !!! i.

Definition getColInternalIndex (core : Core.t) (i : nat) : nat := Core.colEx2In_ core !!! i.

Definition getRowInternalIndex (core : Core.t) (i : nat) : nat := Core.rowEx2In_ core !!! i.

Definition getColExternalIndex (core : Core.t) (i : nat) : nat := Core.colIn2Ex_ core !!! i.

Definition getRowExternalIndex (core : Core.t) (i : nat) : nat := Core.rowIn2Ex_ core !!! i.

(** Modelled from the spec: the segment accessors of [SmiNodeData] in
    SmiScnData.hpp (not among the sources): segment [k] of the shared
    buffer runs from [strt_[k]] to [strt_[k+1]]; the matrix accessors
    answer "empty" on a node without a matrix. *)
Definition getLength (nd : Node.t) (k : nat) : nat :=
  Node.strt_ nd !!! S k - Node.strt_ nd !!! k.

Definition getSegment (nd : Node.t) (k : nat) : list entry :=
  take (getLength nd k) (drop (Node.strt_ nd !!! k) (Node.ents_ nd)).

Definition getRowLength (nd : Node.t) (irow : nat) : nat :=
  if Node.has_matrix_ nd then getLength nd (Node.mat_strt_ nd + irow - Node.rowbeg_ nd) else 0.

Definition getRow (nd : Node.t) (irow : nat) : list entry :=
  if Node.has_matrix_ nd then getSegment nd (Node.mat_strt_ nd + irow - Node.rowbeg_ nd) else [].

Definition getColLower (nd : Node.t) : list entry := getSegment nd (Node.clo_strt_ nd).

Definition getColUpper (nd : Node.t) : list entry := getSegment nd (Node.cup_strt_ nd).

Definition getObjective (nd : Node.t) : list entry := getSegment nd (Node.obj_strt_ nd).

Definition getRowLower (nd : Node.t) : list entry := getSegment nd (Node.rlo_strt_ nd).

Definition getRowUpper (nd : Node.t) : list entry := getSegment nd (Node.rup_strt_ nd).

Definition getColLowerLength (nd : Node.t) : nat := getLength nd (Node.clo_strt_ nd).

Definition getColUpperLength (nd : Node.t) : nat := getLength nd (Node.cup_strt_ nd).

Definition getObjectiveLength (nd : Node.t) : nat := getLength nd (Node.obj_strt_ nd).

Definition getRowLowerLength (nd : Node.t) : nat := getLength nd (Node.rlo_strt_ nd).

Definition getRowUpperLength (nd : Node.t) : nat := getLength nd (Node.rup_strt_ nd).

(** ** [SmiNodeData::SmiNodeData] *)

(** The locals of the constructor that the copying loops share: the two
    buffers, [offset_dst] and [i_start]. *)
Record fill := Fill {
  f_ents : list entry;
  f_strt : list nat;
  offset_dst : nat;
  i_start : nat
}.

(** [assignMemory()]: [calloc] of [nels_] entries and of
    [nstrt_ = (nrow_+1) + numarrays_] starts. *)
Definition assignMemory (nrow numarrays nels : nat) : nat * fill :=
  let nstrt := (nrow + 1) + numarrays in
  (nstrt, Fill (replicate nels (0, 0%float)) (replicate nstrt 0) 0 0).

(** [i_start++; strt_[i_start] = offset_dst;] *)
Definition next_start (st : fill) : fill :=
  let i := S (i_start st) in
  Fill (f_ents st) (<[i := offset_dst st]> (f_strt st)) (offset_dst st) i.

(** One round of the loop over the rows of the stage: the two [memcpy]
    of the row at external index [isrc], when it is not empty. *)
Definition copy_matrix_row (core : Core.t) (m : CoinPackedMatrix) (rowbeg : nat)
    (st : fill) (i : nat) : fill :=
  let isrc := getRowExternalIndex core (rowbeg + i) in
  let len := mx_len m !!! isrc in
  next_start
    (if decide (len = 0) then st
     else Fill (list_inserts (offset_dst st) (matrix_row m isrc) (f_ents st))
               (f_strt st) (offset_dst st + len) (i_start st)).

(** [inds_[j] = core->getColInternalIndex(inds_[j])] on entry [j]. *)
Definition internal_entry (core : Core.t) (e : entry) : entry :=
  (getColInternalIndex core e.1, e.2).

(** [for (j=0; j<offset_dst; j++) inds_[j] = core->getColInternalIndex(inds_[j]);] *)
Definition convert_indices (core : Core.t) (st : fill) : fill :=
  Fill (foldl (λ b j, <[j := internal_entry core (b !!! j)]> b)
              (f_ents st) (seq 0 (offset_dst st)))
       (f_strt st) (offset_dst st) (i_start st).

(** The body of the loop of one bound or objective category:
    [if (stage(ind[j]) == stg) { dels_[offset_dst] = els[j];
    inds_[offset_dst] = internal(ind[j]); offset_dst++; }] *)
Definition copy_entry (stage_of internal_of : nat → nat) (stg : nat)
    (st : fill) (e : entry) : fill :=
  if decide (stage_of e.1 = stg)
  then Fill (<[offset_dst st := (internal_of e.1, e.2)]> (f_ents st))
            (f_strt st) (S (offset_dst st)) (i_start st)
  else st.

(** The loop itself; a null vector is skipped. *)
Definition copy_stage_entries (stage_of internal_of : nat → nat) (stg : nat)
    (v : option CoinPackedVector) (st : fill) : fill :=
  match v with
  | Some cpv => foldl (copy_entry stage_of internal_of stg) st cpv
  | None => st
  end.

Definition has_elements (matrix : option CoinPackedMatrix) : bool :=
  match matrix with
  | Some m => bool_decide (0 < getNumElements m)
  | None => false
  end.

Definition SmiNodeData_new (stg : nat) (core : Core.t)
    (matrix : option CoinPackedMatrix)
    (dclo dcup dobj drlo drup : option CoinPackedVector) : Node.t :=
  let numarrays := 5 in
  let nrow := getNumRows core stg in
  let ncol := getNumCols core stg in
  let rowbeg := getRowStart core stg in
  let colbeg := getColStart core stg in
  let nels := from_option getNumElements 0 matrix
              + from_option length 0 dclo + from_option length 0 dcup
              + from_option length 0 dobj + from_option length 0 drlo
              + from_option length 0 drup in
  let '(nstrt, st0) := assignMemory nrow numarrays nels in
  let mat_strt := i_start st0 in
  let st1 :=
    match matrix with
    | Some m =>
        if has_elements matrix
        then convert_indices core (foldl (copy_matrix_row core m rowbeg) st0 (seq 0 nrow))
        else st0
    | None => st0
    end in
  let clo_strt := i_start st1 in
  let st2 := next_start (copy_stage_entries (getColStage core) (getColInternalIndex core) stg dclo st1) in
  let cup_strt := i_start st2 in
  let st3 := next_start (copy_stage_entries (getColStage core) (getColInternalIndex core) stg dcup st2) in
  let obj_strt := i_start st3 in
  let st4 := next_start (copy_stage_entries (getColStage core) (getColInternalIndex core) stg dobj st3) in
  let rlo_strt := i_start st4 in
  let st5 := next_start (copy_stage_entries (getRowStage core) (getRowInternalIndex core) stg drlo st4) in
  let rup_strt := i_start st5 in
  let st6 := next_start (copy_stage_entries (getRowStage core) (getRowInternalIndex core) stg drup st5) in
  (* realloc: the buffers keep their first offset_dst entries *)
  Node.mk stg false numarrays nrow ncol rowbeg colbeg nels nstrt
          (take (offset_dst st6) (f_ents st6)) (f_strt st6)
          (has_elements matrix) mat_strt clo_strt cup_strt obj_strt rlo_strt rup_strt
          ∅ false None.

Definition setCoreNode (nd : Node.t) : Node.t :=
  Node.mk (Node.stg_ nd) true (Node.numarrays_ nd) (Node.nrow_ nd) (Node.ncol_ nd)
          (Node.rowbeg_ nd) (Node.colbeg_ nd) (Node.nels_ nd) (Node.nstrt_ nd)
          (Node.ents_ nd) (Node.strt_ nd) (Node.has_matrix_ nd) (Node.mat_strt_ nd)
          (Node.clo_strt_ nd) (Node.cup_strt_ nd) (Node.obj_strt_ nd)
          (Node.rlo_strt_ nd) (Node.rup_strt_ nd) (Node.dRowMap nd)
          (Node.hasQdata_ nd) (Node.nqdata_ nd).

Definition set_ents (nd : Node.t) (ents : list entry) : Node.t :=
  Node.mk (Node.stg_ nd) (Node.isCoreNode_ nd) (Node.numarrays_ nd) (Node.nrow_ nd)
          (Node.ncol_ nd) (Node.rowbeg_ nd) (Node.colbeg_ nd) (Node.nels_ nd)
          (Node.nstrt_ nd) ents (Node.strt_ nd) (Node.has_matrix_ nd)
          (Node.mat_strt_ nd) (Node.clo_strt_ nd) (Node.cup_strt_ nd)
          (Node.obj_strt_ nd) (Node.rlo_strt_ nd) (Node.rup_strt_ nd)
          (Node.dRowMap nd) (Node.hasQdata_ nd) (Node.nqdata_ nd).

(** ** [SmiCoreData::gutsOfConstructor] *)

(** The body of [for (ii=irow; ii<irow+nrow; ++ii)]: a row that is not
    empty is sorted in a [CoinPackedVector] and copied back in place. *)
Definition sort_row (nd : Node.t) (ii : nat) : Node.t :=
  if decide (0 < getRowLength nd ii)
  then set_ents nd
         (list_inserts (Node.strt_ nd !!! (Node.mat_strt_ nd + ii - Node.rowbeg_ nd))
                       (sortIncrIndex (getRow nd ii)) (Node.ents_ nd))
  else nd.

Definition sort_rows (nd : Node.t) (irow nrow : nat) : Node.t :=
  foldl sort_row nd (seq irow nrow).

(** The dense stage array of one category:
    [cpv.denseVector(n+start) + start]. *)
Definition dense_stage (n start : nat) (seg : list entry) : list double :=
  drop start (denseVector (n + start) seg).

(** [nColInPrevStages], then the stage-local positions of the integer
    columns; the difference is a signed [int]. *)
Definition nColInPrevStages (nstag : nat) (nColInStage : list nat) : list nat :=
  foldl (λ p i, <[i := p !!! (i - 1) + nColInStage !!! (i - 1)]> p)
        (<[0 := 0]> (replicate nstag 0)) (seq 1 (nstag - 1)).

Definition int_cols_stagewise (nstag : nat) (colStage nColInStage integerIndices : list nat)
    (integerLength : nat) : list (list Z) :=
  let prev := nColInPrevStages nstag nColInStage in
  foldl (λ acc i,
           let indice := integerIndices !!! i in
           let stage := colStage !!! indice in
           <[stage := acc !!! stage ++ [(Z.of_nat indice - Z.of_nat (prev !!! stage))%Z]]> acc)
        (replicate nstag []) (seq 0 integerLength).

(** The object as it stands when the loop over the stages starts: the
    index maps are final, no node and no dense array yet. *)
Definition core_maps (nrow ncol nstag : nat) (cstag rstag : list nat)
    (integerIndices : list nat) (integerLength : nat)
    (binaryIndices : list nat) (binaryLength : nat) : Core.t :=
  let colStage := take ncol cstag in
  let rowStage := take nrow rstag in
  let rows := build_stage_maps nstag rowStage nrow in
  let cols := build_stage_maps nstag colStage ncol in
  Core.mk nrow ncol nstag (sm_nInStage cols) (sm_nInStage rows) (sm_ptr cols) (sm_ptr rows)
          colStage rowStage (sm_ex2in cols) (sm_ex2in rows) (sm_in2ex cols) (sm_in2ex rows)
          (take integerLength integerIndices) integerLength
          (take binaryLength binaryIndices) binaryLength
          (int_cols_stagewise nstag colStage (sm_nInStage cols) integerIndices integerLength)
          [] [] [] [] [] [] false None.

Definition push_stage (core : Core.t) (nd : Node.t) (rlo rup obj clo cup : list double) : Core.t :=
  Core.mk (Core.nrow_ core) (Core.ncol_ core) (Core.nstag_ core) (Core.nColInStage_ core)
          (Core.nRowInStage_ core) (Core.stageColPtr_ core) (Core.stageRowPtr_ core)
          (Core.colStage_ core) (Core.rowStage_ core) (Core.colEx2In_ core)
          (Core.rowEx2In_ core) (Core.colIn2Ex_ core) (Core.rowIn2Ex_ core)
          (Core.integerIndices_ core) (Core.integerLength_ core)
          (Core.binaryIndices_ core) (Core.binaryLength_ core) (Core.intColsStagewise core)
          (Core.cdrlo_ core ++ [rlo]) (Core.cdrup_ core ++ [rup]) (Core.cdobj_ core ++ [obj])
          (Core.cdclo_ core ++ [clo]) (Core.cdcup_ core ++ [cup])
          (Core.nodes_ core ++ [nd]) (Core.hasQdata_ core) (Core.sqp_ core).

(** One round of [for (i=0;i<nstag_;i++)].  [nodes_] holds a pointer to
    the node, so the rows sorted at the end of the round are the rows of
    [nodes_[i]]. *)
Definition core_stage (matrix : option CoinPackedMatrix)
    (dclo dcup dobj drlo drup : option CoinPackedVector) (core : Core.t) (i : nat) : Core.t :=
  let node := setCoreNode (SmiNodeData_new i core matrix dclo dcup dobj drlo drup) in
  let nrow := getNumRows core i in
  let ncol := getNumCols core i in
  let irow := getRowStart core i in
  let icol := getColStart core i in
  let rlo := dense_stage nrow irow (getRowLower node) in
  let rup := dense_stage nrow irow (getRowUpper node) in
  let clo := dense_stage ncol icol (getColLower node) in
  let cup := dense_stage ncol icol (getColUpper node) in
  let obj := dense_stage ncol icol (getObjective node) in
  push_stage core (sort_rows node irow nrow) rlo rup obj clo cup.

Definition gutsOfConstructor (nrow ncol nstag : nat) (cstag rstag : list nat)
    (matrix : option CoinPackedMatrix) (dclo dcup dobj drlo drup : option CoinPackedVector)
    (integerIndices : list nat) (integerLength : nat)
    (binaryIndices : list nat) (binaryLength : nat) : Core.t :=
  foldl (core_stage matrix dclo dcup dobj drlo drup)
        (core_maps nrow ncol nstag cstag rstag integerIndices integerLength
                   binaryIndices binaryLength)
        (seq 0 nstag).

(** ** [SmiCoreData::SmiCoreData]

    What the constructor reads from the solver interface.  [osi_matrix]
    is [getMatrixByRow()] after [eliminateDuplicates(0.0)]. *)
Record OsiSolverInterface := Osi {
  osi_nrow : nat;
  osi_ncol : nat;
  osi_rowLower : list double;
  osi_rowUpper : list double;
  osi_colLower : list double;
  osi_colUpper : list double;
  osi_obj : list double;
  osi_matrix : CoinPackedMatrix
}.

Definition SmiCoreData_new (osi : OsiSolverInterface) (nstag : nat) (cstag rstag : list nat)
    (integerIndices : list nat) (integerLength : nat)
    (binaryIndices : list nat) (binaryLength : nat) : Core.t :=
  let nrow := osi_nrow osi in
  let ncol := osi_ncol osi in
  let drlo := CoinPackedVector_full nrow (osi_rowLower osi) in
  let drup := CoinPackedVector_full nrow (osi_rowUpper osi) in
  let dclo := CoinPackedVector_full ncol (osi_colLower osi) in
  let dcup := CoinPackedVector_full ncol (osi_colUpper osi) in
  let dobj := CoinPackedVector_full ncol (osi_obj osi) in
  gutsOfConstructor nrow ncol nstag cstag rstag (Some (osi_matrix osi))
    (Some dclo) (Some dcup) (Some dobj) (Some drlo) (Some drup)
    integerIndices integerLength binaryIndices binaryLength.

(** ** Combining a node with the core *)

(** The value a sparse vector holds at index [k], if any. *)
Fixpoint sparse_get (sp : list entry) (k : nat) : option double :=
  match sp with
  | [] => None
  | e :: sp => if decide (e.1 = k) then Some e.2 else sparse_get sp k
  end.

(** Modelled from the spec: [SmiCoreCombineRule::Process] on a dense
    array (SmiCoreCombine.cpp is not among the sources), the default
    overwrite policy of section 4.3: a position takes the override's
    value when the override holds its index and keeps the base value
    otherwise.  [o] is the argument the callers pass between the array
    and the override, the index of position 0 of the array. *)
Definition Process (d : list double) (o : nat) (sp : list entry) : list double :=
  imap (λ i x, default x (sparse_get sp (o + i))) d.

(** Modelled from the spec: [SmiCoreCombineRule::Process] on two sparse
    rows, section 4.3: the union of the indices, the node's value where
    both hold the index. *)
Definition Process_rows (cr nr : list entry) : list entry :=
  ((λ e, (e.1, default e.2 (sparse_get nr e.1))) <$> cr)
  ++ filter (λ e, sparse_get cr e.1 = None) nr.

(** [CoinDisjointCopyN(src, n, dst)]: the first [n] positions of [dst]
    are overwritten. *)
Definition CoinDisjointCopyN {A} (src : list A) (n : nat) (dst : list A) : list A :=
  take n src ++ drop n dst.

(** [CoinFillN(dst, n, v)] *)
Definition CoinFillN {A} (dst : list A) (n : nat) (v : A) : list A :=
  replicate n v ++ drop n dst.

Definition SmiCoreData_copyRowLower (core : Core.t) (d : list double) (t : nat) : list double :=
  CoinDisjointCopyN (Core.cdrlo_ core !!! t) (getNumRows core t) d.

Definition SmiCoreData_copyRowUpper (core : Core.t) (d : list double) (t : nat) : list double :=
  CoinDisjointCopyN (Core.cdrup_ core !!! t) (getNumRows core t) d.

Definition SmiCoreData_copyColLower (core : Core.t) (d : list double) (t : nat) : list double :=
  CoinDisjointCopyN (Core.cdclo_ core !!! t) (getNumCols core t) d.

Definition SmiCoreData_copyColUpper (core : Core.t) (d : list double) (t : nat) : list double :=
  CoinDisjointCopyN (Core.cdcup_ core !!! t) (getNumCols core t) d.

Definition SmiCoreData_copyObjective (core : Core.t) (d : list double) (t : nat) : list double :=
  CoinDisjointCopyN (Core.cdobj_ core !!! t) (getNumCols core t) d.

(** [if (!isCoreNode_) getCoreCombineRule()->Process(d_out,o,len,inds,dels);] *)
Definition combineWithCoreDoubleArray (nd : Node.t) (d_out : list double)
    (sp : list entry) (o : nat) : list double :=
  if Node.isCoreNode_ nd then d_out else Process d_out o sp.

(** [getCore()] is the object the node was built against; it is passed
    along with the node. *)
Definition SmiNodeData_copyRowLower (core : Core.t) (nd : Node.t) (d : list double) : list double :=
  let t := Node.stg_ nd in
  combineWithCoreDoubleArray nd (SmiCoreData_copyRowLower core d t) (getRowLower nd)
                             (getRowStart core t).

Definition SmiNodeData_copyRowUpper (core : Core.t) (nd : Node.t) (d : list double) : list double :=
  let t := Node.stg_ nd in
  combineWithCoreDoubleArray nd (SmiCoreData_copyRowUpper core d t) (getRowUpper nd)
                             (getRowStart core t).

Definition SmiNodeData_copyColLower (core : Core.t) (nd : Node.t) (d : list double) : list double :=
  let t := Node.stg_ nd in
  combineWithCoreDoubleArray nd (SmiCoreData_copyColLower core d t) (getColLower nd)
                             (getColStart core t).

Definition SmiNodeData_copyColUpper (core : Core.t) (nd : Node.t) (d : list double) : list double :=
  let t := Node.stg_ nd in
  combineWithCoreDoubleArray nd (SmiCoreData_copyColUpper core d t) (getColUpper nd)
                             (getColStart core t).

Definition SmiNodeData_copyObjective (core : Core.t) (nd : Node.t) (d : list double) : list double :=
  let t := Node.stg_ nd in
  combineWithCoreDoubleArray nd (SmiCoreData_copyObjective core d t) (getObjective nd)
                             (getColStart core t).

(** [combineWithCoreRow(cr, nr)] *)
Definition combineWithCoreRow (cr nr : list entry) : list entry := Process_rows cr nr.

(** ** [SmiNodeData::getDenseRow]

    [dRowMap] owns one buffer per row index; the pointer the function
    returns is that buffer, so the array read through it is the content
    of [dRowMap[i]] in the node that results.  [fresh] is the content of
    the memory [new double[denseSize]] hands out. *)
Definition set_dRowMap (nd : Node.t) (m : gmap nat (list double)) : Node.t :=
  Node.mk (Node.stg_ nd) (Node.isCoreNode_ nd) (Node.numarrays_ nd) (Node.nrow_ nd)
          (Node.ncol_ nd) (Node.rowbeg_ nd) (Node.colbeg_ nd) (Node.nels_ nd)
          (Node.nstrt_ nd) (Node.ents_ nd) (Node.strt_ nd) (Node.has_matrix_ nd)
          (Node.mat_strt_ nd) (Node.clo_strt_ nd) (Node.cup_strt_ nd)
          (Node.obj_strt_ nd) (Node.rlo_strt_ nd) (Node.rup_strt_ nd)
          m (Node.hasQdata_ nd) (Node.nqdata_ nd).

Definition getDenseRow (core : Core.t) (fresh : list double) (nd : Node.t) (i : nat) :
    list double * Node.t :=
  let denseSize := getNumColsTotal core in
  let dv := match Node.dRowMap nd !! i with
            | Some dv => dv
            | None => take denseSize fresh
            end in
  let dv := scatter (CoinFillN dv denseSize 0%float) (getRow nd i) in
  (dv, set_dRowMap nd (<[i := dv]> (Node.dRowMap nd))).

(** ** Errors *)

(** [literal + n] on a string literal and an [int]: the pointer [n]
    characters into the literal, read as a string.  Up to the length of
    the literal this is its tail, the empty string at the length itself;
    past it the C++ pointer leaves the literal, where the model gives the
    empty string. *)
Fixpoint literal_plus (literal : string) (n : nat) : string :=
  match n, literal with
  | 0, _ => literal
  | S n, String _ rest => literal_plus rest n
  | S _, EmptyString => EmptyString
  end.

(** The string [addQuadraticObjective] throws:
    [string s="Exception: Quadratic data for timestage "+stg;
     s+=" includes data from timestage "+smicore->getColStage(ind[jj]);] *)
Definition cross_stage_message (stg other : nat) : string :=
  String.append (literal_plus "Exception: Quadratic data for timestage " stg)
                (literal_plus " includes data from timestage " other).

(** The error kinds section 7 of the specification names; the cross-stage
    error is the string thrown. *)
Inductive error_kind := invalid_argument | cross_stage_data (message : string).

(** How a call ends: it returns, or it throws. *)
Inductive outcome (A : Type) := returned (a : A) | thrown (e : error_kind).
Arguments returned {A} a.
Arguments thrown {A} e.

(** The constructor as a call: its body and [gutsOfConstructor] hold no
    [throw] and no test of the labels or of the lengths. *)
Definition SmiCoreData_construct (osi : OsiSolverInterface) (nstag : nat)
    (cstag rstag : list nat) (integerIndices : list nat) (integerLength : nat)
    (binaryIndices : list nat) (binaryLength : nat) : outcome Core.t :=
  returned (SmiCoreData_new osi nstag cstag rstag integerIndices integerLength
                            binaryIndices binaryLength).

(** ** Quadratic objective data *)

(** Modelled from the spec: the constructor of [SmiQuadraticData] and its
    [hasData()] (SmiQuadratic.hpp is not among the sources): the object
    keeps the column starts and the triplets it is given, and has data
    when a quadratic term is present (section 4.1).  A null [starts] is
    [None]. *)
Definition SmiQuadraticData_new (n : nat) (starts : option (list nat)) (indx : list nat)
    (dels : list double) : SmiQuadraticData :=
  QuadraticData n (default [] starts) indx dels
                (bool_decide (0 < default [] starts !!! n)).

(** Modelled from the spec: [getNumEls()], the end of the last column. *)
Definition getNumEls (q : SmiQuadraticData) : nat := qd_starts q !!! qd_n q.

(** Modelled from the spec: [SmiQuadraticDataDC(n, nels)], the node's own
    copy, allocated zero-filled: the code below adds into its starts
    without setting them first. *)
Definition SmiQuadraticDataDC_new (n nels : nat) : SmiQuadraticData :=
  QuadraticData n (replicate (S n) 0) (replicate nels 0) (replicate nels 0%float) false.

(** A loop that a [throw] in its body leaves. *)
Fixpoint for_each {S : Type} (body : S → nat → S * option error_kind) (s : S) (l : list nat) :
    S * option error_kind :=
  match l with
  | [] => (s, None)
  | i :: l =>
      match body s i with
      | (s', Some e) => (s', Some e)
      | (s', None) => for_each body s' l
      end
  end.

Record qfill := QFill {
  q_indx : list nat;
  q_dels : list double;
  q_ilocal : nat
}.

(** The body of [for (jj = strts[j]; jj < strts[j+1]; ++jj)]. *)
Definition copy_term (smicore : Core.t) (stg : nat) (ind : list nat) (els : list double)
    (nqstarts : list nat) (icol : nat) (st : qfill) (jj : nat) : qfill * option error_kind :=
  if decide (getColStage smicore (ind !!! jj) ≠ stg)
  then (st, Some (cross_stage_data
                    (cross_stage_message stg (getColStage smicore (ind !!! jj)))))
  else
    let ii := nqstarts !!! icol + q_ilocal st in
    (QFill (<[ii := getColInternalIndex smicore (ind !!! jj)]> (q_indx st))
           (<[ii := els !!! jj]> (q_dels st)) (S (q_ilocal st)), None).

(** The body of the copying loop over the columns. *)
Definition copy_column (smicore : Core.t) (stg : nat) (strts ind : list nat)
    (els : list double) (nqstarts : list nat) (st : qfill) (j : nat) :
    qfill * option error_kind :=
  if decide (getColStage smicore j = stg)
  then for_each (copy_term smicore stg ind els nqstarts (getColInternalIndex smicore j))
                (QFill (q_indx st) (q_dels st) 0)
                (seq (strts !!! j) (strts !!! S j - strts !!! j))
  else (st, None).

Definition set_qdata (nd : Node.t) (has : bool) (q : option SmiQuadraticData) : Node.t :=
  Node.mk (Node.stg_ nd) (Node.isCoreNode_ nd) (Node.numarrays_ nd) (Node.nrow_ nd)
          (Node.ncol_ nd) (Node.rowbeg_ nd) (Node.colbeg_ nd) (Node.nels_ nd)
          (Node.nstrt_ nd) (Node.ents_ nd) (Node.strt_ nd) (Node.has_matrix_ nd)
          (Node.mat_strt_ nd) (Node.clo_strt_ nd) (Node.cup_strt_ nd)
          (Node.obj_strt_ nd) (Node.rlo_strt_ nd) (Node.rup_strt_ nd)
          (Node.dRowMap nd) has q.

(** The column starts of the node's copy: the sizes of the columns of
    the stage, at their internal index, then the running sum. *)
Definition node_qstarts (smicore : Core.t) (stg : nat) (strts : list nat) (ncols : nat)
    (nqstarts : list nat) : list nat :=
  let sized :=
    foldl (λ a j, if decide (getColStage smicore j = stg)
                  then <[S (getColInternalIndex smicore j) := strts !!! S j - strts !!! j]> a
                  else a)
          (<[0 := 0]> nqstarts) (seq 0 ncols) in
  foldl (λ a j, <[S j := a !!! S j + a !!! j]> a) sized (seq 0 ncols).

(** [SmiNodeData::addQuadraticObjective].  The [assert]s are left out;
    [throw s] is [thrown], with the string [s] the code has built. *)
Definition SmiNodeData_addQuadraticObjective (stg : nat) (smicore : Core.t)
    (sqdata : SmiQuadraticData) (nd : Node.t) : Node.t * outcome unit :=
  let strts := qd_starts sqdata in
  let ind := qd_indx sqdata in
  let els := qd_dels sqdata in
  let nels := getNumEls sqdata in
  let ncols := getNumColsTotal smicore in
  let nq := SmiQuadraticDataDC_new ncols nels in
  let nqstarts := node_qstarts smicore stg strts ncols (qd_starts nq) in
  let nqels := nqstarts !!! ncols in
  if decide (nqels = 0) then (set_qdata nd false None, returned ())
  else
    let '(st, e) := for_each (copy_column smicore stg strts ind els nqstarts)
                             (QFill (qd_indx nq) (qd_dels nq) 0) (seq 0 ncols) in
    let nd' := set_qdata nd true
                 (Some (QuadraticData ncols nqstarts (q_indx st) (q_dels st) true)) in
    (nd', match e with Some err => thrown err | None => returned () end).

Definition set_quadratic (core : Core.t) (has : bool) (sqp : option SmiQuadraticData)
    (nodes : list Node.t) : Core.t :=
  Core.mk (Core.nrow_ core) (Core.ncol_ core) (Core.nstag_ core) (Core.nColInStage_ core)
          (Core.nRowInStage_ core) (Core.stageColPtr_ core) (Core.stageRowPtr_ core)
          (Core.colStage_ core) (Core.rowStage_ core) (Core.colEx2In_ core)
          (Core.rowEx2In_ core) (Core.colIn2Ex_ core) (Core.rowIn2Ex_ core)
          (Core.integerIndices_ core) (Core.integerLength_ core)
          (Core.binaryIndices_ core) (Core.binaryLength_ core) (Core.intColsStagewise core)
          (Core.cdrlo_ core) (Core.cdrup_ core) (Core.cdobj_ core)
          (Core.cdclo_ core) (Core.cdcup_ core) nodes has sqp.

(** The body of [for (t=0; t<nstag_; ++t)]: the node is changed in
    place, and a [throw] leaves the loop with the node as it stands. *)
Definition add_to_stage (sqp : SmiQuadraticData) (core : Core.t) (t : nat) :
    Core.t * option error_kind :=
  match Core.nodes_ core !! t with
  | Some nd =>
      let '(nd', r) := SmiNodeData_addQuadraticObjective t core sqp nd in
      (set_quadratic core (Core.hasQdata_ core) (Core.sqp_ core)
                     (<[t := nd']> (Core.nodes_ core)),
       match r with thrown e => Some e | returned _ => None end)
  | None => (core, None)
  end.

(** [SmiCoreData::addQuadraticObjectiveToCore] *)
Definition SmiCoreData_addQuadraticObjectiveToCore (core : Core.t)
    (starts : option (list nat)) (indx : list nat) (dels : list double) :
    Core.t * outcome unit :=
  let ncols := getNumColsTotal core in
  let sqp := SmiQuadraticData_new ncols starts indx dels in
  let core1 := set_quadratic core (Core.hasQdata_ core) (Some sqp) (Core.nodes_ core) in
  if negb (qd_hasData sqp) then (core1, returned ())
  else
    let core2 := set_quadratic core1 true (Core.sqp_ core1) (Core.nodes_ core1) in
    let '(core3, e) := for_each (add_to_stage sqp) core2 (seq 0 (Core.nstag_ core2)) in
    (core3, match e with Some err => thrown err | None => returned () end).

(** * Specification

    The predicates and closed forms the theorems are stated with, and the
    concrete problems they are evaluated on. *)

(** ** The index maps in closed form *)

(** The number of labels equal to [s], and below [t]. *)
Definition occ (s : nat) (l : list nat) : nat := length (filter (λ x, x = s) l).

Definition below (t : nat) (l : list nat) : nat := length (filter (λ x, x < t) l).

(** [rank l c]: the slot of external index [c]: all indices of earlier
    stages, then the earlier indices of its own stage. *)
Definition rank (l : list nat) (c : nat) : nat :=
  below (l !!! c) l + occ (l !!! c) (take c l).

(** ** The buffer of a node as a sequence of segments *)

(** The state of the constructor after the segments [segs] were written:
    [segs] is a ghost of the proof, the code keeps only the offsets. *)
Record filled (st : fill) (segs : list (list entry)) : Prop := Filled {
  filled_i_start : i_start st = length segs;
  filled_offset : offset_dst st = length (concat segs);
  filled_ents : take (offset_dst st) (f_ents st) = concat segs;
  filled_strt : ∀ k, k ≤ length segs → f_strt st !!! k = length (concat (take k segs))
}.

(** The entries of a sparse vector that belong to stage [stg], with
    their index in the internal numbering, in the order of the vector. *)
Definition stage_entries (stage_of internal_of : nat → nat) (stg : nat)
    (v : option CoinPackedVector) : list entry :=
  (λ e, (internal_of e.1, e.2)) <$> filter (λ e, stage_of e.1 = stg) (default [] v).

(** The rows of the stage as the matrix stores them. *)
Definition stage_rows (core : Core.t) (m : CoinPackedMatrix) (rowbeg n : nat) : list (list entry) :=
  (λ i, matrix_row m (getRowExternalIndex core (rowbeg + i))) <$> seq 0 n.

(** The matrix rows a node stores: the rows of its stage, column indices
    internal; none when the matrix is null or has no element. *)
Definition node_rows (core : Core.t) (stg : nat) (matrix : option CoinPackedMatrix) :
    list (list entry) :=
  match matrix with
  | Some m =>
      if has_elements matrix
      then fmap (M:=list) (internal_entry core)
             <$> stage_rows core m (getRowStart core stg) (getNumRows core stg)
      else []
  | None => []
  end.

(** The five bound and objective segments, in buffer order. *)
Definition node_categories (core : Core.t) (stg : nat)
    (dclo dcup dobj drlo drup : option CoinPackedVector) : list (list entry) :=
  [ stage_entries (getColStage core) (getColInternalIndex core) stg dclo;
    stage_entries (getColStage core) (getColInternalIndex core) stg dcup;
    stage_entries (getColStage core) (getColInternalIndex core) stg dobj;
    stage_entries (getRowStage core) (getRowInternalIndex core) stg drlo;
    stage_entries (getRowStage core) (getRowInternalIndex core) stg drup ].

(** A node whose buffer is the row segments [rows] followed by the five
    category segments [cats], with the starts that go with them. *)
Record laid_out (nd : Node.t) (rows cats : list (list entry)) : Prop := LaidOut {
  lo_ents : Node.ents_ nd = concat (rows ++ cats);
  lo_strt : ∀ k, k ≤ length (rows ++ cats) →
                 Node.strt_ nd !!! k = length (concat (take k (rows ++ cats)));
  lo_strt_len : length (Node.strt_ nd) = Node.nrow_ nd + 6;
  lo_cats : length cats = 5;
  lo_rows : length rows = if Node.has_matrix_ nd then Node.nrow_ nd else 0;
  lo_mat : Node.mat_strt_ nd = 0;
  lo_clo : Node.clo_strt_ nd = length rows;
  lo_cup : Node.cup_strt_ nd = length rows + 1;
  lo_obj : Node.obj_strt_ nd = length rows + 2;
  lo_rlo : Node.rlo_strt_ nd = length rows + 3;
  lo_rup : Node.rup_strt_ nd = length rows + 4
}.

(** The matrix the constructor may read: every row of the stage lies
    inside the element array, and the rows are counted by
    [getNumElements]. *)
Definition rows_readable (core : Core.t) (stg : nat) (matrix : option CoinPackedMatrix) : Prop :=
  match matrix with
  | Some m =>
      (∀ i, i < getNumRows core stg →
            length (matrix_row m (getRowExternalIndex core (getRowStart core stg + i)))
            = mx_len m !!! getRowExternalIndex core (getRowStart core stg + i)) ∧
      length (concat (stage_rows core m (getRowStart core stg) (getNumRows core stg)))
      ≤ getNumElements m
  | None => True
  end.

(** ** The constructed core *)

(** The fields the accessors read; the loop over the stages only appends
    to [nodes_] and to the five dense arrays. *)
Definition maps_of (c : Core.t) :=
  (Core.nrow_ c, Core.ncol_ c, Core.nstag_ c, Core.nColInStage_ c, Core.nRowInStage_ c,
   Core.stageColPtr_ c, Core.stageRowPtr_ c, Core.colStage_ c, Core.rowStage_ c,
   Core.colEx2In_ c, Core.rowEx2In_ c, Core.colIn2Ex_ c, Core.rowIn2Ex_ c).

(** What one round of the loop appends for stage [t], read off the
    object [c] as the loop found it. *)
Definition core_node (matrix : option CoinPackedMatrix)
    (dclo dcup dobj drlo drup : option CoinPackedVector) (c : Core.t) (t : nat) : Node.t :=
  sort_rows (setCoreNode (SmiNodeData_new t c matrix dclo dcup dobj drlo drup))
            (getRowStart c t) (getNumRows c t).

(** The arrays of one index set (rows or columns), as the constructor
    leaves them: slot = rank, inverse, block starts and block sizes. *)
Record indexed (nstag n : nat) (stage ex2in in2ex ptr cnt : list nat) : Prop := Indexed {
  ix_len : length stage = n;
  ix_labels : Forall (λ s, s ≤ nstag) stage;
  ix_len_ex2in : length ex2in = n;
  ix_len_in2ex : length in2ex = n;
  ix_len_ptr : length ptr = S nstag;
  ix_len_cnt : length cnt = S nstag;
  ix_ex2in : ∀ c, c < n → ex2in !!! c = rank stage c;
  ix_in2ex : ∀ c, c < n → in2ex !!! rank stage c = c;
  ix_ptr : ∀ t, t ≤ nstag → ptr !!! t = below t stage;
  ix_cnt : ∀ s, s ≤ nstag → cnt !!! s = occ s stage
}.

(** Both index sets of a core object. *)
Record core_indexed (c : Core.t) : Prop := CoreIndexed {
  ci_cols : indexed (Core.nstag_ c) (Core.ncol_ c) (Core.colStage_ c) (Core.colEx2In_ c)
                    (Core.colIn2Ex_ c) (Core.stageColPtr_ c) (Core.nColInStage_ c);
  ci_rows : indexed (Core.nstag_ c) (Core.nrow_ c) (Core.rowStage_ c) (Core.rowEx2In_ c)
                    (Core.rowIn2Ex_ c) (Core.stageRowPtr_ c) (Core.nRowInStage_ c)
}.

(** ** Well-formed input *)

(** Every row [r < nrow] of the matrix lies inside its arrays. *)
Definition matrix_fits (m : CoinPackedMatrix) (nrow : nat) : Prop :=
  length (mx_len m) = nrow ∧
  Forall (λ r, mx_str m !!! r + mx_len m !!! r ≤ length (mx_ents m)) (seq 0 nrow).

Definition matrix_ok (matrix : option CoinPackedMatrix) (nrow : nat) : Prop :=
  from_option (λ m, matrix_fits m nrow) True matrix.

(** ** Examples *)

(** A two-stage problem with two rows and three columns, whose external
    order is not the stage order. *)
Definition example_osi : OsiSolverInterface :=
  Osi 2 3 [1; 2]%float [3; 4]%float [5; 6; 7]%float [8; 9; 10]%float [11; 12; 13]%float
      (PackedMatrix [(2, 1%float); (0, 2%float); (1, 3%float); (2, 4%float); (0, 5%float)]
                    [3; 2] [0; 3]).

(** The same core as [example_osi] gives, and a scenario node of stage 1
    that overrides nothing. *)
Definition example_core : Core.t := SmiCoreData_new example_osi 2 [1; 0; 1] [1; 0] [] 0 [] 0.

Definition example_empty_node : Node.t :=
  SmiNodeData_new 1 example_core None None None None None None.

(** ** Combining *)

(** The value a packed vector gives the index [k]: that of its last
    entry with this index, [0.0] when it has none; a null vector has
    none.  It is what [denseVector] leaves at position [k]. *)
Definition last_value (v : option CoinPackedVector) (k : nat) : double :=
  default 0%float (sparse_get (reverse (default [] v)) k).

(** What a position holds after the combine: the value the override
    vector [v] gives the external index [c], else the core's value. *)
Definition overridden (base : option double) (v : option CoinPackedVector) (c : nat) :
    option double :=
  (λ x, default x (sparse_get (default [] v) c)) <$> base.

(** The scenario of section 8 of the specification: two columns, column
    0 in stage 0 and column 1 in stage 1; one row, in stage 1, with the
    coefficient 2.0 on column 1. *)
Definition scenario_osi : OsiSolverInterface :=
  Osi 1 2 [0]%float [0]%float [0; 0]%float [0; 0]%float [0; 0]%float
      (PackedMatrix [(1, 2%float)] [1] [0]).

Definition scenario_core : Core.t := SmiCoreData_new scenario_osi 2 [0; 1] [1] [] 0 [] 0.

(** The scenario node: the coefficient 3.0 for the same row and column. *)
Definition scenario_node : Node.t :=
  SmiNodeData_new 1 scenario_core (Some (PackedMatrix [(1, 3%float)] [1] [0]))
                  None None None None None.

(** ** Start offsets *)

(** The offsets as documented: all [nstrt_] entries of
    [strt_], the [nrow_+1] row starts followed by the five markers. *)
Definition offsets_partition_buffer (offsets : list nat) (stored : nat) : Prop :=
  offsets !! 0 = Some 0 ∧
  (∀ k, S k < length offsets → offsets !!! k ≤ offsets !!! S k) ∧
  last offsets = Some stored.

(** The offsets the accessors use: [strt_[0 .. rup_strt_+1]]. *)
Definition used_offsets (nd : Node.t) : list nat :=
  take (Node.rup_strt_ nd + 2) (Node.strt_ nd).

(** A scenario node of stage 1 without a matrix, overriding the lower
    bound of column 0. *)
Definition example_bound_node : Node.t :=
  SmiNodeData_new 1 example_core None (Some [(0, 1%float); (1, 2%float)])
                  None None None None.

(** ** Row order *)

#[global] Instance index_le_total : Total index_le.
Proof. intros a b. unfold index_le. lia. Qed.

#[global] Instance index_le_trans : Transitive index_le.
Proof. intros a b c. unfold index_le. lia. Qed.

(** The documented order on one node: in every row it holds the column
    indices increase strictly. *)
Definition rows_ascending (nd : Node.t) : Prop :=
  ∀ i, i < Node.nrow_ nd → StronglySorted lt (getRow nd (Node.rowbeg_ nd + i)).*1.

(** A scenario node of stage 1 whose one row, the external row 0, names
    the columns 0 (of stage 1) and 1 (of stage 0) in that order; their
    internal indices are 1 and 0. *)
Definition example_row_node : Node.t :=
  SmiNodeData_new 1 example_core
                  (Some (PackedMatrix [(0, 1%float); (1, 2%float)] [2; 0] [0; 2]))
                  None None None None None.

(** ** Dense rows *)

(** What one call returns and leaves behind, on a node whose row [irow]
    names columns below [getNumCols()] and whose buffer for [irow], if it
    has one, has that size. *)
Definition dense_row_correct (core : Core.t) (fresh : list double) (nd : Node.t) (irow : nat) :
    Prop :=
  let n := getNumColsTotal core in
  let row := getRow nd irow in
  let call := getDenseRow core fresh nd irow in
  length call.1 = n ∧
  Node.dRowMap call.2 !! irow = Some call.1 ∧
  (NoDup row.*1 → ∀ k v, (k, v) ∈ row → call.1 !! k = Some v) ∧
  (∀ k, k < n → k ∉ row.*1 → call.1 !! k = Some 0%float) ∧
  (∀ fresh', length fresh' = n → (getDenseRow core fresh' call.2 irow).1 = call.1) ∧
  (∀ fresh' junk, length fresh' = n → length junk = n →
     (getDenseRow core fresh'
        (set_dRowMap call.2 (<[irow := junk]> (Node.dRowMap call.2))) irow).1 = call.1).

(** ** Validation *)

(** The documented validation: a label outside [[0, nstag)] or a label
    array whose length is not [ncol] (or [nrow]) makes the construction
    fail. *)
Definition validates_arguments : Prop :=
  ∀ osi nstag cstag rstag ints il bins bl,
    ¬ Forall (λ s, s < nstag) cstag ∨ ¬ Forall (λ s, s < nstag) rstag ∨
    length cstag ≠ osi_ncol osi ∨ length rstag ≠ osi_nrow osi →
    SmiCoreData_construct osi nstag cstag rstag ints il bins bl = thrown invalid_argument.

(** One row and two columns; with one stage, the label 1 of the second
    column is out of range. *)
Definition small_osi : OsiSolverInterface :=
  Osi 1 2 [0]%float [1]%float [2; 3]%float [4; 5]%float [6; 7]%float
      (PackedMatrix [(0, 1%float); (1, 2%float)] [2] [0]).

(** ** Quadratic terms *)

(** A term of column [j] that names a column of another stage. *)
Definition bad_column (core : Core.t) (strts ind : list nat) (stg j : nat) : Prop :=
  getColStage core j = stg ∧
  ∃ jj, strts !!! j ≤ jj < strts !!! S j ∧ getColStage core (ind !!! jj) ≠ stg.

(** A quadratic term whose two columns lie in different stages. *)
Definition cross_stage_term (core : Core.t) (strts ind : list nat) : Prop :=
  ∃ j jj, j < getNumColsTotal core ∧ strts !!! j ≤ jj < strts !!! S j ∧
          getColStage core (ind !!! jj) ≠ getColStage core j.

(** Everything of a node but its quadratic data. *)
Definition node_linear (nd : Node.t) :=
  (Node.stg_ nd, Node.isCoreNode_ nd, Node.numarrays_ nd, Node.nrow_ nd, Node.ncol_ nd,
   Node.rowbeg_ nd, Node.colbeg_ nd, Node.nels_ nd, Node.nstrt_ nd, Node.ents_ nd,
   Node.strt_ nd, Node.has_matrix_ nd, Node.mat_strt_ nd, Node.clo_strt_ nd,
   Node.cup_strt_ nd, Node.obj_strt_ nd, Node.rlo_strt_ nd, Node.rup_strt_ nd,
   Node.dRowMap nd).

(** Everything of a core object but its quadratic data. *)
Definition linear_data (c : Core.t) :=
  (maps_of c, Core.integerIndices_ c, Core.binaryIndices_ c, Core.intColsStagewise c,
   Core.cdrlo_ c, Core.cdrup_ c, Core.cdobj_ c, Core.cdclo_ c, Core.cdcup_ c,
   node_linear <$> Core.nodes_ c).

Definition is_thrown {A} (r : outcome A) : Prop := ∃ e, r = thrown e.

(** No column has a quadratic term. *)
Definition no_quadratic_term (strts : list nat) (ncols : nat) : Prop :=
  ∀ j, j < ncols → strts !!! j = strts !!! S j.

(** The documented state after a failed call: no quadratic data. *)
Definition without_quadratic_data (c : Core.t) : Prop :=
  Core.hasQdata_ c = false ∧ Forall (λ nd, Node.hasQdata_ nd = false) (Core.nodes_ c).

(** * Theorems *)

(** ** Counting facts behind the index maps *)

Section Counting.
Implicit Types (l : list nat) (s t c d k : nat).

Lemma occ_nil s : occ s [] = 0.
Proof. reflexivity. Qed.

Lemma occ_cons s x l : occ s (x :: l) = (if decide (x = s) then 1 else 0) + occ s l.
Proof. unfold occ. rewrite filter_cons. by case_decide. Qed.

Lemma occ_app s l1 l2 : occ s (l1 ++ l2) = occ s l1 + occ s l2.
Proof. unfold occ. by rewrite filter_app, length_app. Qed.

Lemma below_cons t x l : below t (x :: l) = (if decide (x < t) then 1 else 0) + below t l.
Proof. unfold below. rewrite filter_cons. by case_decide. Qed.

Lemma below_0 l : below 0 l = 0.
Proof. induction l as [|x l IH]; [done|]. rewrite below_cons, IH. case_decide; lia. Qed.

Lemma below_S t l : below (S t) l = below t l + occ t l.
Proof.
  induction l as [|x l IH]; [done|].
  rewrite !below_cons, occ_cons, IH. repeat case_decide; lia.
Qed.

Lemma below_mono t t' l : t ≤ t' → below t l ≤ below t' l.
Proof.
  induction 1 as [|t' _ IH]; [done|]. rewrite below_S. lia.
Qed.

Lemma below_le_length t l : below t l ≤ length l.
Proof. apply length_filter. Qed.

Lemma below_all t l : Forall (λ x, x < t) l → below t l = length l.
Proof.
  induction 1 as [|x l Hx _ IH]; [done|]. rewrite below_cons, IH. simpl.
  case_decide; lia.
Qed.

Lemma occ_take_S s l c :
  c < length l → occ s (take (S c) l) = occ s (take c l) + (if decide (l !!! c = s) then 1 else 0).
Proof.
  intros Hc. destruct (lookup_lt_is_Some_2 l c Hc) as [x Hx].
  rewrite (take_S_r _ _ _ Hx), occ_app, occ_cons, occ_nil.
  rewrite (list_lookup_total_correct _ _ _ Hx). lia.
Qed.

Lemma occ_take_lt s l c : l !! c = Some s → occ s (take c l) < occ s l.
Proof.
  intros Hc. rewrite <- (take_drop_middle l c s Hc) at 2.
  rewrite occ_app, occ_cons. case_decide; [lia|done].
Qed.

Lemma occ_take_le s l c : occ s (take c l) ≤ occ s l.
Proof. rewrite <- (take_drop c l) at 2. rewrite occ_app. lia. Qed.

(** The [d]-th occurrence of a stage label exists. *)
Lemma nth_occurrence s l d :
  d < occ s l → ∃ c, l !! c = Some s ∧ occ s (take c l) = d.
Proof.
  revert d. induction l as [|x l IH]; intros d Hd; [by inversion Hd|].
  rewrite occ_cons in Hd. case_decide as Hx.
  - destruct d as [|d].
    + exists 0. by subst.
    + destruct (IH d) as (c & Hc & Ho); [lia|].
      exists (S c). split; [done|]. simpl. rewrite occ_cons, Ho. case_decide; [lia|done].
  - destruct (IH d) as (c & Hc & Ho); [lia|].
    exists (S c). split; [done|]. simpl. rewrite occ_cons, Ho. case_decide; [done|lia].
Qed.

Lemma rank_lt_next l c : c < length l → rank l c < below (S (l !!! c)) l.
Proof.
  intros Hc. destruct (lookup_lt_is_Some_2 l c Hc) as [s Hs].
  unfold rank. rewrite (list_lookup_total_correct _ _ _ Hs), below_S.
  pose proof (occ_take_lt _ _ _ Hs). lia.
Qed.

Lemma rank_ge l c : below (l !!! c) l ≤ rank l c.
Proof. unfold rank. lia. Qed.

Lemma rank_lt_length l c : c < length l → rank l c < length l.
Proof.
  intros Hc. pose proof (rank_lt_next l c Hc).
  pose proof (below_le_length (S (l !!! c)) l). lia.
Qed.

Lemma rank_inj l c c' :
  c < length l → c' < length l → rank l c = rank l c' → c = c'.
Proof.
  intros Hc Hc' Hr.
  destruct (decide (l !!! c = l !!! c')) as [Hs|Hs].
  - unfold rank in Hr. rewrite Hs in Hr.
    assert (Ho : occ (l !!! c') (take c l) = occ (l !!! c') (take c' l)) by lia.
    clear Hr. destruct (decide (c = c')) as [|Hne]; [done|exfalso].
    assert (∀ a b, a < b → b < length l → l !!! a = l !!! b →
              occ (l !!! b) (take a l) < occ (l !!! b) (take b l)) as Hlt.
    { intros a b Hab Hb Hl.
      assert (take a l = take a (take b l)) as -> by (rewrite take_take; f_equal; lia).
      apply occ_take_lt. rewrite lookup_take_lt by done.
      rewrite <- Hl. apply list_lookup_lookup_total_lt. lia. }
    destruct (decide (c < c')).
    + pose proof (Hlt c c' ltac:(done) Hc' Hs). lia.
    + pose proof (Hlt c' c ltac:(lia) Hc (eq_sym Hs)). rewrite Hs in H. lia.
  - exfalso.
    pose proof (rank_lt_next l c Hc). pose proof (rank_lt_next l c' Hc').
    pose proof (rank_ge l c). pose proof (rank_ge l c').
    destruct (decide (l !!! c < l !!! c')).
    + pose proof (below_mono (S (l !!! c)) (l !!! c') l ltac:(lia)). lia.
    + pose proof (below_mono (S (l !!! c')) (l !!! c) l ltac:(lia)). lia.
Qed.

(** Every slot of stage [t]'s block is the rank of an index of stage [t]. *)
Lemma rank_onto l t i :
  below t l ≤ i < below (S t) l → ∃ c, l !! c = Some t ∧ rank l c = i.
Proof.
  rewrite below_S. intros Hi.
  destruct (nth_occurrence t l (i - below t l)) as (c & Hc & Ho); [lia|].
  exists c. split; [done|]. unfold rank.
  rewrite (list_lookup_total_correct _ _ _ Hc). lia.
Qed.
End Counting.

(** ** The loops of the constructor, by their invariants *)

Section Loops.
Context {A : Type}.

Lemma foldl_seq_S (f : A → nat → A) (a : A) (n : nat) :
  foldl f a (seq 0 (S n)) = f (foldl f a (seq 0 n)) n.
Proof. by rewrite seq_S, foldl_snoc. Qed.

(** Reading an array after an assignment inside its allocation. *)
Lemma lookup_total_assign `{!Inhabited A} (a : list A) (i j : nat) (x : A) :
  i < length a → <[i:=x]> a !!! j = if decide (i = j) then x else a !!! j.
Proof.
  intros Hi. case_decide as E.
  - subst j. by apply list_lookup_total_insert_eq.
  - by apply list_lookup_total_insert_ne.
Qed.
End Loops.

Section StageMapsFacts.
Variables (nstag : nat) (l : list nat).
Hypothesis labels : Forall (λ s, s ≤ nstag) l.

Lemma label_le c : c < length l → l !!! c ≤ nstag.
Proof.
  intros Hc. destruct (lookup_lt_is_Some_2 l c Hc) as [s Hs].
  rewrite (list_lookup_total_correct _ _ _ Hs).
  by apply (Forall_lookup_1 _ _ _ _ labels Hs).
Qed.

Lemma count_in_stage_inv n :
  n ≤ length l →
  length (count_in_stage nstag l n) = S nstag ∧
  ∀ s, s ≤ nstag → count_in_stage nstag l n !!! s = occ s (take n l).
Proof.
  unfold count_in_stage. induction n as [|n IH]; intros Hn.
  - cbn [seq foldl]. split; [by rewrite length_replicate|].
    intros s Hs. by rewrite lookup_total_replicate_2 by lia.
  - destruct IH as [Hlen Hcnt]; [lia|].
    rewrite foldl_seq_S. cbv zeta. split; [by rewrite length_insert|].
    intros s Hs. rewrite occ_take_S by lia.
    pose proof (label_le n ltac:(lia)) as Hl.
    rewrite lookup_total_assign by lia.
    case_decide as E.
    + rewrite Hcnt by lia. rewrite E. lia.
    + rewrite Hcnt by lia. lia.
Qed.

Lemma set_stage_pointers_inv (cnt ptr : list nat) k :
  length ptr = S nstag → k ≤ nstag →
  (∀ s, s ≤ nstag → cnt !!! s = occ s l) →
  let p := foldl (λ p i, <[S i := p !!! i + cnt !!! i]> p) (<[0 := 0]> ptr) (seq 0 k) in
  length p = S nstag ∧ ∀ t, t ≤ k → p !!! t = below t l.
Proof.
  intros Hlen Hk Hcnt. induction k as [|k IH]; cbv zeta.
  - cbn [seq foldl]. split; [by rewrite length_insert|].
    intros t Ht. assert (t = 0) as -> by lia.
    rewrite list_lookup_total_insert_eq by lia. by rewrite below_0.
  - destruct IH as [Hl Hp]; [lia|]. cbv zeta in Hl, Hp.
    rewrite foldl_seq_S. split; [by rewrite length_insert|].
    intros t Ht. rewrite lookup_total_assign by lia.
    case_decide as E.
    + subst t. rewrite Hp, Hcnt, below_S by lia. done.
    + apply Hp. lia.
Qed.

Lemma set_stage_pointers_spec (cnt ptr : list nat) :
  length ptr = S nstag →
  (∀ s, s ≤ nstag → cnt !!! s = occ s l) →
  length (set_stage_pointers nstag cnt ptr) = S nstag ∧
  ∀ t, t ≤ nstag → set_stage_pointers nstag cnt ptr !!! t = below t l.
Proof. intros Hlen Hcnt. by apply (set_stage_pointers_inv cnt ptr nstag). Qed.

Lemma place_indices_inv (ptr : list nat) k :
  length ptr = S nstag → k ≤ length l →
  (∀ t, t ≤ nstag → ptr !!! t = below t l) →
  let st := foldl (place_step l)
                  (Placement (replicate (length l) 0) (replicate (length l) 0) ptr)
                  (seq 0 k) in
  length (ex2in st) = length l ∧ length (in2ex st) = length l ∧
  length (stagePtr st) = S nstag ∧
  (∀ c, c < k → ex2in st !!! c = rank l c) ∧
  (∀ c, c < k → in2ex st !!! rank l c = c) ∧
  (∀ s, s ≤ nstag → stagePtr st !!! s = below s l + occ s (take k l)).
Proof.
  intros Hlen Hk Hptr. induction k as [|k IH]; cbv zeta.
  - simpl. rewrite !length_replicate. repeat split; try done; try (intros; lia).
    intros s Hs. rewrite Hptr by done. rewrite occ_nil. lia.
  - destruct IH as (He & Hx & Hp & IHe & IHx & IHp); [lia|]. cbv zeta in *.
    rewrite foldl_seq_S.
    set (st := foldl (place_step l) _ (seq 0 k)) in *.
    pose proof (label_le k ltac:(lia)) as Hlk.
    assert (Hslot : <[k := stagePtr st !!! (l !!! k)]> (ex2in st) !!! k = rank l k).
    { rewrite list_lookup_total_insert_eq by lia. rewrite IHp by done. done. }
    unfold place_step. cbn [ex2in in2ex stagePtr]. rewrite Hslot.
    rewrite !length_insert. repeat split; try done.
    + intros c Hc. rewrite lookup_total_assign by lia.
      case_decide as E; [subst c; by rewrite IHp|]. apply IHe. lia.
    + intros c Hc. pose proof (rank_lt_length l k ltac:(lia)).
      rewrite lookup_total_assign by lia.
      case_decide as E.
      * apply rank_inj in E; [done|lia..].
      * apply IHx. destruct (decide (c = k)) as [->|]; [done|lia].
    + intros s Hs. rewrite lookup_total_assign by lia.
      rewrite occ_take_S by lia.
      case_decide as E.
      * rewrite IHp by done. rewrite E. lia.
      * rewrite IHp by done. lia.
Qed.

(** What [gutsOfConstructor] leaves in the four arrays of an index set
    whose stage labels all index the [nstag+1] counts. *)
Lemma build_stage_maps_spec :
  let m := build_stage_maps nstag l (length l) in
  length (sm_nInStage m) = S nstag ∧ length (sm_ptr m) = S nstag ∧
  length (sm_ex2in m) = length l ∧ length (sm_in2ex m) = length l ∧
  (∀ s, s ≤ nstag → sm_nInStage m !!! s = occ s l) ∧
  (∀ t, t ≤ nstag → sm_ptr m !!! t = below t l) ∧
  (∀ c, c < length l → sm_ex2in m !!! c = rank l c) ∧
  (∀ c, c < length l → sm_in2ex m !!! rank l c = c).
Proof.
  cbv zeta. unfold build_stage_maps. cbn [sm_nInStage sm_ptr sm_ex2in sm_in2ex].
  destruct (count_in_stage_inv (length l) ltac:(done)) as [Hcl Hcnt].
  rewrite firstn_all in Hcnt.
  destruct (set_stage_pointers_spec (count_in_stage nstag l (length l))
              (replicate (S nstag) 0)) as [Hpl Hptr];
    [by rewrite length_replicate|done|].
  destruct (place_indices_inv _ (length l) Hpl ltac:(done) Hptr)
    as (He & Hx & Hp & Hex & Hin & _).
  cbv zeta in *. fold (place_indices l (length l)
    (set_stage_pointers nstag (count_in_stage nstag l (length l)) (replicate (S nstag) 0))) in *.
  destruct (set_stage_pointers_spec (count_in_stage nstag l (length l)) _ Hp Hcnt)
    as [Hpl' Hptr'].
  repeat split; done.
Qed.
End StageMapsFacts.

(** ** The shared buffer as a sequence of segments *)

Section Buffer.
Context {A : Type} `{!Inhabited A}.
Implicit Types (b r : list A) (segs : list (list A)).

Lemma take_assign b off x :
  off < length b → take (S off) (<[off:=x]> b) = take off b ++ [x].
Proof.
  intros Hoff. rewrite (take_S_r _ _ x) by (by apply list_lookup_insert_eq).
  by rewrite take_insert_ge.
Qed.

Lemma take_inserts b off r :
  off + length r ≤ length b → take (off + length r) (list_inserts off r b) = take off b ++ r.
Proof.
  intros Hcap. apply list_eq. intros j.
  destruct (decide (j < off)) as [Hj|Hj].
  - rewrite lookup_take_lt by lia. rewrite list_lookup_inserts_lt by done.
    rewrite lookup_app_l by (rewrite length_take; lia). by rewrite lookup_take_lt.
  - destruct (decide (j < off + length r)) as [Hj'|Hj'].
    + rewrite lookup_take_lt by done. rewrite list_lookup_inserts by lia.
      rewrite lookup_app_r by (rewrite length_take; lia).
      rewrite length_take. f_equal. lia.
    + rewrite lookup_take_ge by lia. symmetry. apply lookup_ge_None.
      rewrite length_app, length_take. lia.
Qed.

Lemma length_concat_take_le segs k :
  length (concat (take k segs)) ≤ length (concat segs).
Proof.
  rewrite <- (take_drop k segs) at 2. rewrite concat_app, length_app. lia.
Qed.

Lemma concat_snoc segs r : concat (segs ++ [r]) = concat segs ++ r.
Proof. rewrite concat_app. simpl. by rewrite app_nil_r. Qed.

Lemma length_concat_take_S segs k :
  k < length segs →
  length (concat (take (S k) segs)) = length (concat (take k segs)) + length (segs !!! k).
Proof.
  intros Hk. destruct (lookup_lt_is_Some_2 segs k Hk) as [r Hr].
  rewrite (take_S_r _ _ _ Hr), concat_snoc, length_app.
  by rewrite (list_lookup_total_correct _ _ _ Hr).
Qed.

(** Segment [k] of a buffer that is the concatenation of [segs]. *)
Lemma segment_of_concat segs k tail :
  k < length segs →
  take (length (segs !!! k)) (drop (length (concat (take k segs))) (concat segs ++ tail))
  = segs !!! k.
Proof.
  intros Hk. destruct (lookup_lt_is_Some_2 segs k Hk) as [r Hr].
  rewrite (list_lookup_total_correct _ _ _ Hr).
  rewrite <- (take_drop_middle segs k r Hr) at 2.
  rewrite concat_app. simpl. rewrite <- !app_assoc.
  rewrite drop_app_length. by rewrite take_app_length.
Qed.

Lemma concat_take_mono segs j k :
  j ≤ k → length (concat (take j segs)) ≤ length (concat (take k segs)).
Proof.
  intros Hjk. assert (take j segs = take j (take k segs)) as ->
    by (rewrite take_take; f_equal; lia).
  apply length_concat_take_le.
Qed.
End Buffer.

Section Fill.
Implicit Types (st : fill) (segs : list (list entry)).

Lemma filled_capacity st segs : filled st segs → offset_dst st ≤ length (f_ents st).
Proof.
  intros [_ Ho He _]. apply (f_equal length) in He.
  rewrite length_take in He. lia.
Qed.

Lemma filled_assignMemory nrow numarrays nels :
  filled (assignMemory nrow numarrays nels).2 [].
Proof.
  split; try done. intros k Hk. simpl in Hk. assert (k = 0) as -> by lia.
  simpl. apply lookup_total_replicate_2. lia.
Qed.

(** Closing a segment: [i_start++; strt_[i_start] = offset_dst]. *)
Lemma filled_next_start st segs r :
  i_start st = length segs →
  (∀ k, k ≤ length segs → f_strt st !!! k = length (concat (take k segs))) →
  offset_dst st = length (concat segs) + length r →
  take (offset_dst st) (f_ents st) = concat segs ++ r →
  S (length segs) < length (f_strt st) →
  filled (next_start st) (segs ++ [r]).
Proof.
  intros Hi Hs Ho He Hlen. unfold next_start. split; cbn [i_start offset_dst f_ents f_strt].
  - rewrite length_app. simpl. lia.
  - rewrite concat_snoc, length_app. lia.
  - by rewrite concat_snoc.
  - intros k Hk. rewrite length_app in Hk. simpl in Hk.
    rewrite Hi. rewrite lookup_total_assign by lia.
    case_decide as E.
    + subst k. rewrite take_ge by (rewrite length_app; simpl; lia).
      rewrite concat_snoc, length_app. lia.
    + rewrite take_app_le by lia. apply Hs. lia.
Qed.
End Fill.

Section FillLoops.
Implicit Types (st : fill) (segs : list (list entry)).

Lemma length_stage_entries stage_of internal_of stg v :
  length (stage_entries stage_of internal_of stg v) ≤ from_option length 0 v.
Proof.
  unfold stage_entries. rewrite length_fmap.
  destruct v as [cpv|]; simpl; [apply length_filter|done].
Qed.

Lemma copy_stage_entries_spec stage_of internal_of stg v st :
  offset_dst st + from_option length 0 v ≤ length (f_ents st) →
  let st' := copy_stage_entries stage_of internal_of stg v st in
  f_strt st' = f_strt st ∧ i_start st' = i_start st ∧
  length (f_ents st') = length (f_ents st) ∧
  offset_dst st' = offset_dst st + length (stage_entries stage_of internal_of stg v) ∧
  take (offset_dst st') (f_ents st')
  = take (offset_dst st) (f_ents st) ++ stage_entries stage_of internal_of stg v.
Proof.
  destruct v as [cpv|]; cbv zeta; simpl;
    [|intros _; rewrite app_nil_r; repeat split; lia].
  unfold stage_entries. simpl. revert st.
  induction cpv as [|e cpv IH]; intros st Hcap; simpl.
  { rewrite app_nil_r. repeat split; lia. }
  simpl in Hcap. rewrite filter_cons. unfold copy_entry at 2 4 6 8 10 12.
  case_decide as E.
  - set (st1 := Fill _ _ _ _).
    destruct (IH st1) as (Hs & Hi & Hl & Ho & Ht).
    { subst st1. simpl. rewrite length_insert. lia. }
    subst st1. cbn [f_strt i_start f_ents offset_dst] in *.
    rewrite length_insert in Hl. rewrite take_assign in Ht by lia.
    split; [done|]. split; [done|]. split; [done|]. split.
    + rewrite Ho, fmap_cons. simpl. by rewrite Nat.add_succ_r.
    + rewrite Ht, fmap_cons. by rewrite <- app_assoc.
  - destruct (IH st) as (Hs & Hi & Hl & Ho & Ht); [lia|]. done.
Qed.

(** One category: its entries become the next segment. *)
Lemma filled_category stage_of internal_of stg v st segs :
  filled st segs →
  offset_dst st + from_option length 0 v ≤ length (f_ents st) →
  S (length segs) < length (f_strt st) →
  let st' := next_start (copy_stage_entries stage_of internal_of stg v st) in
  filled st' (segs ++ [stage_entries stage_of internal_of stg v]) ∧
  length (f_ents st') = length (f_ents st) ∧ length (f_strt st') = length (f_strt st).
Proof.
  intros [Hi Ho He Hs] Hcap Hlen. cbv zeta.
  destruct (copy_stage_entries_spec stage_of internal_of stg v st Hcap)
    as (Hs' & Hi' & Hl' & Ho' & Ht'). cbv zeta in *.
  split; [|unfold next_start; cbn [f_ents f_strt]; by rewrite length_insert, Hs', Hl'].
  apply filled_next_start; rewrite ?Hs', ?Hi'; try done; [lia|].
  by rewrite Ht', He.
Qed.

Lemma stage_rows_S core m rowbeg n :
  stage_rows core m rowbeg (S n)
  = stage_rows core m rowbeg n ++ [matrix_row m (getRowExternalIndex core (rowbeg + n))].
Proof. unfold stage_rows. by rewrite seq_S, fmap_app. Qed.

Lemma length_stage_rows core m rowbeg n : length (stage_rows core m rowbeg n) = n.
Proof. unfold stage_rows. by rewrite length_fmap, length_seq. Qed.

(** The loop over the rows of the stage: one segment per row. *)
Lemma filled_matrix_rows core m rowbeg n st :
  filled st [] →
  (∀ i, i < n → length (matrix_row m (getRowExternalIndex core (rowbeg + i)))
                = mx_len m !!! getRowExternalIndex core (rowbeg + i)) →
  length (concat (stage_rows core m rowbeg n)) ≤ length (f_ents st) →
  n < length (f_strt st) →
  let st' := foldl (copy_matrix_row core m rowbeg) st (seq 0 n) in
  filled st' (stage_rows core m rowbeg n) ∧
  length (f_ents st') = length (f_ents st) ∧ length (f_strt st') = length (f_strt st).
Proof.
  intros H0 Hrow Hcap Hlen. cbv zeta. induction n as [|n IH]; [done|].
  rewrite stage_rows_S, concat_snoc, length_app in Hcap.
  destruct IH as ([Hi Ho He Hs] & Hl & Hls); [intros; apply Hrow; lia|lia|lia|].
  rewrite foldl_seq_S. set (st1 := foldl _ st (seq 0 n)) in *.
  rewrite stage_rows_S. rewrite length_stage_rows in Hi, Hs.
  unfold copy_matrix_row. specialize (Hrow n ltac:(lia)).
  set (isrc := getRowExternalIndex core (rowbeg + n)) in *.
  case_decide as E.
  - split; [|unfold next_start; cbn [f_ents f_strt]; by rewrite length_insert].
    assert (matrix_row m isrc = []) as -> by (apply nil_length_inv; lia).
    apply filled_next_start; rewrite ?length_stage_rows; try done; [simpl; lia| |lia].
    by rewrite app_nil_r.
  - split; [|unfold next_start; cbn [f_ents f_strt];
              by rewrite length_insert, length_inserts].
    apply filled_next_start; cbn [i_start f_strt offset_dst f_ents];
      rewrite ?length_stage_rows; try done; [lia| |lia].
    rewrite Ho. rewrite <- Hrow. rewrite <- Ho.
    rewrite take_inserts by lia. by rewrite He.
Qed.

Lemma foldl_pointwise {A} `{!Inhabited A} (g : A → A) (b : list A) n :
  n ≤ length b →
  foldl (λ b j, <[j := g (b !!! j)]> b) b (seq 0 n) = (g <$> take n b) ++ drop n b.
Proof.
  induction n as [|n IH]; intros Hn; [done|].
  rewrite foldl_seq_S, IH by lia.
  destruct (lookup_lt_is_Some_2 b n ltac:(lia)) as [x Hx].
  assert (Hlen : length (g <$> take n b) = n) by (rewrite length_fmap, length_take; lia).
  rewrite lookup_total_app_r by lia. rewrite Hlen, Nat.sub_diag.
  rewrite (drop_S _ _ _ Hx). simpl.
  rewrite <- Hlen at 1. rewrite (insert_app_r_alt _ _ (length (g <$> take n b))) by lia.
  rewrite Nat.sub_diag. simpl.
  rewrite (take_S_r _ _ _ Hx), fmap_app, <- app_assoc. done.
Qed.

Lemma length_concat_fmap (g : entry → entry) segs :
  length (concat (fmap (M:=list) g <$> segs)) = length (concat segs).
Proof.
  induction segs as [|r segs IH]; [done|]. rewrite fmap_cons. cbn [concat].
  by rewrite !length_app, length_fmap, IH.
Qed.

Lemma concat_fmap (g : entry → entry) segs :
  concat (fmap (M:=list) g <$> segs) = g <$> concat segs.
Proof.
  induction segs as [|r segs IH]; [done|]. rewrite fmap_cons. cbn [concat].
  by rewrite fmap_app, IH.
Qed.

(** The conversion loop rewrites every index written so far. *)
Lemma filled_convert_indices core st segs :
  filled st segs →
  let st' := convert_indices core st in
  filled st' (fmap (M:=list) (internal_entry core) <$> segs) ∧
  length (f_ents st') = length (f_ents st) ∧ length (f_strt st') = length (f_strt st).
Proof.
  intros Hf. pose proof (filled_capacity _ _ Hf) as Hcap.
  destruct Hf as [Hi Ho He Hs]. cbv zeta. unfold convert_indices.
  rewrite (foldl_pointwise (internal_entry core)) by done.
  split; [|cbn [f_ents f_strt]; split; [|done];
            rewrite length_app, length_fmap, length_take, length_drop; lia].
  split; cbn [i_start f_strt offset_dst f_ents].
  - by rewrite length_fmap.
  - by rewrite length_concat_fmap.
  - rewrite take_app_length' by (rewrite length_fmap, length_take; lia).
    by rewrite He, concat_fmap.
  - intros k Hk. rewrite length_fmap in Hk. rewrite <- fmap_take, length_concat_fmap.
    by apply Hs.
Qed.
End FillLoops.

(** ** The layout of a constructed node *)

Lemma SmiNodeData_new_laid_out stg core matrix dclo dcup dobj drlo drup :
  rows_readable core stg matrix →
  laid_out (SmiNodeData_new stg core matrix dclo dcup dobj drlo drup)
           (node_rows core stg matrix)
           (node_categories core stg dclo dcup dobj drlo drup).
Proof.
  intros Hread. unfold SmiNodeData_new.
  set (nrow := getNumRows core stg). set (rowbeg := getRowStart core stg).
  set (M := from_option getNumElements 0 matrix).
  set (nels := M + _ + _ + _ + _ + _).
  pose proof (filled_assignMemory nrow 5 nels) as H0.
  destruct (assignMemory nrow 5 nels) as [nstrt st0] eqn:Hmem.
  assert (Hlen0 : length (f_ents st0) = nels ∧ length (f_strt st0) = nrow + 6 ∧ i_start st0 = 0).
  { unfold assignMemory in Hmem. injection Hmem as <- <-. simpl.
    rewrite !length_replicate. repeat split; lia. }
  destruct Hlen0 as (Hle0 & Hls0 & Hi0). simpl in H0.
  set (st1 := match matrix with Some m => _ | None => st0 end).
  assert (H1 : filled st1 (node_rows core stg matrix) ∧
               length (f_ents st1) = nels ∧ length (f_strt st1) = nrow + 6 ∧
               length (concat (node_rows core stg matrix)) ≤ M ∧
               length (node_rows core stg matrix) = if has_elements matrix then nrow else 0).
  { subst st1. unfold node_rows. destruct matrix as [m|];
      [|split; [done|]; repeat split; first [done|simpl; lia]].
    destruct (has_elements (Some m)) eqn:Hhas;
      [|split; [done|]; repeat split; first [done|simpl; lia]].
    destruct Hread as [Hrow Hcap]. fold nrow rowbeg in Hrow, Hcap.
    destruct (filled_matrix_rows core m rowbeg nrow st0 H0 Hrow) as (Hf & Hl & Hs);
      [rewrite Hle0; unfold nels, M; simpl; lia|lia|]. cbv zeta in *.
    destruct (filled_convert_indices core _ _ Hf) as (Hf' & Hl' & Hs'). cbv zeta in *.
    rewrite length_concat_fmap, length_fmap, length_stage_rows.
    split; [done|]. repeat split; try done; try congruence. }
  destruct H1 as (H1 & Hle1 & Hls1 & HM & Hnr).
  set (rows := node_rows core stg matrix) in *.
  pose proof (length_stage_entries (getColStage core) (getColInternalIndex core) stg dclo) as Lclo.
  pose proof (length_stage_entries (getColStage core) (getColInternalIndex core) stg dcup) as Lcup.
  pose proof (length_stage_entries (getColStage core) (getColInternalIndex core) stg dobj) as Lobj.
  pose proof (length_stage_entries (getRowStage core) (getRowInternalIndex core) stg drlo) as Lrlo.
  pose proof (length_stage_entries (getRowStage core) (getRowInternalIndex core) stg drup) as Lrup.
  assert (Hrl : length rows ≤ nrow) by (rewrite Hnr; destruct (has_elements matrix); lia).
  subst nels.
  (* column lower bounds *)
  pose proof (filled_offset _ _ H1) as Ho1. pose proof (filled_i_start _ _ H1) as Hi1.
  destruct (filled_category (getColStage core) (getColInternalIndex core) stg dclo st1 rows H1)
    as (H2 & Hle2 & Hls2); [lia|lia|]. cbv zeta in *.
  set (st2 := next_start (copy_stage_entries _ _ stg dclo st1)) in *.
  pose proof (filled_offset _ _ H2) as Ho2. pose proof (filled_i_start _ _ H2) as Hi2.
  rewrite concat_snoc, length_app in Ho2. rewrite length_app in Hi2. cbn [length] in Hi2.
  (* column upper bounds *)
  destruct (filled_category (getColStage core) (getColInternalIndex core) stg dcup st2 _ H2)
    as (H3 & Hle3 & Hls3); [lia|rewrite length_app; cbn [length]; lia|]. cbv zeta in *.
  set (st3 := next_start (copy_stage_entries _ _ stg dcup st2)) in *.
  pose proof (filled_offset _ _ H3) as Ho3. pose proof (filled_i_start _ _ H3) as Hi3.
  rewrite !concat_snoc, !length_app in Ho3. rewrite !length_app in Hi3. cbn [length] in Hi3.
  (* objective *)
  destruct (filled_category (getColStage core) (getColInternalIndex core) stg dobj st3 _ H3)
    as (H4 & Hle4 & Hls4); [lia|rewrite !length_app; cbn [length]; lia|]. cbv zeta in *.
  set (st4 := next_start (copy_stage_entries _ _ stg dobj st3)) in *.
  pose proof (filled_offset _ _ H4) as Ho4. pose proof (filled_i_start _ _ H4) as Hi4.
  rewrite !concat_snoc, !length_app in Ho4. rewrite !length_app in Hi4. cbn [length] in Hi4.
  (* row lower bounds *)
  destruct (filled_category (getRowStage core) (getRowInternalIndex core) stg drlo st4 _ H4)
    as (H5 & Hle5 & Hls5); [lia|rewrite !length_app; cbn [length]; lia|]. cbv zeta in *.
  set (st5 := next_start (copy_stage_entries _ _ stg drlo st4)) in *.
  pose proof (filled_offset _ _ H5) as Ho5. pose proof (filled_i_start _ _ H5) as Hi5.
  rewrite !concat_snoc, !length_app in Ho5. rewrite !length_app in Hi5. cbn [length] in Hi5.
  (* row upper bounds *)
  destruct (filled_category (getRowStage core) (getRowInternalIndex core) stg drup st5 _ H5)
    as (H6 & Hle6 & Hls6); [lia|rewrite !length_app; cbn [length]; lia|]. cbv zeta in *.
  set (st6 := next_start (copy_stage_entries _ _ stg drup st5)) in *.
  rewrite <- !app_assoc in H6. simpl in H6.
  fold (node_categories core stg dclo dcup dobj drlo drup) in H6.
  destruct H6 as [Hi6 Ho6 He6 Hs6].
  split; cbn [Node.ents_ Node.strt_ Node.nrow_ Node.has_matrix_ Node.mat_strt_
              Node.clo_strt_ Node.cup_strt_ Node.obj_strt_ Node.rlo_strt_ Node.rup_strt_];
    try done; try lia.
Qed.

Section LaidOut.
Variables (nd : Node.t) (rows cats : list (list entry)).
Hypothesis layout : laid_out nd rows cats.

Lemma laid_out_segment k :
  k < length (rows ++ cats) → getSegment nd k = (rows ++ cats) !!! k.
Proof.
  intros Hk. unfold getSegment, getLength.
  rewrite !(lo_strt _ _ _ layout) by lia.
  rewrite length_concat_take_S by done.
  replace (length (concat (take k (rows ++ cats))) + length ((rows ++ cats) !!! k)
           - length (concat (take k (rows ++ cats))))
    with (length ((rows ++ cats) !!! k)) by lia.
  rewrite (lo_ents _ _ _ layout).
  rewrite <- (app_nil_r (concat (rows ++ cats))). by apply segment_of_concat.
Qed.

Lemma laid_out_category j :
  j < 5 → getSegment nd (length rows + j) = cats !!! j.
Proof.
  intros Hj. pose proof (lo_cats _ _ _ layout) as Hc.
  rewrite laid_out_segment by (rewrite length_app; lia).
  rewrite lookup_total_app_r by lia. f_equal. lia.
Qed.

Lemma laid_out_getColLower : getColLower nd = cats !!! 0.
Proof.
  unfold getColLower. rewrite (lo_clo _ _ _ layout).
  rewrite <- (Nat.add_0_r (length rows)). apply laid_out_category. lia.
Qed.

Lemma laid_out_getColUpper : getColUpper nd = cats !!! 1.
Proof. unfold getColUpper. rewrite (lo_cup _ _ _ layout). apply laid_out_category. lia. Qed.

Lemma laid_out_getObjective : getObjective nd = cats !!! 2.
Proof. unfold getObjective. rewrite (lo_obj _ _ _ layout). apply laid_out_category. lia. Qed.

Lemma laid_out_getRowLower : getRowLower nd = cats !!! 3.
Proof. unfold getRowLower. rewrite (lo_rlo _ _ _ layout). apply laid_out_category. lia. Qed.

Lemma laid_out_getRowUpper : getRowUpper nd = cats !!! 4.
Proof. unfold getRowUpper. rewrite (lo_rup _ _ _ layout). apply laid_out_category. lia. Qed.

Lemma laid_out_getRow i :
  i < length rows → getRow nd (Node.rowbeg_ nd + i) = rows !!! i.
Proof.
  intros Hi. unfold getRow. pose proof (lo_rows _ _ _ layout) as Hr.
  destruct (Node.has_matrix_ nd); [|lia].
  rewrite (lo_mat _ _ _ layout).
  replace (0 + (Node.rowbeg_ nd + i) - Node.rowbeg_ nd) with i by lia.
  rewrite laid_out_segment by (rewrite length_app; lia).
  by rewrite lookup_total_app_l.
Qed.

Lemma laid_out_getRowLength i :
  i < length rows → getRowLength nd (Node.rowbeg_ nd + i) = length (rows !!! i).
Proof.
  intros Hi. unfold getRowLength, getLength. pose proof (lo_rows _ _ _ layout) as Hr.
  destruct (Node.has_matrix_ nd); [|lia].
  rewrite (lo_mat _ _ _ layout).
  replace (0 + (Node.rowbeg_ nd + i) - Node.rowbeg_ nd) with i by lia.
  rewrite !(lo_strt _ _ _ layout) by (rewrite length_app; lia).
  rewrite length_concat_take_S by (rewrite length_app; lia).
  rewrite lookup_total_app_l by done. lia.
Qed.
End LaidOut.

(** ** The core object during and after the loop over the stages *)

Lemma SmiNodeData_new_same_maps c c' stg matrix dclo dcup dobj drlo drup :
  maps_of c = maps_of c' →
  SmiNodeData_new stg c matrix dclo dcup dobj drlo drup
  = SmiNodeData_new stg c' matrix dclo dcup dobj drlo drup.
Proof.
  destruct c, c'. unfold maps_of. simpl. intros [= -> -> -> -> -> -> -> -> -> -> -> -> ->].
  reflexivity.
Qed.

Section Stages.
Variables (matrix : option CoinPackedMatrix)
          (dclo dcup dobj drlo drup : option CoinPackedVector) (c0 : Core.t).

Let new (t : nat) : Node.t :=
  setCoreNode (SmiNodeData_new t c0 matrix dclo dcup dobj drlo drup).

Lemma stages_loop k :
  let c := foldl (core_stage matrix dclo dcup dobj drlo drup) c0 (seq 0 k) in
  maps_of c = maps_of c0 ∧
  Core.nodes_ c = Core.nodes_ c0 ++ (core_node matrix dclo dcup dobj drlo drup c0 <$> seq 0 k) ∧
  Core.cdclo_ c = Core.cdclo_ c0 ++
    ((λ t, dense_stage (getNumCols c0 t) (getColStart c0 t) (getColLower (new t))) <$> seq 0 k) ∧
  Core.cdcup_ c = Core.cdcup_ c0 ++
    ((λ t, dense_stage (getNumCols c0 t) (getColStart c0 t) (getColUpper (new t))) <$> seq 0 k) ∧
  Core.cdobj_ c = Core.cdobj_ c0 ++
    ((λ t, dense_stage (getNumCols c0 t) (getColStart c0 t) (getObjective (new t))) <$> seq 0 k) ∧
  Core.cdrlo_ c = Core.cdrlo_ c0 ++
    ((λ t, dense_stage (getNumRows c0 t) (getRowStart c0 t) (getRowLower (new t))) <$> seq 0 k) ∧
  Core.cdrup_ c = Core.cdrup_ c0 ++
    ((λ t, dense_stage (getNumRows c0 t) (getRowStart c0 t) (getRowUpper (new t))) <$> seq 0 k) ∧
  Core.hasQdata_ c = Core.hasQdata_ c0 ∧ Core.sqp_ c = Core.sqp_ c0.
Proof.
  cbv zeta. induction k as [|k IH].
  - simpl. rewrite !app_nil_r. done.
  - rewrite foldl_seq_S. set (c := foldl _ c0 (seq 0 k)) in *.
    destruct IH as (Hm & Hn & Hclo & Hcup & Hobj & Hrlo & Hrup & Hq & Hs).
    rewrite !seq_S, !fmap_app, !app_assoc. simpl.
    rewrite <- Hn, <- Hclo, <- Hcup, <- Hobj, <- Hrlo, <- Hrup.
    unfold core_stage, core_node, new.
    rewrite (SmiNodeData_new_same_maps c c0 _ _ _ _ _ _ _ Hm).
    assert (getNumRows c k = getNumRows c0 k ∧ getNumCols c k = getNumCols c0 k ∧
            getRowStart c k = getRowStart c0 k ∧ getColStart c k = getColStart c0 k)
      as (-> & -> & -> & ->).
    { unfold getNumRows, getNumCols, getRowStart, getColStart.
      unfold maps_of in Hm. injection Hm. intros. repeat split; congruence. }
    unfold push_stage. cbn [Core.nodes_ Core.cdclo_ Core.cdcup_ Core.cdobj_ Core.cdrlo_
                            Core.cdrup_ Core.hasQdata_ Core.sqp_].
    repeat split; try done.
Qed.
End Stages.

(** ** The index maps as a bijection onto stage blocks *)

Lemma build_stage_maps_indexed nstag (l : list nat) :
  Forall (λ s, s ≤ nstag) l →
  let m := build_stage_maps nstag l (length l) in
  indexed nstag (length l) l (sm_ex2in m) (sm_in2ex m) (sm_ptr m) (sm_nInStage m).
Proof.
  intros Hl. destruct (build_stage_maps_spec nstag l Hl)
    as (H1 & H2 & H3 & H4 & H5 & H6 & H7 & H8). cbv zeta in *.
  by split.
Qed.

Section Indexed.
Variables (nstag n : nat) (stage ex2in in2ex ptr cnt : list nat).
Hypothesis ix : indexed nstag n stage ex2in in2ex ptr cnt.

Lemma ix_stage_le c : c < n → stage !!! c ≤ nstag.
Proof.
  intros Hc. apply (label_le nstag stage (ix_labels _ _ _ _ _ _ _ ix)).
  by rewrite (ix_len _ _ _ _ _ _ _ ix).
Qed.

(** [in2ex[ex2in[c]] = c]. *)
Lemma ix_in2ex_ex2in c : c < n → in2ex !!! (ex2in !!! c) = c.
Proof.
  intros Hc. rewrite (ix_ex2in _ _ _ _ _ _ _ ix) by done.
  by apply (ix_in2ex _ _ _ _ _ _ _ ix).
Qed.

Lemma ix_ex2in_lt c : c < n → ex2in !!! c < n.
Proof.
  intros Hc. rewrite (ix_ex2in _ _ _ _ _ _ _ ix) by done.
  rewrite <- (ix_len _ _ _ _ _ _ _ ix). apply rank_lt_length.
  by rewrite (ix_len _ _ _ _ _ _ _ ix).
Qed.

Lemma ix_ptr_S t : t < nstag → ptr !!! S t = ptr !!! t + cnt !!! t.
Proof.
  intros Ht. rewrite !(ix_ptr _ _ _ _ _ _ _ ix) by lia.
  rewrite (ix_cnt _ _ _ _ _ _ _ ix) by lia. apply below_S.
Qed.

(** The slot of an index of stage [t] lies in the block of [t]. *)
Lemma ix_ex2in_block c :
  c < n → stage !!! c < nstag →
  ptr !!! (stage !!! c) ≤ ex2in !!! c < ptr !!! S (stage !!! c).
Proof.
  intros Hc Hs. rewrite !(ix_ptr _ _ _ _ _ _ _ ix) by lia.
  rewrite (ix_ex2in _ _ _ _ _ _ _ ix) by done.
  pose proof (rank_lt_next stage c). pose proof (rank_ge stage c).
  rewrite (ix_len _ _ _ _ _ _ _ ix) in *. lia.
Qed.

(** Every slot of the block of [t] holds an index of stage [t]. *)
Lemma ix_block t i :
  t < nstag → ptr !!! t ≤ i < ptr !!! S t →
  in2ex !!! i < n ∧ stage !!! (in2ex !!! i) = t ∧ ex2in !!! (in2ex !!! i) = i.
Proof.
  intros Ht Hi. rewrite !(ix_ptr _ _ _ _ _ _ _ ix) in Hi by lia.
  destruct (rank_onto stage t i Hi) as (c & Hc & Hr).
  assert (c < n).
  { rewrite <- (ix_len _ _ _ _ _ _ _ ix). by eapply lookup_lt_Some. }
  subst i. rewrite (ix_in2ex _ _ _ _ _ _ _ ix) by done.
  rewrite (list_lookup_total_correct _ _ _ Hc).
  rewrite (ix_ex2in _ _ _ _ _ _ _ ix) by done. done.
Qed.

(** The indices of stage [t] are exactly those of its block. *)
Lemma ix_stage_block t c :
  t < nstag → c < n →
  stage !!! c = t ↔ ∃ i, i < cnt !!! t ∧ in2ex !!! (ptr !!! t + i) = c.
Proof.
  intros Ht Hc. split.
  - intros <-. pose proof (ix_ex2in_block c Hc Ht) as Hb.
    rewrite ix_ptr_S in Hb by done.
    exists (ex2in !!! c - ptr !!! (stage !!! c)). split; [lia|].
    replace (ptr !!! (stage !!! c) + (ex2in !!! c - ptr !!! (stage !!! c)))
      with (ex2in !!! c) by lia.
    by apply ix_in2ex_ex2in.
  - intros (i & Hi & <-).
    destruct (ix_block t (ptr !!! t + i)) as (_ & Hs & _); [done| |done].
    rewrite ix_ptr_S by done. lia.
Qed.

(** Distinct slots of a block hold distinct indices. *)
Lemma ix_block_inj t i j :
  t < nstag → i < cnt !!! t → j < cnt !!! t →
  in2ex !!! (ptr !!! t + i) = in2ex !!! (ptr !!! t + j) → i = j.
Proof.
  intros Ht Hi Hj E.
  destruct (ix_block t (ptr !!! t + i)) as (_ & _ & Hi'); [done|rewrite ix_ptr_S by done; lia|].
  destruct (ix_block t (ptr !!! t + j)) as (_ & _ & Hj'); [done|rewrite ix_ptr_S by done; lia|].
  rewrite E in Hi'. lia.
Qed.

Lemma ix_block_lt t i : t < nstag → i < cnt !!! t → in2ex !!! (ptr !!! t + i) < n.
Proof.
  intros Ht Hi.
  destruct (ix_block t (ptr !!! t + i)) as (H & _ & _); [done|rewrite ix_ptr_S by done; lia|done].
Qed.

Lemma ix_ptr_le_n t : t ≤ nstag → ptr !!! t ≤ n.
Proof.
  intros Ht. rewrite (ix_ptr _ _ _ _ _ _ _ ix) by done.
  rewrite <- (ix_len _ _ _ _ _ _ _ ix). apply below_le_length.
Qed.
End Indexed.

Lemma core_indexed_same_maps c c' : maps_of c = maps_of c' → core_indexed c' → core_indexed c.
Proof.
  destruct c, c'. unfold maps_of. simpl. intros [= -> -> -> -> -> -> -> -> -> -> -> -> ->].
  intros [Hc Hr]. by split.
Qed.

Lemma core_maps_indexed nrow ncol nstag cstag rstag ints il bins bl :
  length cstag = ncol → length rstag = nrow →
  Forall (λ s, s ≤ nstag) cstag → Forall (λ s, s ≤ nstag) rstag →
  core_indexed (core_maps nrow ncol nstag cstag rstag ints il bins bl).
Proof.
  intros <- <- Hc Hr. unfold core_maps. rewrite !firstn_all.
  split; simpl; by apply build_stage_maps_indexed.
Qed.

Lemma gutsOfConstructor_indexed nrow ncol nstag cstag rstag matrix dclo dcup dobj drlo drup
    ints il bins bl :
  length cstag = ncol → length rstag = nrow →
  Forall (λ s, s ≤ nstag) cstag → Forall (λ s, s ≤ nstag) rstag →
  core_indexed (gutsOfConstructor nrow ncol nstag cstag rstag matrix dclo dcup dobj drlo drup
                                  ints il bins bl).
Proof.
  intros Hlc Hlr Hc Hr. unfold gutsOfConstructor.
  destruct (stages_loop matrix dclo dcup dobj drlo drup
              (core_maps nrow ncol nstag cstag rstag ints il bins bl) nstag) as (Hm & _).
  eapply core_indexed_same_maps; [exact Hm|]. by apply core_maps_indexed.
Qed.

(** ** Scattering and looking up sparse entries *)

Section Sparse.
Implicit Types (sp : list entry) (dv : list double) (k : nat).

Lemma length_scatter dv sp : length (scatter dv sp) = length dv.
Proof.
  unfold scatter. revert dv. induction sp as [|e sp IH]; intros dv; [done|].
  simpl. by rewrite IH, length_insert.
Qed.

Lemma scatter_snoc dv sp e : scatter dv (sp ++ [e]) = <[e.1 := e.2]> (scatter dv sp).
Proof. unfold scatter. by rewrite foldl_snoc. Qed.

(** After the loop a position holds the value of the last entry with
    its index, or what it held before. *)
Lemma scatter_lookup_total dv sp k :
  k < length dv → scatter dv sp !!! k = default (dv !!! k) (sparse_get (reverse sp) k).
Proof.
  intros Hk. induction sp as [|e sp IH] using rev_ind; [done|].
  rewrite scatter_snoc, reverse_snoc. simpl. case_decide as E.
  - subst k. rewrite list_lookup_total_insert_eq by (by rewrite length_scatter). done.
  - rewrite list_lookup_total_insert_ne by done. exact IH.
Qed.

Lemma sparse_get_None sp k : sparse_get sp k = None ↔ k ∉ sp.*1.
Proof.
  induction sp as [|e sp IH]; simpl.
  - split; [intros _; apply not_elem_of_nil|done].
  - case_decide as E.
    + split; [done|]. intros Hn. exfalso. apply Hn. subst k. apply list_elem_of_here.
    + rewrite IH. rewrite not_elem_of_cons.
      split; [intros H; split; [congruence|done]|by intros [_ H]].
Qed.

Lemma sparse_get_Some_elem sp k v : sparse_get sp k = Some v → (k, v) ∈ sp.
Proof.
  induction sp as [|[i x] sp IH]; simpl; [done|]. case_decide as E.
  - intros [= <-]. subst i. apply list_elem_of_here.
  - intros H. apply list_elem_of_further. by apply IH.
Qed.

Lemma sparse_get_NoDup sp k v : NoDup sp.*1 → (k, v) ∈ sp → sparse_get sp k = Some v.
Proof.
  induction sp as [|[i x] sp IH]; simpl; intros Hnd Hin; [by apply elem_of_nil in Hin|].
  apply NoDup_cons in Hnd as [Hni Hnd]. apply elem_of_cons in Hin as [[= <- <-]|Hin].
  - by rewrite decide_True.
  - case_decide as E; [|by apply IH]. subst i. exfalso. apply Hni.
    apply list_elem_of_fmap. by exists (k, v).
Qed.

Lemma sparse_get_full n (d : list double) k :
  k < n → sparse_get (reverse (CoinPackedVector_full n d)) k = Some (d !!! k).
Proof.
  unfold CoinPackedVector_full. induction n as [|n IH]; intros Hk; [lia|].
  rewrite seq_S, fmap_app, reverse_app. simpl. case_decide as E; [by subst k|].
  apply IH. lia.
Qed.

Lemma reverse_stage_entries stage_of internal_of stg (v : CoinPackedVector) :
  reverse (stage_entries stage_of internal_of stg (Some v))
  = stage_entries stage_of internal_of stg (Some (reverse v)).
Proof.
  unfold stage_entries. simpl. by rewrite <- fmap_reverse, filter_reverse.
Qed.

(** Looking up a translated index in the entries of a stage is looking
    up the index itself in the vector, when the translation is
    one-to-one on the indices of the vector. *)
Lemma sparse_get_stage_entries stage_of internal_of stg (v : CoinPackedVector) n c :
  Forall (λ e, e.1 < n) v → c < n → stage_of c = stg →
  (∀ a b, a < n → b < n → internal_of a = internal_of b → a = b) →
  sparse_get (stage_entries stage_of internal_of stg (Some v)) (internal_of c)
  = sparse_get v c.
Proof.
  intros Hv Hc Hs Hinj. unfold stage_entries. simpl.
  induction Hv as [|e v He Hv IH]; [done|].
  rewrite filter_cons. simpl. case_decide as Es.
  - rewrite fmap_cons. simpl. case_decide as E1; case_decide as E2; try done.
    + exfalso. apply E2. by apply Hinj.
    + exfalso. apply E1. by rewrite E2.
  - case_decide as E2; [|done]. exfalso. apply Es. by rewrite E2.
Qed.

(** An index outside stage [stg] is not among the entries of the stage,
    when the translation is one-to-one. *)
Lemma sparse_get_stage_entries_other stage_of internal_of stg (v : CoinPackedVector) n c :
  Forall (λ e, e.1 < n) v → c < n → stage_of c ≠ stg →
  (∀ a b, a < n → b < n → internal_of a = internal_of b → a = b) →
  sparse_get (stage_entries stage_of internal_of stg (Some v)) (internal_of c) = None.
Proof.
  intros Hv Hc Hs Hinj. unfold stage_entries. simpl.
  induction Hv as [|e v He Hv IH]; [done|].
  rewrite filter_cons. case_decide as Es; [|done].
  rewrite fmap_cons. simpl. case_decide as E1; [|done].
  exfalso. apply Hs. apply Hinj in E1; [|done..]. by subst c.
Qed.

Lemma Process_lookup d o sp j :
  Process d o sp !! j = (λ x, default x (sparse_get sp (o + j))) <$> d !! j.
Proof. unfold Process. by rewrite list_lookup_imap. Qed.

Lemma length_Process d o sp : length (Process d o sp) = length d.
Proof. unfold Process. by rewrite length_imap. Qed.

Lemma Process_nil d o : Process d o [] = d.
Proof.
  apply list_eq. intros j. rewrite Process_lookup. simpl. by destruct (d !! j).
Qed.
End Sparse.

(** ** The constructed core *)

Lemma getters_same_maps c c' :
  maps_of c = maps_of c' →
  getNumCols c = getNumCols c' ∧ getNumRows c = getNumRows c' ∧
  getColStart c = getColStart c' ∧ getRowStart c = getRowStart c' ∧
  getColStage c = getColStage c' ∧ getRowStage c = getRowStage c' ∧
  getColInternalIndex c = getColInternalIndex c' ∧
  getRowInternalIndex c = getRowInternalIndex c' ∧
  getColExternalIndex c = getColExternalIndex c' ∧
  getRowExternalIndex c = getRowExternalIndex c' ∧
  getNumColsTotal c = getNumColsTotal c' ∧ getNumRowsTotal c = getNumRowsTotal c' ∧
  getNumStages c = getNumStages c'.
Proof.
  destruct c, c'. unfold maps_of. simpl. intros [= -> -> -> -> -> -> -> -> -> -> -> -> ->].
  repeat split.
Qed.

Section Built.
Variables (nrow ncol nstag : nat) (cstag rstag : list nat)
          (matrix : option CoinPackedMatrix)
          (dclo dcup dobj drlo drup : option CoinPackedVector)
          (ints : list nat) (il : nat) (bins : list nat) (bl : nat).

Let c0 : Core.t := core_maps nrow ncol nstag cstag rstag ints il bins bl.
Let core : Core.t :=
  gutsOfConstructor nrow ncol nstag cstag rstag matrix dclo dcup dobj drlo drup
                    ints il bins bl.

Lemma built_maps : maps_of core = maps_of c0.
Proof.
  unfold core, gutsOfConstructor.
  by destruct (stages_loop matrix dclo dcup dobj drlo drup c0 nstag) as (Hm & _).
Qed.

Lemma built_dims :
  Core.nstag_ core = nstag ∧ Core.ncol_ core = ncol ∧ Core.nrow_ core = nrow ∧
  Core.colStage_ core = take ncol cstag ∧ Core.rowStage_ core = take nrow rstag.
Proof.
  pose proof built_maps as Hm. unfold maps_of in Hm.
  injection Hm. intros. repeat split; by etrans.
Qed.

Lemma built_node t :
  t < nstag →
  Core.nodes_ core !! t = Some (core_node matrix dclo dcup dobj drlo drup c0 t).
Proof.
  intros Ht. unfold core, gutsOfConstructor.
  destruct (stages_loop matrix dclo dcup dobj drlo drup c0 nstag) as (_ & Hn & _).
  cbv zeta in Hn. fold c0. rewrite Hn. simpl.
  by rewrite list_lookup_fmap, lookup_seq_lt.
Qed.

Lemma built_nodes_length : length (Core.nodes_ core) = nstag.
Proof.
  unfold core, gutsOfConstructor.
  destruct (stages_loop matrix dclo dcup dobj drlo drup c0 nstag) as (_ & Hn & _).
  cbv zeta in Hn. fold c0. rewrite Hn. simpl. by rewrite length_fmap, length_seq.
Qed.

Lemma built_dense t :
  t < nstag →
  let new := setCoreNode (SmiNodeData_new t c0 matrix dclo dcup dobj drlo drup) in
  Core.cdclo_ core !!! t = dense_stage (getNumCols c0 t) (getColStart c0 t) (getColLower new) ∧
  Core.cdcup_ core !!! t = dense_stage (getNumCols c0 t) (getColStart c0 t) (getColUpper new) ∧
  Core.cdobj_ core !!! t = dense_stage (getNumCols c0 t) (getColStart c0 t) (getObjective new) ∧
  Core.cdrlo_ core !!! t = dense_stage (getNumRows c0 t) (getRowStart c0 t) (getRowLower new) ∧
  Core.cdrup_ core !!! t = dense_stage (getNumRows c0 t) (getRowStart c0 t) (getRowUpper new).
Proof.
  intros Ht. cbv zeta. unfold core, gutsOfConstructor.
  destruct (stages_loop matrix dclo dcup dobj drlo drup c0 nstag)
    as (_ & _ & Hclo & Hcup & Hobj & Hrlo & Hrup & _).
  cbv zeta in *. fold c0. rewrite Hclo, Hcup, Hobj, Hrlo, Hrup. simpl.
  repeat split; apply list_lookup_total_correct;
    by rewrite list_lookup_fmap, lookup_seq_lt.
Qed.
End Built.

(** ** C3: the index maps *)

(** C3.  After construction from stage labels in [[0, nstag)], for rows
    and for columns alike: mapping an external index to its internal
    index and back returns it (so its stage is kept), and every internal
    index of the block [[stagePtr[t], stagePtr[t+1])] of a stage [t] maps
    back to an external index whose stage label is [t]. *)
Theorem index_maps_inverse_and_stage_consistent
    (nrow ncol nstag : nat) (cstag rstag : list nat) (matrix : option CoinPackedMatrix)
    (dclo dcup dobj drlo drup : option CoinPackedVector)
    (ints : list nat) (il : nat) (bins : list nat) (bl : nat) :
  length cstag = ncol → length rstag = nrow →
  Forall (λ s, s < nstag) cstag → Forall (λ s, s < nstag) rstag →
  let core := gutsOfConstructor nrow ncol nstag cstag rstag matrix dclo dcup dobj drlo drup
                                ints il bins bl in
  (∀ c, c < ncol →
     getColExternalIndex core (getColInternalIndex core c) = c ∧
     getColStage core (getColExternalIndex core (getColInternalIndex core c))
     = getColStage core c) ∧
  (∀ t i, t < nstag → getColStart core t ≤ i < getColStart core (S t) →
     getColExternalIndex core i < ncol ∧ getColStage core (getColExternalIndex core i) = t) ∧
  (∀ r, r < nrow →
     getRowExternalIndex core (getRowInternalIndex core r) = r ∧
     getRowStage core (getRowExternalIndex core (getRowInternalIndex core r))
     = getRowStage core r) ∧
  (∀ t i, t < nstag → getRowStart core t ≤ i < getRowStart core (S t) →
     getRowExternalIndex core i < nrow ∧ getRowStage core (getRowExternalIndex core i) = t).
Proof.
  intros Hlc Hlr Hc Hr core.
  assert (Hix : core_indexed core).
  { apply gutsOfConstructor_indexed; try done;
      eapply Forall_impl; try eassumption; simpl; lia. }
  destruct (built_dims nrow ncol nstag cstag rstag matrix dclo dcup dobj drlo drup
                       ints il bins bl) as (Hn & Hnc & Hnr & _).
  fold core in Hn, Hnc, Hnr. destruct Hix as [Hcols Hrows].
  rewrite Hn, Hnc in Hcols. rewrite Hn, Hnr in Hrows.
  unfold getColExternalIndex, getColInternalIndex, getColStage, getColStart,
    getRowExternalIndex, getRowInternalIndex, getRowStage, getRowStart.
  split; [|split; [|split]].
  - intros c Hlt. rewrite (ix_in2ex_ex2in _ _ _ _ _ _ _ Hcols) by done. done.
  - intros t i Ht Hi. by destruct (ix_block _ _ _ _ _ _ _ Hcols t i Ht Hi) as (? & ? & _).
  - intros r Hlt. rewrite (ix_in2ex_ex2in _ _ _ _ _ _ _ Hrows) by done. done.
  - intros t i Ht Hi. by destruct (ix_block _ _ _ _ _ _ _ Hrows t i Ht Hi) as (? & ? & _).
Qed.

Lemma index_maps_witness :
  let core := gutsOfConstructor 2 3 2 [1; 0; 1] [1; 0] None None None None None None
                                [] 0 [] 0 in
  (∀ c, c < 3 →
     getColExternalIndex core (getColInternalIndex core c) = c ∧
     getColStage core (getColExternalIndex core (getColInternalIndex core c))
     = getColStage core c) ∧
  (∀ t i, t < 2 → getColStart core t ≤ i < getColStart core (S t) →
     getColExternalIndex core i < 3 ∧ getColStage core (getColExternalIndex core i) = t) ∧
  (∀ r, r < 2 →
     getRowExternalIndex core (getRowInternalIndex core r) = r ∧
     getRowStage core (getRowExternalIndex core (getRowInternalIndex core r))
     = getRowStage core r) ∧
  (∀ t i, t < 2 → getRowStart core t ≤ i < getRowStart core (S t) →
     getRowExternalIndex core i < 2 ∧ getRowStage core (getRowExternalIndex core i) = t).
Proof.
  apply (index_maps_inverse_and_stage_consistent 2 3 2 [1; 0; 1] [1; 0]);
    [reflexivity | reflexivity | repeat constructor | repeat constructor].
Defined.

(** ** Matrices the constructors may read *)

Lemma fmap_lookup_total_seq (l : list nat) : (λ i, l !!! i) <$> seq 0 (length l) = l.
Proof.
  apply list_eq. intros i. rewrite list_lookup_fmap.
  destruct (decide (i < length l)) as [Hi|Hi].
  - rewrite lookup_seq_lt by done. simpl. symmetry.
    by apply list_lookup_lookup_total_lt.
  - rewrite lookup_seq_ge by lia. simpl. symmetry. apply lookup_ge_None. lia.
Qed.

Lemma sum_list_lookup_NoDup (l idx : list nat) :
  NoDup idx → Forall (λ i, i < length l) idx →
  sum_list ((λ i, l !!! i) <$> idx) ≤ sum_list l.
Proof.
  intros Hnd Hlt.
  assert (idx ⊆+ seq 0 (length l)) as Hsub.
  { apply NoDup_submseteq; [done|]. intros i Hi. apply elem_of_seq.
    rewrite Forall_forall in Hlt. specialize (Hlt i Hi). lia. }
  apply submseteq_Permutation in Hsub as [k Hk].
  assert (sum_list l = sum_list ((λ i, l !!! i) <$> seq 0 (length l))) as ->
    by (by rewrite fmap_lookup_total_seq).
  rewrite Hk, fmap_app, sum_list_with_app. lia.
Qed.

Lemma length_concat_fmap_sum {A} (g : nat → list A) (idx : list nat) :
  length (concat (g <$> idx)) = sum_list ((λ i, length (g i)) <$> idx).
Proof.
  induction idx as [|i idx IH]; [done|]. rewrite !fmap_cons. cbn [concat].
  rewrite length_app, IH. done.
Qed.

Lemma length_matrix_row m nrow r :
  matrix_fits m nrow → r < nrow → length (matrix_row m r) = mx_len m !!! r.
Proof.
  intros [_ Hfit] Hr. rewrite Forall_seq in Hfit. specialize (Hfit r ltac:(lia)).
  unfold matrix_row. rewrite length_take, length_drop. lia.
Qed.

Lemma rows_readable_of_fits c t matrix :
  core_indexed c → t < Core.nstag_ c → matrix_ok matrix (Core.nrow_ c) →
  rows_readable c t matrix.
Proof.
  intros [_ Hrows] Ht Hok. destruct matrix as [m|]; [|done]. simpl in Hok.
  unfold rows_readable, getNumRows, getRowStart, getRowExternalIndex.
  assert (Hlt : ∀ i, i < Core.nRowInStage_ c !!! t →
                     Core.rowIn2Ex_ c !!! (Core.stageRowPtr_ c !!! t + i) < Core.nrow_ c).
  { intros i Hi. by apply (ix_block_lt _ _ _ _ _ _ _ Hrows). }
  split.
  - intros i Hi. apply (length_matrix_row _ _ _ Hok). by apply Hlt.
  - unfold stage_rows, getNumElements, getRowExternalIndex.
    rewrite (length_concat_fmap_sum
               (λ i, matrix_row m (Core.rowIn2Ex_ c !!! (Core.stageRowPtr_ c !!! t + i)))).
    etrans; [|apply (sum_list_lookup_NoDup (mx_len m)
                       ((λ i, Core.rowIn2Ex_ c !!! (Core.stageRowPtr_ c !!! t + i))
                          <$> seq 0 (Core.nRowInStage_ c !!! t)))].
    + rewrite <- list_fmap_compose. apply Nat.eq_le_incl. f_equal.
      apply list_fmap_ext. intros k i Hk. apply lookup_seq in Hk as [-> Hk]. simpl.
      apply (length_matrix_row _ _ _ Hok). by apply Hlt.
    + apply NoDup_fmap_2_strong; [|apply NoDup_seq].
      intros i j Hi Hj E. apply elem_of_seq in Hi, Hj.
      apply (ix_block_inj _ _ _ _ _ _ _ Hrows t); [done|lia|lia|done].
    + apply Forall_fmap, Forall_seq. intros i Hi. simpl.
      destruct Hok as [-> _]. apply Hlt. lia.
Qed.

Lemma length_dense_stage n start seg : length (dense_stage n start seg) = n.
Proof.
  unfold dense_stage, denseVector.
  rewrite length_drop, length_scatter, length_replicate. lia.
Qed.

(** Position [j] of a dense stage array: the last entry with index
    [start + j], or zero. *)
Lemma dense_stage_lookup n start seg j :
  j < n →
  dense_stage n start seg !! j
  = Some (default 0%float (sparse_get (reverse seg) (start + j))).
Proof.
  intros Hj. unfold dense_stage, denseVector. rewrite lookup_drop.
  rewrite (list_lookup_lookup_total_lt (scatter _ _))
    by (rewrite length_scatter, length_replicate; lia).
  rewrite scatter_lookup_total by (rewrite length_replicate; lia).
  by rewrite lookup_total_replicate_2 by lia.
Qed.

Lemma CoinDisjointCopyN_lookup {A} (src dst : list A) n j :
  j < n → n ≤ length src → CoinDisjointCopyN src n dst !! j = src !! j.
Proof.
  intros Hj Hn. unfold CoinDisjointCopyN.
  rewrite lookup_app_l by (rewrite length_take; lia). by rewrite lookup_take_lt.
Qed.

(** ** A category segment read through the index maps *)

Section CategoryLookup.
Variables (nstag n : nat) (stage ex2in in2ex ptr cnt : list nat).
Hypothesis ix : indexed nstag n stage ex2in in2ex ptr cnt.

Lemma ix_ex2in_inj a b : a < n → b < n → ex2in !!! a = ex2in !!! b → a = b.
Proof.
  intros Ha Hb E. rewrite <- (ix_in2ex_ex2in _ _ _ _ _ _ _ ix a Ha).
  rewrite E. by apply (ix_in2ex_ex2in _ _ _ _ _ _ _ ix).
Qed.

(** Slot [ptr[t] + j] of the entries of stage [t] holds what the vector
    holds at the external index of that slot. *)
Lemma sparse_get_stage_slot t j (v : option CoinPackedVector) :
  t < nstag → j < cnt !!! t → Forall (λ e, e.1 < n) (default [] v) →
  sparse_get (stage_entries (λ i, stage !!! i) (λ i, ex2in !!! i) t v) (ptr !!! t + j)
  = sparse_get (default [] v) (in2ex !!! (ptr !!! t + j)).
Proof.
  intros Ht Hj Hv. destruct v as [v|]; [|done]. simpl in Hv.
  destruct (ix_block _ _ _ _ _ _ _ ix t (ptr !!! t + j)) as (Hc & Hs & He);
    [done|rewrite (ix_ptr_S _ _ _ _ _ _ _ ix) by done; lia|].
  rewrite <- He at 1.
  apply (sparse_get_stage_entries (λ i, stage !!! i) (λ i, ex2in !!! i) t v n); try done.
  apply ix_ex2in_inj.
Qed.

Lemma Forall_reverse_index (v : list entry) :
  Forall (λ e, e.1 < n) v → Forall (λ e, e.1 < n) (reverse v).
Proof. intros H. by apply Forall_reverse. Qed.

(** The dense stage array built from the entries of stage [t]. *)
Lemma dense_stage_slot t j (v : CoinPackedVector) :
  t < nstag → j < cnt !!! t → Forall (λ e, e.1 < n) v →
  dense_stage (cnt !!! t) (ptr !!! t)
    (stage_entries (λ i, stage !!! i) (λ i, ex2in !!! i) t (Some v)) !! j
  = Some (default 0%float (sparse_get (reverse v) (in2ex !!! (ptr !!! t + j)))).
Proof.
  intros Ht Hj Hv. rewrite dense_stage_lookup by done.
  rewrite reverse_stage_entries.
  rewrite (sparse_get_stage_slot t j (Some (reverse v))); try done.
  by apply Forall_reverse_index.
Qed.
End CategoryLookup.

Lemma Forall_full_index n (d : list double) :
  Forall (λ e : entry, e.1 < n) (CoinPackedVector_full n d).
Proof.
  unfold CoinPackedVector_full. apply Forall_fmap, Forall_seq. simpl. lia.
Qed.

(** ** Sorting the rows of a core node *)

Section ReplaceSegment.
Context {A : Type} `{!Inhabited A}.
Implicit Types (segs : list (list A)) (r : list A).

Lemma length_concat_sum segs : length (concat segs) = sum_list (length <$> segs).
Proof.
  induction segs as [|r segs IH]; [done|]. rewrite fmap_cons. cbn [concat].
  rewrite length_app, IH. done.
Qed.

Lemma lengths_replace segs i r :
  i < length segs → length r = length (segs !!! i) →
  length <$> <[i := r]> segs = length <$> segs.
Proof.
  intros Hi Hr. rewrite list_fmap_insert, Hr. apply list_insert_id.
  rewrite list_lookup_fmap. by rewrite (list_lookup_lookup_total_lt segs i Hi).
Qed.

Lemma length_concat_take_replace segs i r k :
  i < length segs → length r = length (segs !!! i) →
  length (concat (take k (<[i := r]> segs))) = length (concat (take k segs)).
Proof.
  intros Hi Hr. rewrite !length_concat_sum, !fmap_take. by rewrite lengths_replace.
Qed.

(** Overwriting a segment in place with as many entries. *)
Lemma inserts_segment segs i r :
  i < length segs → length r = length (segs !!! i) →
  list_inserts (length (concat (take i segs))) r (concat segs) = concat (<[i := r]> segs).
Proof.
  intros Hi Hr. destruct (lookup_lt_is_Some_2 segs i Hi) as [r0 Hr0].
  rewrite (list_lookup_total_correct _ _ _ Hr0) in Hr.
  rewrite <- (take_drop_middle segs i r0 Hr0) at 2 3.
  rewrite concat_app. cbn [concat].
  rewrite <- (Nat.add_0_r (length (concat (take i segs)))).
  rewrite list_inserts_app_r. rewrite list_inserts_0_r by done.
  assert (length (take i segs) = i) as Hti by (rewrite length_take; lia).
  rewrite <- Hti at 3. rewrite insert_app_r_alt by lia.
  rewrite Nat.sub_diag. cbn [insert list_insert]. rewrite concat_app. done.
Qed.
End ReplaceSegment.

Lemma sortIncrIndex_length cpv : length (sortIncrIndex cpv) = length cpv.
Proof. unfold sortIncrIndex. apply Permutation_length, merge_sort_Permutation. Qed.

Lemma sortIncrIndex_nil : sortIncrIndex [] = [].
Proof. reflexivity. Qed.

Lemma laid_out_sort_row nd rows cats i :
  laid_out nd rows cats → i < length rows →
  laid_out (sort_row nd (Node.rowbeg_ nd + i)) (<[i := sortIncrIndex (rows !!! i)]> rows) cats.
Proof.
  intros Hlo Hi. unfold sort_row.
  rewrite (laid_out_getRowLength _ _ _ Hlo) by done.
  case_decide as Hlen.
  - rewrite (laid_out_getRow _ _ _ Hlo) by done.
    pose proof (lo_rows _ _ _ Hlo) as Hr. rewrite (lo_mat _ _ _ Hlo).
    replace (0 + (Node.rowbeg_ nd + i) - Node.rowbeg_ nd) with i by lia.
    rewrite (lo_strt _ _ _ Hlo) by (rewrite length_app; lia).
    rewrite (lo_ents _ _ _ Hlo).
    assert (Hil : i < length (rows ++ cats)) by (rewrite length_app; lia).
    assert (Hsl : length (sortIncrIndex (rows !!! i)) = length ((rows ++ cats) !!! i)).
    { rewrite sortIncrIndex_length. by rewrite lookup_total_app_l. }
    rewrite inserts_segment by done. rewrite insert_app_l by done.
    destruct Hlo. split; cbn; rewrite ?length_insert; try done.
    + intros k Hk. rewrite <- insert_app_l by done.
      rewrite length_concat_take_replace by done. apply lo_strt0.
      rewrite length_app, length_insert in Hk. by rewrite length_app.
  - destruct (rows !!! i) as [|e r] eqn:E; [|simpl in Hlen; lia].
    rewrite sortIncrIndex_nil, <- E. rewrite list_insert_id; [done|].
    by apply list_lookup_lookup_total_lt.
Qed.

Lemma sort_row_fields nd ii :
  Node.rowbeg_ (sort_row nd ii) = Node.rowbeg_ nd ∧
  Node.stg_ (sort_row nd ii) = Node.stg_ nd ∧
  Node.isCoreNode_ (sort_row nd ii) = Node.isCoreNode_ nd ∧
  Node.nrow_ (sort_row nd ii) = Node.nrow_ nd ∧
  Node.has_matrix_ (sort_row nd ii) = Node.has_matrix_ nd ∧
  Node.dRowMap (sort_row nd ii) = Node.dRowMap nd.
Proof. unfold sort_row. by case_decide. Qed.

Lemma sort_rows_fields nd irow n :
  Node.rowbeg_ (sort_rows nd irow n) = Node.rowbeg_ nd ∧
  Node.stg_ (sort_rows nd irow n) = Node.stg_ nd ∧
  Node.isCoreNode_ (sort_rows nd irow n) = Node.isCoreNode_ nd ∧
  Node.nrow_ (sort_rows nd irow n) = Node.nrow_ nd ∧
  Node.has_matrix_ (sort_rows nd irow n) = Node.has_matrix_ nd ∧
  Node.dRowMap (sort_rows nd irow n) = Node.dRowMap nd.
Proof.
  unfold sort_rows. induction n as [|n IH]; [done|].
  rewrite seq_S, foldl_snoc.
  destruct (sort_row_fields (foldl sort_row nd (seq irow n)) (irow + n))
    as (-> & -> & -> & -> & -> & ->). exact IH.
Qed.

(** After the loop every row is sorted, the five categories stand. *)
Lemma laid_out_sort_rows nd rows cats :
  laid_out nd rows cats →
  laid_out (sort_rows nd (Node.rowbeg_ nd) (Node.nrow_ nd)) (sortIncrIndex <$> rows) cats.
Proof.
  intros Hlo. pose proof (lo_rows _ _ _ Hlo) as Hr.
  assert (∀ k, k ≤ Node.nrow_ nd →
            laid_out (sort_rows nd (Node.rowbeg_ nd) k)
                     ((sortIncrIndex <$> take k rows) ++ drop k rows) cats) as H.
  { induction k as [|k IH]; intros Hk; [done|].
    specialize (IH ltac:(lia)). unfold sort_rows in *. rewrite seq_S, foldl_snoc.
    set (nd' := foldl sort_row nd (seq (Node.rowbeg_ nd) k)) in *.
    destruct (sort_rows_fields nd (Node.rowbeg_ nd) k) as (Hrb & _ & _ & _ & Hhm & _).
    fold nd' in Hrb, Hhm. unfold sort_rows in Hrb, Hhm. fold nd' in Hrb, Hhm.
    destruct (decide (k < length rows)) as [Hkl|Hkl].
    - rewrite <- Hrb.
      pose proof (laid_out_sort_row nd' _ cats k IH) as Hs.
      assert (Htl : length (sortIncrIndex <$> take k rows) = k)
        by (rewrite length_fmap, length_take; lia).
      destruct (lookup_lt_is_Some_2 rows k Hkl) as [r Hrk].
      rewrite lookup_total_app_r in Hs by lia.
      rewrite Htl, Nat.sub_diag in Hs.
      rewrite (drop_S _ _ _ Hrk) in Hs. cbn in Hs.
      rewrite <- Htl in Hs at 2. rewrite insert_app_r_alt in Hs by lia.
      rewrite Htl, Nat.sub_diag in Hs. cbn in Hs.
      rewrite (take_S_r _ _ _ Hrk), fmap_app, <- app_assoc. cbn.
      apply Hs. rewrite length_app, Htl. cbn. lia.
    - rewrite take_ge, drop_ge in * by lia.
      assert (sort_row nd' (Node.rowbeg_ nd + k) = nd') as ->; [|done].
      unfold sort_row. rewrite decide_False; [done|].
      unfold getRowLength. rewrite Hhm. destruct (Node.has_matrix_ nd); lia. }
  specialize (H (Node.nrow_ nd) ltac:(done)).
  rewrite take_ge, drop_ge, app_nil_r in H by (destruct (Node.has_matrix_ nd); lia).
  done.
Qed.

(** ** Core nodes *)

Lemma SmiNodeData_new_fields stg core matrix dclo dcup dobj drlo drup :
  let nd := SmiNodeData_new stg core matrix dclo dcup dobj drlo drup in
  Node.stg_ nd = stg ∧ Node.isCoreNode_ nd = false ∧
  Node.nrow_ nd = getNumRows core stg ∧ Node.ncol_ nd = getNumCols core stg ∧
  Node.rowbeg_ nd = getRowStart core stg ∧ Node.colbeg_ nd = getColStart core stg ∧
  Node.has_matrix_ nd = has_elements matrix ∧ Node.dRowMap nd = ∅.
Proof. cbv zeta. repeat split. Qed.

Lemma laid_out_setCoreNode nd rows cats :
  laid_out nd rows cats → laid_out (setCoreNode nd) rows cats.
Proof. intros []. by split. Qed.

Lemma core_node_laid_out c t matrix dclo dcup dobj drlo drup :
  core_indexed c → t < Core.nstag_ c → matrix_ok matrix (Core.nrow_ c) →
  let nd := core_node matrix dclo dcup dobj drlo drup c t in
  laid_out nd (sortIncrIndex <$> node_rows c t matrix)
           (node_categories c t dclo dcup dobj drlo drup) ∧
  Node.isCoreNode_ nd = true ∧ Node.stg_ nd = t ∧
  Node.rowbeg_ nd = getRowStart c t ∧ Node.nrow_ nd = getNumRows c t ∧
  Node.has_matrix_ nd = has_elements matrix.
Proof.
  intros Hix Ht Hok. cbv zeta. unfold core_node.
  pose proof (SmiNodeData_new_laid_out t c matrix dclo dcup dobj drlo drup
                (rows_readable_of_fits c t matrix Hix Ht Hok)) as Hlo.
  apply laid_out_setCoreNode in Hlo.
  set (nd := setCoreNode _) in *.
  change (getRowStart c t) with (Node.rowbeg_ nd).
  change (getNumRows c t) with (Node.nrow_ nd).
  split; [by apply laid_out_sort_rows|].
  destruct (sort_rows_fields nd (Node.rowbeg_ nd) (Node.nrow_ nd))
    as (-> & -> & -> & -> & -> & _).
  repeat split.
Qed.

(** ** C4: the dense stage arrays *)

(** C4.  For a core built from the solver's arrays with stage labels in
    [[0, nstag)]: position [j] of the dense lower-bound array of stage
    [t], as [SmiCoreData::copyColLower] and as [copyColLower] of the core
    node of [t] write it, is the bound of the external column
    [colIn2Ex[stageColPtr[t] + j]]; and every external column is read
    back at the position of its internal index, so no bound is dropped. *)
Theorem dense_column_lower_round_trip
    (osi : OsiSolverInterface) (nstag : nat) (cstag rstag : list nat)
    (ints : list nat) (il : nat) (bins : list nat) (bl : nat) :
  length cstag = osi_ncol osi → length rstag = osi_nrow osi →
  Forall (λ s, s < nstag) cstag → Forall (λ s, s < nstag) rstag →
  matrix_fits (osi_matrix osi) (osi_nrow osi) →
  length (osi_colLower osi) = osi_ncol osi →
  let core := SmiCoreData_new osi nstag cstag rstag ints il bins bl in
  (∀ t j d, t < nstag → j < getNumCols core t →
     SmiCoreData_copyColLower core d t !! j
     = Some (osi_colLower osi !!! getColExternalIndex core (getColStart core t + j)) ∧
     ∃ node, Core.nodes_ core !! t = Some node ∧
             SmiNodeData_copyColLower core node d !! j
             = Some (osi_colLower osi !!! getColExternalIndex core (getColStart core t + j))) ∧
  (∀ c d, c < osi_ncol osi →
     let t := getColStage core c in
     let j := getColInternalIndex core c - getColStart core t in
     j < getNumCols core t ∧
     SmiCoreData_copyColLower core d t !! j = Some (osi_colLower osi !!! c)).
Proof.
  intros Hlc Hlr Hc Hr Hfit Hlen core.
  set (nrow := osi_nrow osi) in *. set (ncol := osi_ncol osi) in *.
  set (dclo := Some (CoinPackedVector_full ncol (osi_colLower osi))).
  set (dcup := Some (CoinPackedVector_full ncol (osi_colUpper osi))).
  set (dobj := Some (CoinPackedVector_full ncol (osi_obj osi))).
  set (drlo := Some (CoinPackedVector_full nrow (osi_rowLower osi))).
  set (drup := Some (CoinPackedVector_full nrow (osi_rowUpper osi))).
  set (c0 := core_maps nrow ncol nstag cstag rstag ints il bins bl).
  assert (Hle : ∀ l : list nat, Forall (λ s, s < nstag) l → Forall (λ s, s ≤ nstag) l)
    by (intros l Hl; eapply Forall_impl; [exact Hl|simpl; lia]).
  assert (Hix0 : core_indexed c0) by (apply core_maps_indexed; auto).
  pose proof (built_maps nrow ncol nstag cstag rstag (Some (osi_matrix osi))
                dclo dcup dobj drlo drup ints il bins bl) as Hm.
  fold c0 in Hm. change (gutsOfConstructor _ _ _ _ _ _ _ _ _ _ _ _ _ _ _) with core in Hm.
  destruct (getters_same_maps _ _ Hm) as (Gnc & _ & Gcs & _ & Gst & _ & Gin & _ & Gex & _).
  assert (Hslot : ∀ t j d, t < nstag → j < getNumCols c0 t →
            SmiCoreData_copyColLower core d t !! j
            = Some (osi_colLower osi !!! getColExternalIndex c0 (getColStart c0 t + j))).
  { intros t j d Ht Hj.
    destruct (built_dense nrow ncol nstag cstag rstag (Some (osi_matrix osi))
                dclo dcup dobj drlo drup ints il bins bl t Ht) as (Hclo & _).
    cbv zeta in Hclo. fold c0 in Hclo.
    change (gutsOfConstructor _ _ _ _ _ _ _ _ _ _ _ _ _ _ _) with core in Hclo.
    unfold SmiCoreData_copyColLower. rewrite Gnc, Hclo.
    rewrite CoinDisjointCopyN_lookup by (rewrite ?length_dense_stage; lia).
    change (getColLower (setCoreNode ?nd)) with (getColLower nd).
    rewrite (laid_out_getColLower _ _ _
               (SmiNodeData_new_laid_out t c0 (Some (osi_matrix osi)) dclo dcup dobj drlo drup
                  (rows_readable_of_fits c0 t (Some (osi_matrix osi)) Hix0 Ht Hfit))).
    cbn [node_categories lookup_total list_lookup_total].
    destruct Hix0 as [Hcols _].
    unfold getNumCols, getColStart, getColStage, getColInternalIndex, getColExternalIndex,
      dclo in *.
    rewrite (dense_stage_slot _ _ _ _ _ _ _ Hcols t j) by (done || apply Forall_full_index).
    rewrite sparse_get_full; [done|].
    destruct (ix_block _ _ _ _ _ _ _ Hcols t (Core.stageColPtr_ c0 !!! t + j)) as (Hlt & _);
      [done| |done].
    rewrite (ix_ptr_S _ _ _ _ _ _ _ Hcols) by done. lia. }
  split.
  - intros t j d Ht Hj. rewrite Gnc in Hj. rewrite Gex, Gcs. split; [by apply Hslot|].
    destruct (core_node_laid_out c0 t (Some (osi_matrix osi)) dclo dcup dobj drlo drup
                Hix0 Ht Hfit) as (_ & Hcn & Hst & _).
    eexists. split.
    { apply (built_node nrow ncol nstag cstag rstag (Some (osi_matrix osi))
               dclo dcup dobj drlo drup ints il bins bl t Ht). }
    fold c0. unfold SmiNodeData_copyColLower, combineWithCoreDoubleArray.
    rewrite Hcn, Hst. by apply Hslot.
  - intros c d Hlt. cbv zeta. rewrite Gnc, Gst, Gin, Gcs.
    destruct Hix0 as [Hcols _].
    assert (Hs : getColStage c0 c < nstag).
    { unfold getColStage, c0, core_maps. simpl. rewrite firstn_all2 by lia.
      rewrite Forall_lookup in Hc. apply (Hc c).
      apply list_lookup_lookup_total_lt. lia. }
    pose proof (ix_ex2in_block _ _ _ _ _ _ _ Hcols c Hlt Hs) as Hb.
    rewrite (ix_ptr_S _ _ _ _ _ _ _ Hcols) in Hb by done.
    fold (getColStage c0 c) (getColInternalIndex c0 c) in Hb.
    fold (getColStart c0 (getColStage c0 c)) (getNumCols c0 (getColStage c0 c)) in Hb.
    split; [lia|]. rewrite Hslot by (done || lia).
    replace (getColStart c0 (getColStage c0 c)
             + (getColInternalIndex c0 c - getColStart c0 (getColStage c0 c)))
      with (getColInternalIndex c0 c) by lia.
    f_equal. f_equal. by apply (ix_in2ex_ex2in _ _ _ _ _ _ _ Hcols).
Qed.

Lemma dense_column_lower_witness :
  let core := SmiCoreData_new example_osi 2 [1; 0; 1] [1; 0] [] 0 [] 0 in
  (∀ t j d, t < 2 → j < getNumCols core t →
     SmiCoreData_copyColLower core d t !! j
     = Some (osi_colLower example_osi !!! getColExternalIndex core (getColStart core t + j)) ∧
     ∃ node, Core.nodes_ core !! t = Some node ∧
             SmiNodeData_copyColLower core node d !! j
             = Some (osi_colLower example_osi
                       !!! getColExternalIndex core (getColStart core t + j))) ∧
  (∀ c d, c < osi_ncol example_osi →
     let t := getColStage core c in
     let j := getColInternalIndex core c - getColStart core t in
     j < getNumCols core t ∧
     SmiCoreData_copyColLower core d t !! j = Some (osi_colLower example_osi !!! c)).
Proof.
  apply (dense_column_lower_round_trip example_osi 2 [1; 0; 1] [1; 0] [] 0 [] 0);
    [reflexivity | reflexivity | repeat constructor | repeat constructor
    | split; [reflexivity | repeat (constructor; [vm_compute; lia|]); constructor]
    | reflexivity].
Defined.

(** ** C5: trivial deltas *)

Lemma getSegment_empty nd k : getLength nd k = 0 → getSegment nd k = [].
Proof. intros H. unfold getSegment. by rewrite H. Qed.

Lemma combine_trivial nd d sp o :
  Node.isCoreNode_ nd = true ∨ sp = [] → combineWithCoreDoubleArray nd d sp o = d.
Proof.
  unfold combineWithCoreDoubleArray. intros [->| ->]; [done|].
  destruct (Node.isCoreNode_ nd); [done|apply Process_nil].
Qed.

Lemma CoinDisjointCopyN_frame {A} (src dst : list A) n j :
  n ≤ j → n ≤ length src → CoinDisjointCopyN src n dst !! j = dst !! j.
Proof.
  intros Hj Hn. unfold CoinDisjointCopyN.
  rewrite lookup_app_r by (rewrite length_take; lia).
  rewrite length_take_le by lia. rewrite lookup_drop. f_equal. lia.
Qed.

Lemma CoinDisjointCopyN_all {A} (src dst : list A) n :
  length src = n → CoinDisjointCopyN src n dst = src ++ drop n dst.
Proof. intros <-. unfold CoinDisjointCopyN. by rewrite firstn_all. Qed.

Lemma dense_stage_value nstag n stage ex2in in2ex ptr cnt t v j :
  indexed nstag n stage ex2in in2ex ptr cnt →
  t < nstag → Forall (λ e, e.1 < n) (default [] v) → j < cnt !!! t →
  dense_stage (cnt !!! t) (ptr !!! t)
              (stage_entries (λ i, stage !!! i) (λ i, ex2in !!! i) t v) !! j
  = Some (last_value v (in2ex !!! (ptr !!! t + j))).
Proof.
  intros ix Ht Hv Hj. unfold last_value.
  change (stage_entries _ _ t v)
    with (stage_entries (λ i, stage !!! i) (λ i, ex2in !!! i) t (Some (default [] v))).
  by rewrite (dense_stage_slot _ _ _ _ _ _ _ ix t j).
Qed.

Lemma segments_setCoreNode nd :
  getColLower (setCoreNode nd) = getColLower nd ∧
  getColUpper (setCoreNode nd) = getColUpper nd ∧
  getObjective (setCoreNode nd) = getObjective nd ∧
  getRowLower (setCoreNode nd) = getRowLower nd ∧
  getRowUpper (setCoreNode nd) = getRowUpper nd.
Proof. done. Qed.

(** The five dense arrays of a stage have the size of the stage. *)
Lemma built_stage_array_lengths nrow ncol nstag cstag rstag matrix dclo dcup dobj drlo drup
    ints il bins bl t :
  t < nstag →
  let core := gutsOfConstructor nrow ncol nstag cstag rstag matrix dclo dcup dobj drlo drup
                                ints il bins bl in
  length (Core.cdrlo_ core !!! t) = getNumRows core t ∧
  length (Core.cdrup_ core !!! t) = getNumRows core t ∧
  length (Core.cdclo_ core !!! t) = getNumCols core t ∧
  length (Core.cdcup_ core !!! t) = getNumCols core t ∧
  length (Core.cdobj_ core !!! t) = getNumCols core t.
Proof.
  intros Ht core.
  pose proof (built_maps nrow ncol nstag cstag rstag matrix
                dclo dcup dobj drlo drup ints il bins bl) as Hm.
  destruct (getters_same_maps _ _ Hm) as (Gnc & Gnr & _).
  destruct (built_dense nrow ncol nstag cstag rstag matrix
              dclo dcup dobj drlo drup ints il bins bl t Ht)
    as (Hclo & Hcup & Hobj & Hrlo & Hrup).
  cbv zeta in Hclo, Hcup, Hobj, Hrlo, Hrup. subst core.
  rewrite Hclo, Hcup, Hobj, Hrlo, Hrup, Gnc, Gnr, !length_dense_stage. done.
Qed.

(** Position [j] of a dense array of stage [t] holds what the vector
    given to the constructor holds for the external index of slot [j]. *)
Lemma built_stage_array_values nrow ncol nstag cstag rstag matrix dclo dcup dobj drlo drup
    ints il bins bl t j :
  length cstag = ncol → length rstag = nrow →
  Forall (λ s, s < nstag) cstag → Forall (λ s, s < nstag) rstag →
  matrix_ok matrix nrow → t < nstag →
  let core := gutsOfConstructor nrow ncol nstag cstag rstag matrix dclo dcup dobj drlo drup
                                ints il bins bl in
  let c := getColExternalIndex core (getColStart core t + j) in
  let r := getRowExternalIndex core (getRowStart core t + j) in
  (Forall (λ e, e.1 < ncol) (default [] dclo) → j < getNumCols core t →
   (Core.cdclo_ core !!! t) !! j = Some (last_value dclo c)) ∧
  (Forall (λ e, e.1 < ncol) (default [] dcup) → j < getNumCols core t →
   (Core.cdcup_ core !!! t) !! j = Some (last_value dcup c)) ∧
  (Forall (λ e, e.1 < ncol) (default [] dobj) → j < getNumCols core t →
   (Core.cdobj_ core !!! t) !! j = Some (last_value dobj c)) ∧
  (Forall (λ e, e.1 < nrow) (default [] drlo) → j < getNumRows core t →
   (Core.cdrlo_ core !!! t) !! j = Some (last_value drlo r)) ∧
  (Forall (λ e, e.1 < nrow) (default [] drup) → j < getNumRows core t →
   (Core.cdrup_ core !!! t) !! j = Some (last_value drup r)).
Proof.
  intros Hlc Hlr Hc Hr Hok Ht core.
  set (c0 := core_maps nrow ncol nstag cstag rstag ints il bins bl).
  assert (Hle : ∀ l : list nat, Forall (λ s, s < nstag) l → Forall (λ s, s ≤ nstag) l)
    by (intros l Hl; eapply Forall_impl; [exact Hl|simpl; lia]).
  assert (Hix0 : core_indexed c0) by (apply core_maps_indexed; auto).
  pose proof (built_maps nrow ncol nstag cstag rstag matrix
                dclo dcup dobj drlo drup ints il bins bl) as Hm.
  fold c0 in Hm. change (gutsOfConstructor _ _ _ _ _ _ _ _ _ _ _ _ _ _ _) with core in Hm.
  destruct (getters_same_maps _ _ Hm)
    as (Gnc & Gnr & Gcs & Grs & _ & _ & _ & _ & Gcex & Grex & _).
  destruct (built_dense nrow ncol nstag cstag rstag matrix
              dclo dcup dobj drlo drup ints il bins bl t Ht)
    as (Hclo & Hcup & Hobj & Hrlo & Hrup).
  cbv zeta in Hclo, Hcup, Hobj, Hrlo, Hrup. fold c0 in Hclo, Hcup, Hobj, Hrlo, Hrup.
  change (gutsOfConstructor _ _ _ _ _ _ _ _ _ _ _ _ _ _ _)
    with core in Hclo, Hcup, Hobj, Hrlo, Hrup.
  assert (Hlay : laid_out (SmiNodeData_new t c0 matrix dclo dcup dobj drlo drup)
                   (node_rows c0 t matrix) (node_categories c0 t dclo dcup dobj drlo drup)).
  { by apply SmiNodeData_new_laid_out, rows_readable_of_fits. }
  destruct (segments_setCoreNode (SmiNodeData_new t c0 matrix dclo dcup dobj drlo drup))
    as (Sclo & Scup & Sobj & Srlo & Srup).
  rewrite Sclo, (laid_out_getColLower _ _ _ Hlay) in Hclo.
  rewrite Scup, (laid_out_getColUpper _ _ _ Hlay) in Hcup.
  rewrite Sobj, (laid_out_getObjective _ _ _ Hlay) in Hobj.
  rewrite Srlo, (laid_out_getRowLower _ _ _ Hlay) in Hrlo.
  rewrite Srup, (laid_out_getRowUpper _ _ _ Hlay) in Hrup.
  cbn [node_categories lookup_total list_lookup_total] in Hclo, Hcup, Hobj, Hrlo, Hrup.
  destruct Hix0 as [Hcols Hrows].
  assert (Core.ncol_ c0 = ncol ∧ Core.nrow_ c0 = nrow ∧ Core.nstag_ c0 = nstag)
    as (Enc & Enr & Ens) by (repeat split; reflexivity).
  rewrite Enc, Ens in Hcols. rewrite Enr, Ens in Hrows.
  cbv zeta. rewrite Gnc, Gnr, Gcs, Grs, Gcex, Grex, Hclo, Hcup, Hobj, Hrlo, Hrup.
  unfold getNumCols, getNumRows, getColStart, getRowStart, getColStage, getRowStage,
    getColInternalIndex, getRowInternalIndex, getColExternalIndex, getRowExternalIndex.
  repeat split; intros Hv Hj.
  - by apply (dense_stage_value _ _ _ _ _ _ _ t dclo j Hcols).
  - by apply (dense_stage_value _ _ _ _ _ _ _ t dcup j Hcols).
  - by apply (dense_stage_value _ _ _ _ _ _ _ t dobj j Hcols).
  - by apply (dense_stage_value _ _ _ _ _ _ _ t drlo j Hrows).
  - by apply (dense_stage_value _ _ _ _ _ _ _ t drup j Hrows).
Qed.

(** The node of stage [t] a constructed core holds is a core node. *)
Lemma built_core_node nrow ncol nstag cstag rstag matrix dclo dcup dobj drlo drup
    ints il bins bl t :
  t < nstag →
  ∃ cn, Core.nodes_ (gutsOfConstructor nrow ncol nstag cstag rstag matrix
                       dclo dcup dobj drlo drup ints il bins bl) !! t = Some cn ∧
        Node.isCoreNode_ cn = true ∧ Node.stg_ cn = t.
Proof.
  intros Ht. eexists. split; [by apply built_node|]. unfold core_node.
  destruct (sort_rows_fields
              (setCoreNode (SmiNodeData_new t
                 (core_maps nrow ncol nstag cstag rstag ints il bins bl)
                 matrix dclo dcup dobj drlo drup))
              (getRowStart (core_maps nrow ncol nstag cstag rstag ints il bins bl) t)
              (getNumRows (core_maps nrow ncol nstag cstag rstag ints il bins bl) t))
    as (_ & -> & -> & _).
  done.
Qed.

(** C5.  On a constructed core, for a node of stage [t] that is a core
    node, and for any node of stage [t] whose delta of a category is
    empty: the copy operation of that category writes exactly the dense
    array the core holds for stage [t] in that category, over the first
    positions of the destination, as many as the stage has rows (or
    columns), and changes nothing behind them.  The node the core holds
    for stage [t] is such a core node. *)
Theorem combine_identity_for_trivial_deltas
    (nrow ncol nstag : nat) (cstag rstag : list nat) (matrix : option CoinPackedMatrix)
    (dclo dcup dobj drlo drup : option CoinPackedVector)
    (ints : list nat) (il : nat) (bins : list nat) (bl : nat)
    (t : nat) (nd : Node.t) (d : list double) :
  t < nstag → Node.stg_ nd = t →
  let core := gutsOfConstructor nrow ncol nstag cstag rstag matrix dclo dcup dobj drlo drup
                                ints il bins bl in
  (length (Core.cdrlo_ core !!! t) = getNumRows core t ∧
   length (Core.cdrup_ core !!! t) = getNumRows core t ∧
   length (Core.cdclo_ core !!! t) = getNumCols core t ∧
   length (Core.cdcup_ core !!! t) = getNumCols core t ∧
   length (Core.cdobj_ core !!! t) = getNumCols core t) ∧
  (Node.isCoreNode_ nd = true ∨ getRowLowerLength nd = 0 →
   SmiNodeData_copyRowLower core nd d
   = (Core.cdrlo_ core !!! t) ++ drop (getNumRows core t) d) ∧
  (Node.isCoreNode_ nd = true ∨ getRowUpperLength nd = 0 →
   SmiNodeData_copyRowUpper core nd d
   = (Core.cdrup_ core !!! t) ++ drop (getNumRows core t) d) ∧
  (Node.isCoreNode_ nd = true ∨ getColLowerLength nd = 0 →
   SmiNodeData_copyColLower core nd d
   = (Core.cdclo_ core !!! t) ++ drop (getNumCols core t) d) ∧
  (Node.isCoreNode_ nd = true ∨ getColUpperLength nd = 0 →
   SmiNodeData_copyColUpper core nd d
   = (Core.cdcup_ core !!! t) ++ drop (getNumCols core t) d) ∧
  (Node.isCoreNode_ nd = true ∨ getObjectiveLength nd = 0 →
   SmiNodeData_copyObjective core nd d
   = (Core.cdobj_ core !!! t) ++ drop (getNumCols core t) d) ∧
  (∃ cn, Core.nodes_ core !! t = Some cn ∧
         Node.isCoreNode_ cn = true ∧ Node.stg_ cn = t).
Proof.
  intros Ht Hstg core.
  pose proof (built_stage_array_lengths nrow ncol nstag cstag rstag matrix
                dclo dcup dobj drlo drup ints il bins bl t Ht) as Hlen.
  cbv zeta in Hlen. fold core in Hlen.
  destruct Hlen as (Lrlo & Lrup & Lclo & Lcup & Lobj).
  split; [done|].
  unfold SmiNodeData_copyRowLower, SmiNodeData_copyRowUpper, SmiNodeData_copyColLower,
    SmiNodeData_copyColUpper, SmiNodeData_copyObjective,
    SmiCoreData_copyRowLower, SmiCoreData_copyRowUpper, SmiCoreData_copyColLower,
    SmiCoreData_copyColUpper, SmiCoreData_copyObjective.
  cbv zeta. rewrite Hstg.
  rewrite (CoinDisjointCopyN_all _ d _ Lrlo), (CoinDisjointCopyN_all _ d _ Lrup),
    (CoinDisjointCopyN_all _ d _ Lclo), (CoinDisjointCopyN_all _ d _ Lcup),
    (CoinDisjointCopyN_all _ d _ Lobj).
  repeat split; try (by apply built_core_node);
    intros H; apply combine_trivial;
    (destruct H as [H|H]; [by left|right; by apply getSegment_empty]).
Qed.

Lemma combine_identity_witness :
  let core := gutsOfConstructor 2 3 2 [1; 0; 1] [1; 0] None
                (Some [(0, 5%float); (1, 6%float); (2, 7%float)]) None None None None
                [] 0 [] 0 in
  let nd := SmiNodeData_new 1 core None None None None None None in
  let d := [0; 0; 9]%float in
  ((length (Core.cdrlo_ core !!! 1) = getNumRows core 1 ∧
    length (Core.cdrup_ core !!! 1) = getNumRows core 1 ∧
    length (Core.cdclo_ core !!! 1) = getNumCols core 1 ∧
    length (Core.cdcup_ core !!! 1) = getNumCols core 1 ∧
    length (Core.cdobj_ core !!! 1) = getNumCols core 1) ∧
   (Node.isCoreNode_ nd = true ∨ getRowLowerLength nd = 0 →
    SmiNodeData_copyRowLower core nd d
    = (Core.cdrlo_ core !!! 1) ++ drop (getNumRows core 1) d) ∧
   (Node.isCoreNode_ nd = true ∨ getRowUpperLength nd = 0 →
    SmiNodeData_copyRowUpper core nd d
    = (Core.cdrup_ core !!! 1) ++ drop (getNumRows core 1) d) ∧
   (Node.isCoreNode_ nd = true ∨ getColLowerLength nd = 0 →
    SmiNodeData_copyColLower core nd d
    = (Core.cdclo_ core !!! 1) ++ drop (getNumCols core 1) d) ∧
   (Node.isCoreNode_ nd = true ∨ getColUpperLength nd = 0 →
    SmiNodeData_copyColUpper core nd d
    = (Core.cdcup_ core !!! 1) ++ drop (getNumCols core 1) d) ∧
   (Node.isCoreNode_ nd = true ∨ getObjectiveLength nd = 0 →
    SmiNodeData_copyObjective core nd d
    = (Core.cdobj_ core !!! 1) ++ drop (getNumCols core 1) d) ∧
   (∃ cn, Core.nodes_ core !! 1 = Some cn ∧
          Node.isCoreNode_ cn = true ∧ Node.stg_ cn = 1)) ∧
  getColLowerLength nd = 0 ∧
  SmiNodeData_copyColLower core nd d = [5; 7; 9]%float.
Proof.
  split; [|split; vm_compute; reflexivity].
  apply (combine_identity_for_trivial_deltas 2 3 2 [1; 0; 1] [1; 0] None
           (Some [(0, 5%float); (1, 6%float); (2, 7%float)]) None None None None
           [] 0 [] 0 1); [lia|reflexivity].
Defined.

(** ** C1: overwrite wins *)

Lemma Process_stage_slot nstag n stage ex2in in2ex ptr cnt t j v (base : list double) :
  indexed nstag n stage ex2in in2ex ptr cnt →
  t < nstag → j < cnt !!! t → Forall (λ e, e.1 < n) (default [] v) →
  Process base (ptr !!! t) (stage_entries (λ i, stage !!! i) (λ i, ex2in !!! i) t v) !! j
  = overridden (base !! j) v (in2ex !!! (ptr !!! t + j)).
Proof.
  intros ix Ht Hj Hv. rewrite Process_lookup. unfold overridden.
  by rewrite (sparse_get_stage_slot _ _ _ _ _ _ _ ix t j v).
Qed.

Lemma Process_rows_get cr nr k :
  sparse_get (Process_rows cr nr) k
  = match sparse_get nr k with Some v => Some v | None => sparse_get cr k end.
Proof.
  unfold Process_rows.
  assert (∀ l1 l2 : list entry, sparse_get (l1 ++ l2) k
            = match sparse_get l1 k with Some v => Some v | None => sparse_get l2 k end) as Happ.
  { induction l1 as [|e l1 IH]; intros l2; [done|]. simpl. case_decide; [done|apply IH]. }
  rewrite Happ.
  assert (sparse_get ((λ e, (e.1, default e.2 (sparse_get nr e.1))) <$> cr) k
          = (λ x, default x (sparse_get nr k)) <$> sparse_get cr k) as ->.
  { induction cr as [|e cr IH]; [done|]. rewrite fmap_cons. simpl.
    case_decide as E; [by subst k|apply IH]. }
  destruct (sparse_get cr k) as [x|] eqn:Hcr; simpl.
  - by destruct (sparse_get nr k).
  - induction nr as [|e nr IH]; [done|]. rewrite filter_cons. simpl.
    case_decide as E1.
    + simpl. case_decide; [done|apply IH].
    + case_decide as E2; [|apply IH]. subst k. by rewrite Hcr in E1.
Qed.

Lemma float_3_ne_5 : 3%float ≠ 5%float.
Proof.
  intros H. assert (E : PrimFloat.eqb 3 5 = PrimFloat.eqb 5 5) by (by rewrite H).
  vm_compute in E. discriminate E.
Qed.

Lemma float_3_ne_2 : 3%float ≠ 2%float.
Proof.
  intros H. assert (E : PrimFloat.eqb 3 2 = PrimFloat.eqb 2 2) by (by rewrite H).
  vm_compute in E. discriminate E.
Qed.

Section ScenarioNode.
Variables (nrow ncol nstag : nat) (cstag rstag : list nat)
          (matrix0 : option CoinPackedMatrix)
          (dclo0 dcup0 dobj0 drlo0 drup0 : option CoinPackedVector)
          (ints : list nat) (il : nat) (bins : list nat) (bl : nat).
Hypotheses (Hlc : length cstag = ncol) (Hlr : length rstag = nrow)
           (Hc : Forall (λ s, s < nstag) cstag) (Hr : Forall (λ s, s < nstag) rstag).

Let core : Core.t :=
  gutsOfConstructor nrow ncol nstag cstag rstag matrix0 dclo0 dcup0 dobj0 drlo0 drup0
                    ints il bins bl.

Lemma scenario_core_indexed : core_indexed core.
Proof.
  apply gutsOfConstructor_indexed; try done;
    eapply Forall_impl; try eassumption; simpl; lia.
Qed.

Lemma scenario_core_dims :
  Core.nstag_ core = nstag ∧ Core.ncol_ core = ncol ∧ Core.nrow_ core = nrow.
Proof.
  destruct (built_dims nrow ncol nstag cstag rstag matrix0 dclo0 dcup0 dobj0 drlo0 drup0
                       ints il bins bl) as (? & ? & ? & _). done.
Qed.

Variables (t : nat) (matrix : option CoinPackedMatrix)
          (dclo dcup dobj drlo drup : option CoinPackedVector).
Hypotheses (Ht : t < nstag) (Hok : matrix_ok matrix nrow).

Let node : Node.t := SmiNodeData_new t core matrix dclo dcup dobj drlo drup.

Lemma scenario_node_laid_out :
  laid_out node (node_rows core t matrix) (node_categories core t dclo dcup dobj drlo drup).
Proof.
  destruct scenario_core_dims as (Hn & _ & Hnr).
  apply SmiNodeData_new_laid_out, rows_readable_of_fits;
    [apply scenario_core_indexed|by rewrite Hn|by rewrite Hnr].
Qed.

Lemma scenario_col_slot j v (base : list double) :
  j < getNumCols core t → Forall (λ e, e.1 < ncol) (default [] v) →
  Process base (getColStart core t)
          (stage_entries (getColStage core) (getColInternalIndex core) t v) !! j
  = overridden (base !! j) v (getColExternalIndex core (getColStart core t + j)).
Proof.
  intros Hj Hv. destruct scenario_core_indexed as [Hcols _].
  destruct scenario_core_dims as (Hn & Hnc & _). rewrite Hn, Hnc in Hcols.
  by apply (Process_stage_slot _ _ _ _ _ _ _ _ _ _ _ Hcols).
Qed.

Lemma scenario_row_slot j v (base : list double) :
  j < getNumRows core t → Forall (λ e, e.1 < nrow) (default [] v) →
  Process base (getRowStart core t)
          (stage_entries (getRowStage core) (getRowInternalIndex core) t v) !! j
  = overridden (base !! j) v (getRowExternalIndex core (getRowStart core t + j)).
Proof.
  intros Hj Hv. destruct scenario_core_indexed as [_ Hrows].
  destruct scenario_core_dims as (Hn & _ & Hnr). rewrite Hn, Hnr in Hrows.
  by apply (Process_stage_slot _ _ _ _ _ _ _ _ _ _ _ Hrows).
Qed.
End ScenarioNode.

(** C1.  For a node that is not a core node, built for stage [t] from
    sparse override vectors over a constructed core: position [j] of the
    dense array the core holds for stage [t] is the value the vector
    given to the core's constructor holds for the external index [c] of
    slot [j]; each of [copyColLower], [copyColUpper], [copyObjective],
    [copyRowLower] and [copyRowUpper] writes at position [j] the value
    the node's vector holds for [c] when it holds one, and that value of
    the core's dense array otherwise; the combine of two matrix rows
    gives an index the node's value when the node holds it and the
    core's value otherwise; and in the scenario of section 8 (core
    coefficient 2.0, node coefficient 3.0 at the same place) the combined
    row holds 3.0, which is neither 5.0 nor 2.0. *)
Theorem overwrite_wins_combine
    (nrow ncol nstag : nat) (cstag rstag : list nat) (matrix0 : option CoinPackedMatrix)
    (dclo0 dcup0 dobj0 drlo0 drup0 : option CoinPackedVector)
    (ints : list nat) (il : nat) (bins : list nat) (bl : nat)
    (t : nat) (matrix : option CoinPackedMatrix)
    (dclo dcup dobj drlo drup : option CoinPackedVector) :
  length cstag = ncol → length rstag = nrow →
  Forall (λ s, s < nstag) cstag → Forall (λ s, s < nstag) rstag →
  t < nstag → matrix_ok matrix0 nrow → matrix_ok matrix nrow →
  Forall (λ e, e.1 < ncol) (default [] dclo0) →
  Forall (λ e, e.1 < ncol) (default [] dcup0) →
  Forall (λ e, e.1 < ncol) (default [] dobj0) →
  Forall (λ e, e.1 < nrow) (default [] drlo0) →
  Forall (λ e, e.1 < nrow) (default [] drup0) →
  Forall (λ e, e.1 < ncol) (default [] dclo) →
  Forall (λ e, e.1 < ncol) (default [] dcup) →
  Forall (λ e, e.1 < ncol) (default [] dobj) →
  Forall (λ e, e.1 < nrow) (default [] drlo) →
  Forall (λ e, e.1 < nrow) (default [] drup) →
  let core := gutsOfConstructor nrow ncol nstag cstag rstag matrix0
                                dclo0 dcup0 dobj0 drlo0 drup0 ints il bins bl in
  let node := SmiNodeData_new t core matrix dclo dcup dobj drlo drup in
  (∀ d j, j < getNumCols core t →
     let c := getColExternalIndex core (getColStart core t + j) in
     ((Core.cdclo_ core !!! t) !! j = Some (last_value dclo0 c) ∧
      SmiNodeData_copyColLower core node d !! j
      = overridden ((Core.cdclo_ core !!! t) !! j) dclo c) ∧
     ((Core.cdcup_ core !!! t) !! j = Some (last_value dcup0 c) ∧
      SmiNodeData_copyColUpper core node d !! j
      = overridden ((Core.cdcup_ core !!! t) !! j) dcup c) ∧
     ((Core.cdobj_ core !!! t) !! j = Some (last_value dobj0 c) ∧
      SmiNodeData_copyObjective core node d !! j
      = overridden ((Core.cdobj_ core !!! t) !! j) dobj c)) ∧
  (∀ d j, j < getNumRows core t →
     let r := getRowExternalIndex core (getRowStart core t + j) in
     ((Core.cdrlo_ core !!! t) !! j = Some (last_value drlo0 r) ∧
      SmiNodeData_copyRowLower core node d !! j
      = overridden ((Core.cdrlo_ core !!! t) !! j) drlo r) ∧
     ((Core.cdrup_ core !!! t) !! j = Some (last_value drup0 r) ∧
      SmiNodeData_copyRowUpper core node d !! j
      = overridden ((Core.cdrup_ core !!! t) !! j) drup r)) ∧
  (∀ cr nr k,
     sparse_get (combineWithCoreRow cr nr) k
     = match sparse_get nr k with Some v => Some v | None => sparse_get cr k end) ∧
  (∃ cn, Core.nodes_ scenario_core !! 1 = Some cn ∧
         getRow cn 0 = [(1, 2%float)] ∧ getRow scenario_node 0 = [(1, 3%float)] ∧
         combineWithCoreRow (getRow cn 0) (getRow scenario_node 0) = [(1, 3%float)] ∧
         3%float ≠ 5%float ∧ 3%float ≠ 2%float).
Proof.
  intros Hlc Hlr Hc Hr Ht Hok0 Hok V0clo V0cup V0obj V0rlo V0rup Vclo Vcup Vobj Vrlo Vrup
    core node.
  pose proof (scenario_node_laid_out nrow ncol nstag cstag rstag matrix0
                dclo0 dcup0 dobj0 drlo0 drup0 ints il bins bl Hlc Hlr Hc Hr
                t matrix dclo dcup dobj drlo drup Ht Hok) as Hlo.
  fold core in Hlo. fold node in Hlo.
  pose proof (built_stage_array_lengths nrow ncol nstag cstag rstag matrix0
                dclo0 dcup0 dobj0 drlo0 drup0 ints il bins bl t Ht) as Hlen.
  cbv zeta in Hlen. fold core in Hlen.
  destruct Hlen as (Lrlo & Lrup & Lclo & Lcup & Lobj).
  assert (Hval : ∀ j,
    let c := getColExternalIndex core (getColStart core t + j) in
    let r := getRowExternalIndex core (getRowStart core t + j) in
    (j < getNumCols core t → (Core.cdclo_ core !!! t) !! j = Some (last_value dclo0 c)) ∧
    (j < getNumCols core t → (Core.cdcup_ core !!! t) !! j = Some (last_value dcup0 c)) ∧
    (j < getNumCols core t → (Core.cdobj_ core !!! t) !! j = Some (last_value dobj0 c)) ∧
    (j < getNumRows core t → (Core.cdrlo_ core !!! t) !! j = Some (last_value drlo0 r)) ∧
    (j < getNumRows core t → (Core.cdrup_ core !!! t) !! j = Some (last_value drup0 r))).
  { intros j.
    pose proof (built_stage_array_values nrow ncol nstag cstag rstag matrix0
                  dclo0 dcup0 dobj0 drlo0 drup0 ints il bins bl t j
                  Hlc Hlr Hc Hr Hok0 Ht) as Hv.
    cbv zeta in Hv |- *. fold core in Hv. destruct Hv as (A1 & A2 & A3 & A4 & A5).
    repeat split; intros Hj; [apply A1|apply A2|apply A3|apply A4|apply A5]; assumption. }
  split; [|split; [|split]].
  - intros d j Hj c.
    destruct (Hval j) as (A1 & A2 & A3 & _). fold c in A1, A2, A3.
    unfold SmiNodeData_copyColLower, SmiNodeData_copyColUpper, SmiNodeData_copyObjective,
      combineWithCoreDoubleArray.
    change (Node.isCoreNode_ node) with false. change (Node.stg_ node) with t.
    rewrite (laid_out_getColLower _ _ _ Hlo), (laid_out_getColUpper _ _ _ Hlo),
      (laid_out_getObjective _ _ _ Hlo).
    cbn [node_categories lookup_total list_lookup_total].
    split; [|split]; (split; [auto|]).
    + rewrite <- (CoinDisjointCopyN_lookup (Core.cdclo_ core !!! t) d (getNumCols core t) j)
        by lia.
      by apply (scenario_col_slot nrow ncol nstag cstag rstag matrix0
                  dclo0 dcup0 dobj0 drlo0 drup0 ints il bins bl Hlc Hlr Hc Hr t Ht).
    + rewrite <- (CoinDisjointCopyN_lookup (Core.cdcup_ core !!! t) d (getNumCols core t) j)
        by lia.
      by apply (scenario_col_slot nrow ncol nstag cstag rstag matrix0
                  dclo0 dcup0 dobj0 drlo0 drup0 ints il bins bl Hlc Hlr Hc Hr t Ht).
    + rewrite <- (CoinDisjointCopyN_lookup (Core.cdobj_ core !!! t) d (getNumCols core t) j)
        by lia.
      by apply (scenario_col_slot nrow ncol nstag cstag rstag matrix0
                  dclo0 dcup0 dobj0 drlo0 drup0 ints il bins bl Hlc Hlr Hc Hr t Ht).
  - intros d j Hj r.
    destruct (Hval j) as (_ & _ & _ & A4 & A5). fold r in A4, A5.
    unfold SmiNodeData_copyRowLower, SmiNodeData_copyRowUpper, combineWithCoreDoubleArray.
    change (Node.isCoreNode_ node) with false. change (Node.stg_ node) with t.
    rewrite (laid_out_getRowLower _ _ _ Hlo), (laid_out_getRowUpper _ _ _ Hlo).
    cbn [node_categories lookup_total list_lookup_total].
    split; (split; [auto|]).
    + rewrite <- (CoinDisjointCopyN_lookup (Core.cdrlo_ core !!! t) d (getNumRows core t) j)
        by lia.
      by apply (scenario_row_slot nrow ncol nstag cstag rstag matrix0
                  dclo0 dcup0 dobj0 drlo0 drup0 ints il bins bl Hlc Hlr Hc Hr t Ht).
    + rewrite <- (CoinDisjointCopyN_lookup (Core.cdrup_ core !!! t) d (getNumRows core t) j)
        by lia.
      by apply (scenario_row_slot nrow ncol nstag cstag rstag matrix0
                  dclo0 dcup0 dobj0 drlo0 drup0 ints il bins bl Hlc Hlr Hc Hr t Ht).
  - intros cr nr k. apply Process_rows_get.
  - eexists. split; [reflexivity|]. split; [reflexivity|]. split; [reflexivity|].
    split; [reflexivity|]. split; [apply float_3_ne_5|apply float_3_ne_2].
Qed.

Lemma overwrite_wins_witness :
  let core := example_core in
  let node := SmiNodeData_new 1 core None (Some [(0, 1%float); (1, 2%float)])
                              None None None None in
  let c := getColExternalIndex core (getColStart core 1 + 0) in
  ((Core.cdclo_ core !!! 1) !! 0
   = Some (last_value (Some (CoinPackedVector_full 3 (osi_colLower example_osi))) c) ∧
   SmiNodeData_copyColLower core node [0; 0]%float !! 0
   = overridden ((Core.cdclo_ core !!! 1) !! 0) (Some [(0, 1%float); (1, 2%float)]) c)
  ∧ Core.cdclo_ core !!! 1 = [5; 7]%float
  ∧ SmiNodeData_copyColLower core node [0; 0]%float = [1; 7]%float.
Proof.
  split; [|split; reflexivity].
  refine (proj1 (proj1 (overwrite_wins_combine 2 3 2 [1; 0; 1] [1; 0]
            (Some (osi_matrix example_osi))
            (Some (CoinPackedVector_full 3 (osi_colLower example_osi)))
            (Some (CoinPackedVector_full 3 (osi_colUpper example_osi)))
            (Some (CoinPackedVector_full 3 (osi_obj example_osi)))
            (Some (CoinPackedVector_full 2 (osi_rowLower example_osi)))
            (Some (CoinPackedVector_full 2 (osi_rowUpper example_osi)))
            [] 0 [] 0 1 None (Some [(0, 1%float); (1, 2%float)]) None None None None
            eq_refl eq_refl _ _ _ _ I _ _ _ _ _ _ _ _ _ _) [0; 0]%float 0 _));
    [repeat constructor | repeat constructor | repeat constructor
    | split; [reflexivity | repeat (constructor; [vm_compute; lia|]); constructor]
    | apply Forall_full_index | apply Forall_full_index | apply Forall_full_index
    | apply Forall_full_index | apply Forall_full_index
    | repeat (constructor; [simpl; lia|]); constructor
    | constructor | constructor | constructor | constructor
    | vm_compute; lia].
Defined.

(** ** C2: what a constructed node stores *)

Lemma sum_list_zero (l : list nat) i : sum_list l = 0 → l !!! i = 0.
Proof.
  revert i. induction l as [|x l IH]; intros i H; [done|].
  simpl in H. destruct i as [|i]; simpl; [lia|]. apply IH. lia.
Qed.

Lemma stage_rows_lookup core m rowbeg n i :
  i < n →
  (fmap (M:=list) (internal_entry core) <$> stage_rows core m rowbeg n) !!! i
  = internal_entry core <$> matrix_row m (getRowExternalIndex core (rowbeg + i)).
Proof.
  intros Hi. apply list_lookup_total_correct. unfold stage_rows.
  by rewrite !list_lookup_fmap, lookup_seq_lt.
Qed.

(** The rows of a node the constructor built over a constructed core. *)
Lemma constructed_node_row
    (nrow ncol nstag : nat) (cstag rstag : list nat) (matrix0 : option CoinPackedMatrix)
    (dclo0 dcup0 dobj0 drlo0 drup0 : option CoinPackedVector)
    (ints : list nat) (il : nat) (bins : list nat) (bl : nat)
    (t : nat) (matrix : option CoinPackedMatrix)
    (dclo dcup dobj drlo drup : option CoinPackedVector) (i : nat) :
  length cstag = ncol → length rstag = nrow →
  Forall (λ s, s < nstag) cstag → Forall (λ s, s < nstag) rstag →
  t < nstag → matrix_ok matrix nrow →
  let core := gutsOfConstructor nrow ncol nstag cstag rstag matrix0
                                dclo0 dcup0 dobj0 drlo0 drup0 ints il bins bl in
  let node := SmiNodeData_new t core matrix dclo dcup dobj drlo drup in
  i < getNumRows core t →
  getRow node (getRowStart core t + i)
  = internal_entry core
      <$> from_option
            (λ m, matrix_row m (getRowExternalIndex core (getRowStart core t + i))) [] matrix.
Proof.
  intros Hlc Hlr Hc Hr Ht Hok core node Hi.
  pose proof (scenario_node_laid_out nrow ncol nstag cstag rstag matrix0
                dclo0 dcup0 dobj0 drlo0 drup0 ints il bins bl Hlc Hlr Hc Hr
                t matrix dclo dcup dobj drlo drup Ht Hok) as Hlo.
  fold core in Hlo. fold node in Hlo.
  destruct (has_elements matrix) eqn:Hhas.
  - assert (Hlen : i < length (node_rows core t matrix)).
    { rewrite (lo_rows _ _ _ Hlo).
      change (Node.has_matrix_ node) with (has_elements matrix). by rewrite Hhas. }
    pose proof (laid_out_getRow _ _ _ Hlo i Hlen) as Hg.
    change (Node.rowbeg_ node) with (getRowStart core t) in Hg. rewrite Hg.
    unfold node_rows. destruct matrix as [m|]; [|done]. rewrite Hhas.
    apply stage_rows_lookup. exact Hi.
  - unfold getRow. change (Node.has_matrix_ node) with (has_elements matrix).
    rewrite Hhas. destruct matrix as [m|]; [|done]. simpl.
    unfold has_elements in Hhas. apply bool_decide_eq_false in Hhas.
    unfold matrix_row. rewrite (sum_list_zero (mx_len m)); [done|].
    unfold getNumElements in Hhas. lia.
Qed.

(** C2.  A node constructed for stage [t] over a constructed core stores,
    for each of the five bound and objective categories, exactly the
    entries of the input vector whose column (or row) has stage [t], in
    the order of the vector, each with its index translated to the
    internal numbering; its matrix rows are the input rows at the
    external indices of the block of stage [t], which are exactly the
    rows of stage [t], with column indices translated to the internal
    numbering; and the buffer holds nothing else. *)
Theorem node_stores_exactly_its_stage
    (nrow ncol nstag : nat) (cstag rstag : list nat) (matrix0 : option CoinPackedMatrix)
    (dclo0 dcup0 dobj0 drlo0 drup0 : option CoinPackedVector)
    (ints : list nat) (il : nat) (bins : list nat) (bl : nat)
    (t : nat) (matrix : option CoinPackedMatrix)
    (dclo dcup dobj drlo drup : option CoinPackedVector) :
  length cstag = ncol → length rstag = nrow →
  Forall (λ s, s < nstag) cstag → Forall (λ s, s < nstag) rstag →
  t < nstag → matrix_ok matrix nrow →
  let core := gutsOfConstructor nrow ncol nstag cstag rstag matrix0
                                dclo0 dcup0 dobj0 drlo0 drup0 ints il bins bl in
  let node := SmiNodeData_new t core matrix dclo dcup dobj drlo drup in
  let cols (v : option CoinPackedVector) :=
    (λ e, (getColInternalIndex core e.1, e.2))
      <$> filter (λ e, getColStage core e.1 = t) (default [] v) in
  let rows (v : option CoinPackedVector) :=
    (λ e, (getRowInternalIndex core e.1, e.2))
      <$> filter (λ e, getRowStage core e.1 = t) (default [] v) in
  getColLower node = cols dclo ∧ getColUpper node = cols dcup ∧
  getObjective node = cols dobj ∧
  getRowLower node = rows drlo ∧ getRowUpper node = rows drup ∧
  (∀ i, i < getNumRows core t →
     getRow node (getRowStart core t + i)
     = match matrix with
       | Some m => (λ e, (getColInternalIndex core e.1, e.2))
                     <$> matrix_row m (getRowExternalIndex core (getRowStart core t + i))
       | None => []
       end) ∧
  (∀ r, r < nrow →
     getRowStage core r = t
     ↔ ∃ i, i < getNumRows core t ∧ getRowExternalIndex core (getRowStart core t + i) = r) ∧
  Node.ents_ node
  = concat (node_rows core t matrix ++ [cols dclo; cols dcup; cols dobj; rows drlo; rows drup]).
Proof.
  intros Hlc Hlr Hc Hr Ht Hok core node cols rows.
  pose proof (scenario_node_laid_out nrow ncol nstag cstag rstag matrix0
                dclo0 dcup0 dobj0 drlo0 drup0 ints il bins bl Hlc Hlr Hc Hr
                t matrix dclo dcup dobj drlo drup Ht Hok) as Hlo.
  fold core in Hlo. fold node in Hlo.
  pose proof (scenario_core_indexed nrow ncol nstag cstag rstag matrix0
                dclo0 dcup0 dobj0 drlo0 drup0 ints il bins bl Hlc Hlr Hc Hr) as [_ Hrows].
  destruct (scenario_core_dims nrow ncol nstag cstag rstag matrix0
              dclo0 dcup0 dobj0 drlo0 drup0 ints il bins bl) as (Hn & _ & Hnr).
  fold core in Hrows, Hn, Hnr. rewrite Hn, Hnr in Hrows.
  rewrite (laid_out_getColLower _ _ _ Hlo), (laid_out_getColUpper _ _ _ Hlo),
    (laid_out_getObjective _ _ _ Hlo), (laid_out_getRowLower _ _ _ Hlo),
    (laid_out_getRowUpper _ _ _ Hlo).
  do 5 (split; [reflexivity|]). split; [|split].
  - intros i Hi.
    etrans; [exact (constructed_node_row nrow ncol nstag cstag rstag matrix0
                      dclo0 dcup0 dobj0 drlo0 drup0 ints il bins bl t matrix
                      dclo dcup dobj drlo drup i Hlc Hlr Hc Hr Ht Hok Hi)|].
    by destruct matrix.
  - intros r Hlt. apply (ix_stage_block _ _ _ _ _ _ _ Hrows t r Ht Hlt).
  - apply (lo_ents _ _ _ Hlo).
Qed.

Lemma node_stores_witness :
  let node := SmiNodeData_new 1 example_core (Some (osi_matrix example_osi))
                (Some [(0, 1%float); (1, 2%float)]) None None None None in
  getColLower node = [(1, 1%float)] ∧
  getRow node 1 = [(2, 1%float); (1, 2%float); (0, 3%float)].
Proof.
  pose proof (node_stores_exactly_its_stage 2 3 2 [1; 0; 1] [1; 0]
    (Some (osi_matrix example_osi))
    (Some (CoinPackedVector_full 3 (osi_colLower example_osi)))
    (Some (CoinPackedVector_full 3 (osi_colUpper example_osi)))
    (Some (CoinPackedVector_full 3 (osi_obj example_osi)))
    (Some (CoinPackedVector_full 2 (osi_rowLower example_osi)))
    (Some (CoinPackedVector_full 2 (osi_rowUpper example_osi)))
    [] 0 [] 0 1 (Some (osi_matrix example_osi))
    (Some [(0, 1%float); (1, 2%float)]) None None None None
    eq_refl eq_refl) as H.
  cbv zeta in H.
  destruct H as (Hclo & _ & _ & _ & _ & Hrow & _);
    [repeat constructor | repeat constructor | repeat constructor
    | split; [reflexivity | repeat (constructor; [vm_compute; lia|]); constructor] |].
  split.
  - etrans; [exact Hclo|reflexivity].
  - etrans; [exact (Hrow 0 ltac:(vm_compute; lia))|reflexivity].
Defined.

(** ** C10: the start offsets *)

(** C10 does not hold of a node built without a matrix: its row starts
    are never written, so [strt_] rises to the number of stored entries
    and ends in zeros. *)
Lemma offsets_without_matrix :
  Node.strt_ example_bound_node = [0; 1; 1; 1; 1; 1; 0] ∧
  Node.ents_ example_bound_node = [(1, 1%float)] ∧
  ¬ offsets_partition_buffer (Node.strt_ example_bound_node)
                             (length (Node.ents_ example_bound_node)).
Proof.
  split; [reflexivity|]. split; [reflexivity|].
  intros (_ & _ & Hlast). vm_compute in Hlast. discriminate Hlast.
Qed.

Lemma laid_out_used_offsets nd rows cats :
  laid_out nd rows cats →
  offsets_partition_buffer (used_offsets nd) (length (Node.ents_ nd)) ∧
  length (used_offsets nd) = (if Node.has_matrix_ nd then Node.nrow_ nd else 0) + 6 ∧
  (Node.has_matrix_ nd = true → used_offsets nd = Node.strt_ nd) ∧
  Node.ents_ nd = concat (getSegment nd <$> seq 0 (Node.rup_strt_ nd + 1)).
Proof.
  intros Hlo. unfold used_offsets, offsets_partition_buffer.
  pose proof (lo_rows _ _ _ Hlo) as Hr. pose proof (lo_cats _ _ _ Hlo) as Hc.
  pose proof (lo_strt_len _ _ _ Hlo) as Hsl.
  rewrite (lo_rup _ _ _ Hlo).
  assert (Hls : length (rows ++ cats) = length rows + 5) by (rewrite length_app; lia).
  assert (Hrn : length rows ≤ Node.nrow_ nd) by (destruct (Node.has_matrix_ nd); lia).
  assert (Hlu : length (take (length rows + 4 + 2) (Node.strt_ nd)) = length rows + 6)
    by (rewrite length_take; lia).
  assert (Hu : ∀ k, k < length rows + 6 →
                take (length rows + 4 + 2) (Node.strt_ nd) !!! k
                = length (concat (take k (rows ++ cats)))).
  { intros k Hk. rewrite lookup_total_take_lt by lia. apply (lo_strt _ _ _ Hlo). lia. }
  split; [split; [|split]|split; [|split]].
  - rewrite (list_lookup_lookup_total_lt _ 0) by lia. by rewrite Hu by lia.
  - intros k Hk. rewrite !Hu by lia. apply concat_take_mono. lia.
  - rewrite last_lookup, Hlu.
    replace (Init.Nat.pred (length rows + 6)) with (length rows + 5) by lia.
    rewrite (list_lookup_lookup_total_lt _ (length rows + 5)) by lia.
    rewrite Hu by lia. rewrite take_ge by lia. by rewrite (lo_ents _ _ _ Hlo).
  - rewrite Hlu, Hr. done.
  - intros Hm. rewrite Hm in Hr. apply take_ge. lia.
  - rewrite (lo_ents _ _ _ Hlo). f_equal.
    apply list_eq. intros k. rewrite list_lookup_fmap.
    destruct (decide (k < length rows + 5)) as [Hk|Hk].
    + rewrite lookup_seq_lt by lia. simpl.
      rewrite (laid_out_segment _ _ _ Hlo) by lia.
      apply list_lookup_lookup_total_lt. lia.
    + rewrite lookup_seq_ge by lia. simpl. apply lookup_ge_None. lia.
Qed.

(** C10, as the code has it.  For every node the constructor builds, and
    for every core node of a constructed core, the offsets
    [strt_[0 .. rup_strt_+1]] begin at 0, never decrease, and end at the
    number of entries stored; the segments between them, in order, are
    the whole buffer.  On a node with a matrix these are all of [strt_]:
    the [nrow_+1] row starts, then the five markers.  On a node without
    a matrix no row start is recorded: the five markers follow
    [strt_[0]] and the last [nrow_] entries of [strt_] stay zero. *)
Theorem used_offsets_partition_buffer
    (nrow ncol nstag : nat) (cstag rstag : list nat) (matrix0 : option CoinPackedMatrix)
    (dclo0 dcup0 dobj0 drlo0 drup0 : option CoinPackedVector)
    (ints : list nat) (il : nat) (bins : list nat) (bl : nat)
    (t : nat) (matrix : option CoinPackedMatrix)
    (dclo dcup dobj drlo drup : option CoinPackedVector) :
  length cstag = ncol → length rstag = nrow →
  Forall (λ s, s < nstag) cstag → Forall (λ s, s < nstag) rstag →
  t < nstag → matrix_ok matrix0 nrow → matrix_ok matrix nrow →
  let core := gutsOfConstructor nrow ncol nstag cstag rstag matrix0
                                dclo0 dcup0 dobj0 drlo0 drup0 ints il bins bl in
  let node := SmiNodeData_new t core matrix dclo dcup dobj drlo drup in
  let good (nd : Node.t) :=
    offsets_partition_buffer (used_offsets nd) (length (Node.ents_ nd)) ∧
    length (used_offsets nd) = (if Node.has_matrix_ nd then Node.nrow_ nd else 0) + 6 ∧
    (Node.has_matrix_ nd = true → used_offsets nd = Node.strt_ nd) ∧
    Node.ents_ nd = concat (getSegment nd <$> seq 0 (Node.rup_strt_ nd + 1)) ∧
    length (Node.strt_ nd) = Node.nrow_ nd + 6 in
  good node ∧ ∃ cn, Core.nodes_ core !! t = Some cn ∧ good cn.
Proof.
  intros Hlc Hlr Hc Hr Ht Hok0 Hok core node good.
  pose proof (scenario_node_laid_out nrow ncol nstag cstag rstag matrix0
                dclo0 dcup0 dobj0 drlo0 drup0 ints il bins bl Hlc Hlr Hc Hr
                t matrix dclo dcup dobj drlo drup Ht Hok) as Hlo.
  fold core in Hlo. fold node in Hlo.
  assert (Hgood : ∀ nd rows cats, laid_out nd rows cats → good nd).
  { intros nd rows cats H. unfold good.
    destruct (laid_out_used_offsets nd rows cats H) as (H1 & H2 & H3 & H4).
    repeat split; try done; try apply H1. apply (lo_strt_len _ _ _ H). }
  split; [by eapply Hgood|].
  set (c0 := core_maps nrow ncol nstag cstag rstag ints il bins bl).
  assert (Hix0 : core_indexed c0).
  { apply core_maps_indexed; try done; eapply Forall_impl; try eassumption; simpl; lia. }
  destruct (core_node_laid_out c0 t matrix0 dclo0 dcup0 dobj0 drlo0 drup0 Hix0 Ht Hok0)
    as (Hcl & _).
  eexists. split.
  - apply (built_node nrow ncol nstag cstag rstag matrix0 dclo0 dcup0 dobj0 drlo0 drup0
             ints il bins bl t Ht).
  - by eapply Hgood.
Qed.

Lemma used_offsets_witness :
  offsets_partition_buffer (used_offsets example_bound_node)
                           (length (Node.ents_ example_bound_node)) ∧
  used_offsets example_bound_node = [0; 1; 1; 1; 1; 1].
Proof.
  split; [|reflexivity].
  refine (proj1 (proj1 (used_offsets_partition_buffer 2 3 2 [1; 0; 1] [1; 0]
            (Some (osi_matrix example_osi))
            (Some (CoinPackedVector_full 3 (osi_colLower example_osi)))
            (Some (CoinPackedVector_full 3 (osi_colUpper example_osi)))
            (Some (CoinPackedVector_full 3 (osi_obj example_osi)))
            (Some (CoinPackedVector_full 2 (osi_rowLower example_osi)))
            (Some (CoinPackedVector_full 2 (osi_rowUpper example_osi)))
            [] 0 [] 0 1 None (Some [(0, 1%float); (1, 2%float)]) None None None None
            eq_refl eq_refl _ _ _ _ _)));
    [repeat constructor | repeat constructor | repeat constructor
    | split; [reflexivity | repeat (constructor; [vm_compute; lia|]); constructor]
    | exact I].
Defined.

(** ** C7: the order of the stored rows *)

(** C7 does not hold of the node constructor: a scenario node of stage 1
    built from a row that names the columns 0 and 1 in that order stores
    their internal indices 1 and 0 in that order. *)
Lemma constructor_keeps_input_order :
  getRow example_row_node 1 = [(1, 1%float); (0, 2%float)] ∧
  ¬ rows_ascending example_row_node.
Proof.
  split; [reflexivity|]. intros H. specialize (H 0 ltac:(vm_compute; lia)).
  vm_compute in H. apply StronglySorted_inv in H as [_ H].
  apply Forall_inv in H. lia.
Qed.

Lemma sortIncrIndex_sorted cpv : StronglySorted index_le (sortIncrIndex cpv).
Proof. unfold sortIncrIndex. apply StronglySorted_merge_sort; apply _. Qed.

Lemma sortIncrIndex_Permutation cpv : sortIncrIndex cpv ≡ₚ cpv.
Proof. unfold sortIncrIndex. apply merge_sort_Permutation. Qed.

Lemma sorted_indices_le (l : list entry) :
  StronglySorted index_le l → StronglySorted le l.*1.
Proof.
  induction 1 as [|x l Hl IH Hx]; [constructor|]. rewrite fmap_cons.
  constructor; [done|]. apply Forall_fmap. eapply Forall_impl; [exact Hx|]. done.
Qed.

Lemma sorted_indices_lt (l : list entry) :
  StronglySorted index_le l → NoDup l.*1 → StronglySorted lt l.*1.
Proof.
  induction 1 as [|x l Hl IH Hx]; intros Hnd; [constructor|].
  rewrite fmap_cons in *. apply NoDup_cons in Hnd as [Hni Hnd].
  constructor; [by apply IH|]. apply Forall_fmap, Forall_forall. intros y Hy. simpl.
  rewrite Forall_forall in Hx. specialize (Hx y Hy). unfold index_le in Hx.
  assert (x.1 ≠ y.1); [|lia].
  intros E. apply Hni. rewrite E. by apply list_elem_of_fmap_2.
Qed.

Lemma matrix_row_subset m r e : e ∈ matrix_row m r → e ∈ mx_ents m.
Proof.
  unfold matrix_row. intros H.
  apply list_elem_of_lookup in H as [k Hk].
  apply lookup_take_Some in Hk as [Hk _]. rewrite lookup_drop in Hk.
  apply list_elem_of_lookup. eauto.
Qed.

Lemma NoDup_internal_row c m r :
  core_indexed c → Forall (λ e, e.1 < Core.ncol_ c) (mx_ents m) →
  NoDup (matrix_row m r).*1 →
  NoDup (internal_entry c <$> matrix_row m r).*1.
Proof.
  intros [Hcols _] Hin Hnd.
  assert ((internal_entry c <$> matrix_row m r).*1
          = (λ i, Core.colEx2In_ c !!! i) <$> (matrix_row m r).*1) as ->.
  { rewrite <- !list_fmap_compose. by apply list_fmap_ext. }
  apply NoDup_fmap_2_strong; [|done].
  intros a b Ha Hb E.
  assert (∀ x, x ∈ (matrix_row m r).*1 → x < Core.ncol_ c) as Hlt.
  { intros x Hx. apply list_elem_of_fmap in Hx as (e & -> & He).
    rewrite Forall_forall in Hin. apply Hin. by eapply matrix_row_subset. }
  apply (ix_ex2in_inj _ _ _ _ _ _ _ Hcols); auto.
Qed.

(** The rows of a core node of a constructed core. *)
Lemma built_core_node_rows
    (nrow ncol nstag : nat) (cstag rstag : list nat) (matrix : option CoinPackedMatrix)
    (dclo dcup dobj drlo drup : option CoinPackedVector)
    (ints : list nat) (il : nat) (bins : list nat) (bl : nat) (t : nat) :
  length cstag = ncol → length rstag = nrow →
  Forall (λ s, s < nstag) cstag → Forall (λ s, s < nstag) rstag →
  t < nstag → matrix_ok matrix nrow →
  let core := gutsOfConstructor nrow ncol nstag cstag rstag matrix dclo dcup dobj drlo drup
                                ints il bins bl in
  ∃ cn, Core.nodes_ core !! t = Some cn ∧ Node.isCoreNode_ cn = true ∧
    Node.dRowMap cn = ∅ ∧
    ∀ i, i < getNumRows core t →
      getRow cn (getRowStart core t + i)
      = sortIncrIndex
          (internal_entry core
             <$> from_option
                   (λ m, matrix_row m (getRowExternalIndex core (getRowStart core t + i)))
                   [] matrix).
Proof.
  intros Hlc Hlr Hc Hr Ht Hok core.
  set (c0 := core_maps nrow ncol nstag cstag rstag ints il bins bl).
  assert (Hix0 : core_indexed c0).
  { apply core_maps_indexed; try done; eapply Forall_impl; try eassumption; simpl; lia. }
  pose proof (built_maps nrow ncol nstag cstag rstag matrix
                dclo dcup dobj drlo drup ints il bins bl) as Hm.
  fold c0 in Hm. change (gutsOfConstructor _ _ _ _ _ _ _ _ _ _ _ _ _ _ _) with core in Hm.
  destruct (getters_same_maps _ _ Hm) as (_ & Gnr & _ & Grs & _ & _ & Gin & _ & _ & Gex & _).
  destruct (core_node_laid_out c0 t matrix dclo dcup dobj drlo drup Hix0 Ht Hok)
    as (Hlo & Hcore & _ & Hrb & Hnrow & Hhas).
  eexists. split.
  { apply (built_node nrow ncol nstag cstag rstag matrix dclo dcup dobj drlo drup
             ints il bins bl t Ht). }
  fold c0. split; [done|]. split.
  { unfold core_node.
    by destruct (sort_rows_fields
                   (setCoreNode (SmiNodeData_new t c0 matrix dclo dcup dobj drlo drup))
                   (getRowStart c0 t) (getNumRows c0 t)) as (_ & _ & _ & _ & _ & ->). }
  set (cn := core_node matrix dclo dcup dobj drlo drup c0 t) in *.
  intros i Hi. rewrite Gnr in Hi. rewrite Grs.
  destruct (has_elements matrix) eqn:Hel.
  - assert (Hlen : i < length (sortIncrIndex <$> node_rows c0 t matrix)).
    { rewrite (lo_rows _ _ _ Hlo), Hhas, Hnrow. done. }
    pose proof (laid_out_getRow _ _ _ Hlo i Hlen) as Hg. rewrite Hrb in Hg. rewrite Hg.
    clear Hg. unfold node_rows in *. destruct matrix as [m|]; [|done]. rewrite Hel in *.
    rewrite length_fmap in Hlen.
    erewrite list_lookup_total_correct;
      [|rewrite list_lookup_fmap; erewrite list_lookup_lookup_total_lt by done; done].
    rewrite stage_rows_lookup by done. simpl.
    rewrite Gex. f_equal. apply list_fmap_ext. intros k e _.
    unfold internal_entry. by rewrite Gin.
  - unfold getRow. rewrite Hhas.
    destruct matrix as [m|]; [|done]. simpl.
    unfold has_elements in Hel. apply bool_decide_eq_false in Hel.
    unfold matrix_row. rewrite (sum_list_zero (mx_len m)); [done|].
    unfold getNumElements in Hel. lia.
Qed.

(** C7, as the code has it.  The rows are put in order by
    [SmiCoreData::gutsOfConstructor], on the node it has just built: in
    every core node of a constructed core each stored row is the input
    row of its external index with the column indices internal, sorted by
    increasing index; strictly when the input row names no column twice.
    The node constructor itself stores a row in the order of its input
    (C2). *)
Theorem core_node_rows_sorted
    (nrow ncol nstag : nat) (cstag rstag : list nat) (matrix : option CoinPackedMatrix)
    (dclo dcup dobj drlo drup : option CoinPackedVector)
    (ints : list nat) (il : nat) (bins : list nat) (bl : nat) (t : nat) :
  length cstag = ncol → length rstag = nrow →
  Forall (λ s, s < nstag) cstag → Forall (λ s, s < nstag) rstag →
  t < nstag → matrix_ok matrix nrow →
  from_option (λ m, Forall (λ e, e.1 < ncol) (mx_ents m)) True matrix →
  let core := gutsOfConstructor nrow ncol nstag cstag rstag matrix dclo dcup dobj drlo drup
                                ints il bins bl in
  ∃ cn, Core.nodes_ core !! t = Some cn ∧ Node.isCoreNode_ cn = true ∧
    ∀ i, i < getNumRows core t →
      let input := from_option
                     (λ m, matrix_row m (getRowExternalIndex core (getRowStart core t + i)))
                     [] matrix in
      getRow cn (getRowStart core t + i) ≡ₚ internal_entry core <$> input ∧
      StronglySorted le (getRow cn (getRowStart core t + i)).*1 ∧
      (NoDup input.*1 → StronglySorted lt (getRow cn (getRowStart core t + i)).*1).
Proof.
  intros Hlc Hlr Hc Hr Ht Hok Hcolin core.
  destruct (built_core_node_rows nrow ncol nstag cstag rstag matrix dclo dcup dobj drlo drup
              ints il bins bl t Hlc Hlr Hc Hr Ht Hok) as (cn & Hcn & Hcore & _ & Hrows).
  fold core in Hcn, Hrows.
  exists cn. split; [done|]. split; [done|]. intros i Hi input.
  rewrite (Hrows i Hi). fold input.
  split; [apply sortIncrIndex_Permutation|].
  split; [apply sorted_indices_le, sortIncrIndex_sorted|].
  intros Hnd. apply sorted_indices_lt; [apply sortIncrIndex_sorted|].
  rewrite (sortIncrIndex_Permutation (internal_entry core <$> input)).
  subst input. destruct matrix as [m|]; [|constructor]. simpl in *.
  pose proof (scenario_core_indexed nrow ncol nstag cstag rstag (Some m)
                dclo dcup dobj drlo drup ints il bins bl Hlc Hlr Hc Hr) as Hix.
  destruct (scenario_core_dims nrow ncol nstag cstag rstag (Some m)
              dclo dcup dobj drlo drup ints il bins bl) as (_ & Hnc & _).
  fold core in Hix, Hnc.
  apply NoDup_internal_row; [done|by rewrite Hnc|done].
Qed.

Lemma core_node_rows_sorted_witness :
  let core := gutsOfConstructor 2 3 2 [1; 0; 1] [1; 0] (Some (osi_matrix example_osi))
                                None None None None None [] 0 [] 0 in
  ∃ cn, Core.nodes_ core !! 0 = Some cn ∧ Node.isCoreNode_ cn = true ∧
    ∀ i, i < getNumRows core 0 →
      let input := from_option
                     (λ m, matrix_row m (getRowExternalIndex core (getRowStart core 0 + i)))
                     [] (Some (osi_matrix example_osi)) in
      getRow cn (getRowStart core 0 + i) ≡ₚ internal_entry core <$> input ∧
      StronglySorted le (getRow cn (getRowStart core 0 + i)).*1 ∧
      (NoDup input.*1 → StronglySorted lt (getRow cn (getRowStart core 0 + i)).*1).
Proof.
  apply (core_node_rows_sorted 2 3 2 [1; 0; 1] [1; 0] (Some (osi_matrix example_osi))
           None None None None None [] 0 [] 0 0 eq_refl eq_refl);
    [repeat constructor | repeat constructor | repeat constructor
    | split; [reflexivity | repeat (constructor; [vm_compute; lia|]); constructor]
    | repeat (constructor; [vm_compute; lia|]); constructor].
Defined.

(** ** C6: dense rows *)

Lemma CoinFillN_all {A} (dst : list A) n v : length dst = n → CoinFillN dst n v = replicate n v.
Proof. intros H. unfold CoinFillN. rewrite drop_ge by lia. apply app_nil_r. Qed.

Lemma getDenseRow_value core fresh nd i :
  length fresh = getNumColsTotal core →
  (∀ dv, Node.dRowMap nd !! i = Some dv → length dv = getNumColsTotal core) →
  (getDenseRow core fresh nd i).1
  = scatter (replicate (getNumColsTotal core) 0%float) (getRow nd i).
Proof.
  intros Hf Hm. unfold getDenseRow. cbn [fst]. f_equal. apply CoinFillN_all.
  destruct (Node.dRowMap nd !! i) as [dv|] eqn:E; [by apply Hm|].
  rewrite length_take. lia.
Qed.

Lemma getDenseRow_correct core fresh nd irow :
  length fresh = getNumColsTotal core →
  (∀ dv, Node.dRowMap nd !! irow = Some dv → length dv = getNumColsTotal core) →
  Forall (λ e, e.1 < getNumColsTotal core) (getRow nd irow) →
  dense_row_correct core fresh nd irow.
Proof.
  intros Hf Hm Hin. unfold dense_row_correct. cbv zeta.
  rewrite (getDenseRow_value _ _ _ _ Hf Hm).
  set (n := getNumColsTotal core) in *. set (row := getRow nd irow) in *.
  assert (Hlen : length (scatter (replicate n 0%float) row) = n)
    by (by rewrite length_scatter, length_replicate).
  split; [done|]. split.
  { unfold getDenseRow. cbn [snd set_dRowMap Node.dRowMap].
    rewrite lookup_insert_eq. f_equal. fold n row. f_equal. apply CoinFillN_all.
    destruct (Node.dRowMap nd !! irow) as [dv|] eqn:E; [by apply Hm|].
    rewrite length_take. lia. }
  split; [|split; [|split]].
  - intros Hnd k v Hkv.
    assert (Hk : k < n).
    { rewrite Forall_forall in Hin. apply (Hin (k, v) Hkv). }
    rewrite (list_lookup_lookup_total_lt _ k) by lia. f_equal.
    rewrite scatter_lookup_total by (rewrite length_replicate; lia).
    rewrite (sparse_get_NoDup (reverse row) k v); [done| |by apply elem_of_reverse].
    rewrite fmap_reverse. by rewrite reverse_Permutation.
  - intros k Hk Hni.
    rewrite (list_lookup_lookup_total_lt _ k) by lia. f_equal.
    rewrite scatter_lookup_total by (rewrite length_replicate; lia).
    assert (sparse_get (reverse row) k = None) as ->.
    { apply sparse_get_None. rewrite fmap_reverse. by rewrite elem_of_reverse. }
    simpl. apply lookup_total_replicate_2. lia.
  - intros fresh' Hf'. rewrite getDenseRow_value; [done|done|].
    unfold getDenseRow. cbn [snd set_dRowMap Node.dRowMap]. intros dv.
    rewrite lookup_insert_eq. intros [= <-].
    rewrite length_scatter. unfold CoinFillN.
    rewrite length_app, length_replicate, length_drop.
    destruct (Node.dRowMap nd !! irow) as [dv|] eqn:E.
    + specialize (Hm dv eq_refl). fold n in Hm. lia.
    + rewrite length_take. fold n. lia.
  - intros fresh' junk Hf' Hj. rewrite getDenseRow_value; [done|done|].
    cbn [set_dRowMap Node.dRowMap]. intros dv. rewrite lookup_insert_eq.
    intros [= <-]. done.
Qed.

Lemma internal_row_in_range c (input : list entry) (m : CoinPackedMatrix) :
  core_indexed c → Forall (λ e, e.1 < Core.ncol_ c) (mx_ents m) →
  (∀ e, e ∈ input → e ∈ mx_ents m) →
  Forall (λ e, e.1 < Core.ncol_ c) (internal_entry c <$> input).
Proof.
  intros [Hcols _] Hin Hsub. apply Forall_fmap, Forall_forall. intros e He. simpl.
  unfold getColInternalIndex. apply (ix_ex2in_lt _ _ _ _ _ _ _ Hcols).
  rewrite Forall_forall in Hin. by apply Hin, Hsub.
Qed.

Lemma internal_input_in_range c (matrix : option CoinPackedMatrix) r :
  core_indexed c →
  from_option (λ m, Forall (λ e, e.1 < Core.ncol_ c) (mx_ents m)) True matrix →
  Forall (λ e, e.1 < Core.ncol_ c)
         (internal_entry c <$> from_option (λ m, matrix_row m r) [] matrix).
Proof.
  intros Hix Hin. destruct matrix as [m|]; simpl in *; [|constructor].
  apply (internal_row_in_range c _ m); try done. intros e. apply matrix_row_subset.
Qed.

(** The stage blocks together are all the columns. *)
Lemma stage_counts_sum nstag n stage ex2in in2ex ptr cnt :
  indexed nstag n stage ex2in in2ex ptr cnt → Forall (λ s, s < nstag) stage →
  sum_list ((λ t, cnt !!! t) <$> seq 0 nstag) = n.
Proof.
  intros ix Hlt.
  assert (∀ k, k ≤ nstag → sum_list ((λ t, cnt !!! t) <$> seq 0 k) = ptr !!! k) as H.
  { induction k as [|k IH]; intros Hk.
    - simpl. rewrite (ix_ptr _ _ _ _ _ _ _ ix) by lia. by rewrite below_0.
    - rewrite seq_S, fmap_app, sum_list_with_app, IH by lia. simpl.
      rewrite (ix_ptr_S _ _ _ _ _ _ _ ix) by lia. lia. }
  rewrite H by done. rewrite (ix_ptr _ _ _ _ _ _ _ ix) by done.
  rewrite <- (ix_len _ _ _ _ _ _ _ ix). by apply below_all.
Qed.

(** C6.  On a node the constructor built over a constructed core, and on
    a core node of that core, for a row [i] of the node's stage:
    [getDenseRow] returns an array of [getNumCols()] entries, the number
    of columns of the core, which is the sum of the column counts of the
    stages and the range of the internal column indices; the array holds
    the value of every entry of the row at the entry's internal column
    index (the row naming no column twice) and zero at every index the
    row does not name; the array is the node's buffer for the row; and a
    second call returns an equal array, whatever memory a new buffer
    would be given and whatever was written into the buffer in between. *)
Theorem getDenseRow_scatters_row
    (nrow ncol nstag : nat) (cstag rstag : list nat) (matrix0 : option CoinPackedMatrix)
    (dclo0 dcup0 dobj0 drlo0 drup0 : option CoinPackedVector)
    (ints : list nat) (il : nat) (bins : list nat) (bl : nat)
    (t : nat) (matrix : option CoinPackedMatrix)
    (dclo dcup dobj drlo drup : option CoinPackedVector) (i : nat) (fresh : list double) :
  length cstag = ncol → length rstag = nrow →
  Forall (λ s, s < nstag) cstag → Forall (λ s, s < nstag) rstag →
  t < nstag → matrix_ok matrix0 nrow → matrix_ok matrix nrow →
  from_option (λ m, Forall (λ e, e.1 < ncol) (mx_ents m)) True matrix0 →
  from_option (λ m, Forall (λ e, e.1 < ncol) (mx_ents m)) True matrix →
  length fresh = ncol →
  let core := gutsOfConstructor nrow ncol nstag cstag rstag matrix0
                                dclo0 dcup0 dobj0 drlo0 drup0 ints il bins bl in
  let node := SmiNodeData_new t core matrix dclo dcup dobj drlo drup in
  i < getNumRows core t →
  getNumColsTotal core = ncol ∧
  getNumColsTotal core = sum_list (getNumCols core <$> seq 0 nstag) ∧
  dense_row_correct core fresh node (getRowStart core t + i) ∧
  ∃ cn, Core.nodes_ core !! t = Some cn ∧
        dense_row_correct core fresh cn (getRowStart core t + i).
Proof.
  intros Hlc Hlr Hc Hr Ht Hok0 Hok Hin0 Hin Hf core node Hi.
  pose proof (scenario_core_indexed nrow ncol nstag cstag rstag matrix0
                dclo0 dcup0 dobj0 drlo0 drup0 ints il bins bl Hlc Hlr Hc Hr) as Hix.
  destruct (scenario_core_dims nrow ncol nstag cstag rstag matrix0
              dclo0 dcup0 dobj0 drlo0 drup0 ints il bins bl) as (_ & Hnc & _).
  fold core in Hix, Hnc.
  assert (Hn : getNumColsTotal core = ncol) by done.
  split; [done|]. split.
  { rewrite Hn. symmetry. destruct Hix as [Hcols _].
    destruct (built_dims nrow ncol nstag cstag rstag matrix0 dclo0 dcup0 dobj0 drlo0 drup0
                ints il bins bl) as (Hns & _ & _ & Hcs & _).
    fold core in Hns, Hcs. rewrite Hns, Hnc in Hcols.
    apply (stage_counts_sum _ _ _ _ _ _ _ Hcols).
    rewrite Hcs, firstn_all2 by lia. done. }
  split.
  - apply getDenseRow_correct; [by rewrite Hn|done|].
    pose proof (constructed_node_row nrow ncol nstag cstag rstag matrix0
                  dclo0 dcup0 dobj0 drlo0 drup0 ints il bins bl t matrix
                  dclo dcup dobj drlo drup i Hlc Hlr Hc Hr Ht Hok Hi) as Hrow.
    cbv zeta in Hrow. fold core in Hrow. fold node in Hrow. rewrite Hrow.
    unfold getNumColsTotal. apply internal_input_in_range; [done|by rewrite Hnc].
  - destruct (built_core_node_rows nrow ncol nstag cstag rstag matrix0
                dclo0 dcup0 dobj0 drlo0 drup0 ints il bins bl t Hlc Hlr Hc Hr Ht Hok0)
      as (cn & Hcn & _ & Hmap & Hrows).
    fold core in Hcn, Hrows. exists cn. split; [done|].
    apply getDenseRow_correct; [by rewrite Hn|by rewrite Hmap|].
    rewrite (Hrows i Hi), sortIncrIndex_Permutation.
    unfold getNumColsTotal. apply internal_input_in_range; [done|by rewrite Hnc].
Qed.

Lemma getDenseRow_witness :
  let core := gutsOfConstructor 2 3 2 [1; 0; 1] [1; 0] (Some (osi_matrix example_osi))
                                None None None None None [] 0 [] 0 in
  let node := SmiNodeData_new 0 core
                (Some (PackedMatrix [(0, 1%float); (1, 2%float)] [0; 2] [0; 0]))
                None None None None None in
  (getNumColsTotal core = 3 ∧
   getNumColsTotal core = sum_list (getNumCols core <$> seq 0 2) ∧
   dense_row_correct core [9; 9; 9]%float node (getRowStart core 0 + 0) ∧
   ∃ cn, Core.nodes_ core !! 0 = Some cn ∧
         dense_row_correct core [9; 9; 9]%float cn (getRowStart core 0 + 0)) ∧
  (getDenseRow core [9; 9; 9]%float node 0).1 = [2; 1; 0]%float.
Proof.
  split; [|reflexivity].
  apply (getDenseRow_scatters_row 2 3 2 [1; 0; 1] [1; 0] (Some (osi_matrix example_osi))
           None None None None None [] 0 [] 0 0
           (Some (PackedMatrix [(0, 1%float); (1, 2%float)] [0; 2] [0; 0]))
           None None None None None 0 [9; 9; 9]%float eq_refl eq_refl);
    [repeat constructor | repeat constructor | repeat constructor
    | split; [reflexivity | repeat (constructor; [vm_compute; lia|]); constructor]
    | split; [reflexivity | repeat (constructor; [vm_compute; lia|]); constructor]
    | repeat (constructor; [vm_compute; lia|]); constructor
    | repeat (constructor; [vm_compute; lia|]); constructor
    | reflexivity
    | vm_compute; lia].
Defined.

(** ** C8: what construction checks *)

(** C8 does not hold: with one stage, a column labelled 1 is accepted and
    the object returned is complete and readable; so is a label array
    longer than the number of columns. *)
Lemma label_out_of_range_accepted :
  ¬ Forall (λ s, s < 1) [0; 1] ∧
  (∃ core, SmiCoreData_construct small_osi 1 [0; 1] [0] [] 0 [] 0 = returned core ∧
           Core.colEx2In_ core = [0; 1] ∧ Core.colIn2Ex_ core = [0; 1] ∧
           Core.stageColPtr_ core = [0; 1] ∧ Core.nColInStage_ core = [1; 1] ∧
           length (Core.nodes_ core) = 1 ∧
           SmiCoreData_copyColLower core [0]%float 0 = [2]%float) ∧
  (∃ core, SmiCoreData_construct small_osi 1 [0; 0; 0] [0] [] 0 [] 0 = returned core ∧
           Core.colStage_ core = [0; 0]) ∧
  ¬ validates_arguments.
Proof.
  assert (Hbad : ¬ Forall (λ s, s < 1) [0; 1]).
  { intros H. apply Forall_cons in H as [_ H]. apply Forall_cons in H as [H _]. lia. }
  split; [exact Hbad|]. split; [|split].
  - eexists. split; [reflexivity|]. repeat split.
  - eexists. split; [reflexivity|]. reflexivity.
  - intros H. specialize (H small_osi 1 [0; 1] [0] [] 0 [] 0 (or_introl Hbad)).
    discriminate H.
Qed.

Lemma below_search (l : list nat) k i :
  i < below k l → ∃ t, t < k ∧ below t l ≤ i < below (S t) l.
Proof.
  induction k as [|k IH]; intros Hi; [rewrite below_0 in Hi; lia|].
  destruct (decide (i < below k l)) as [Hlt|Hge].
  - destruct (IH Hlt) as (t & Ht & Hb). exists t. split; [lia|done].
  - exists k. split; [lia|]. lia.
Qed.

(** With labels up to [nstag] the maps are still a bijection. *)
Lemma indexed_bijection nstag n stage ex2in in2ex ptr cnt i :
  indexed nstag n stage ex2in in2ex ptr cnt → i < n →
  in2ex !!! i < n ∧ ex2in !!! (in2ex !!! i) = i.
Proof.
  intros ix Hi. pose proof (ix_len _ _ _ _ _ _ _ ix) as Hlen.
  assert (Hall : below (S nstag) stage = n).
  { rewrite <- Hlen. apply below_all.
    eapply Forall_impl; [apply (ix_labels _ _ _ _ _ _ _ ix)|]. simpl. lia. }
  destruct (below_search stage (S nstag) i ltac:(lia)) as (t & Ht & Hb).
  destruct (rank_onto stage t i Hb) as (c & Hc & Hr).
  assert (c < n) by (rewrite <- Hlen; by eapply lookup_lt_Some).
  subst i. rewrite (ix_in2ex _ _ _ _ _ _ _ ix) by done.
  by rewrite (ix_ex2in _ _ _ _ _ _ _ ix).
Qed.

Lemma core_maps_indexed_take nrow ncol nstag cstag rstag ints il bins bl :
  ncol ≤ length cstag → nrow ≤ length rstag →
  Forall (λ s, s ≤ nstag) (take ncol cstag) → Forall (λ s, s ≤ nstag) (take nrow rstag) →
  core_indexed (core_maps nrow ncol nstag cstag rstag ints il bins bl).
Proof.
  intros Hlc Hlr Hc Hr. unfold core_maps.
  assert (length (take ncol cstag) = ncol) as Hc' by (rewrite length_take; lia).
  assert (length (take nrow rstag) = nrow) as Hr' by (rewrite length_take; lia).
  split.
  - pose proof (build_stage_maps_indexed nstag (take ncol cstag) Hc) as H.
    cbv zeta in H. rewrite Hc' in H. exact H.
  - pose proof (build_stage_maps_indexed nstag (take nrow rstag) Hr) as H.
    cbv zeta in H. rewrite Hr' in H. exact H.
Qed.

(** C8, as the code has it.  Construction tests none of its arguments;
    what it needs is the caller's to provide: at least one stage, a
    stage label in [[0, nstag)] for each of the [ncol] columns and [nrow]
    rows, integer and binary index arrays of the lengths given, integer
    indices that name columns, and a solver whose arrays have [nrow] and
    [ncol] entries and whose matrix has [nrow] rows over the [ncol]
    columns.  On such arguments it returns a complete object: one
    core node per stage, in the order of the stages, and index maps that
    are inverse bijections of the rows and of the columns. *)
Theorem construction_completes_on_valid_arguments
    (osi : OsiSolverInterface) (nstag : nat) (cstag rstag : list nat)
    (ints : list nat) (il : nat) (bins : list nat) (bl : nat) :
  0 < nstag →
  osi_ncol osi ≤ length cstag → osi_nrow osi ≤ length rstag →
  Forall (λ s, s < nstag) (take (osi_ncol osi) cstag) →
  Forall (λ s, s < nstag) (take (osi_nrow osi) rstag) →
  il ≤ length ints → Forall (λ c, c < osi_ncol osi) (take il ints) →
  bl ≤ length bins →
  matrix_fits (osi_matrix osi) (osi_nrow osi) →
  Forall (λ e, e.1 < osi_ncol osi) (mx_ents (osi_matrix osi)) →
  length (osi_rowLower osi) = osi_nrow osi → length (osi_rowUpper osi) = osi_nrow osi →
  length (osi_colLower osi) = osi_ncol osi → length (osi_colUpper osi) = osi_ncol osi →
  length (osi_obj osi) = osi_ncol osi →
  ∃ core,
    SmiCoreData_construct osi nstag cstag rstag ints il bins bl = returned core ∧
    length (Core.nodes_ core) = nstag ∧
    (∀ t, t < nstag →
       ∃ cn, Core.nodes_ core !! t = Some cn ∧
             Node.isCoreNode_ cn = true ∧ Node.stg_ cn = t) ∧
    (∀ c, c < osi_ncol osi →
       getColInternalIndex core c < osi_ncol osi ∧
       getColExternalIndex core (getColInternalIndex core c) = c) ∧
    (∀ i, i < osi_ncol osi →
       getColExternalIndex core i < osi_ncol osi ∧
       getColInternalIndex core (getColExternalIndex core i) = i) ∧
    (∀ r, r < osi_nrow osi →
       getRowInternalIndex core r < osi_nrow osi ∧
       getRowExternalIndex core (getRowInternalIndex core r) = r) ∧
    (∀ i, i < osi_nrow osi →
       getRowExternalIndex core i < osi_nrow osi ∧
       getRowInternalIndex core (getRowExternalIndex core i) = i).
Proof.
  intros _ Hlc Hlr Hc Hr _ _ _ _ _ _ _ _ _ _.
  eexists. split; [reflexivity|]. unfold SmiCoreData_new.
  set (nrow := osi_nrow osi) in *. set (ncol := osi_ncol osi) in *.
  set (core := gutsOfConstructor _ _ _ _ _ _ _ _ _ _ _ _ _ _ _).
  assert (Hle : ∀ l : list nat, Forall (λ s, s < nstag) l → Forall (λ s, s ≤ nstag) l)
    by (intros l Hl; eapply Forall_impl; [exact Hl|simpl; lia]).
  pose proof (core_maps_indexed_take nrow ncol nstag cstag rstag ints il bins bl
                Hlc Hlr (Hle _ Hc) (Hle _ Hr)) as Hix0.
  pose proof (built_maps nrow ncol nstag cstag rstag (Some (osi_matrix osi))
                (Some (CoinPackedVector_full ncol (osi_colLower osi)))
                (Some (CoinPackedVector_full ncol (osi_colUpper osi)))
                (Some (CoinPackedVector_full ncol (osi_obj osi)))
                (Some (CoinPackedVector_full nrow (osi_rowLower osi)))
                (Some (CoinPackedVector_full nrow (osi_rowUpper osi)))
                ints il bins bl) as Hm.
  fold core in Hm. pose proof (core_indexed_same_maps _ _ Hm Hix0) as [Hcols Hrows].
  assert (Core.nstag_ core = nstag ∧ Core.ncol_ core = ncol ∧ Core.nrow_ core = nrow)
    as (Hn & Hnc & Hnr).
  { unfold maps_of in Hm. injection Hm. intros. repeat split; by etrans. }
  rewrite Hn, Hnc in Hcols. rewrite Hn, Hnr in Hrows.
  split; [apply built_nodes_length|].
  split; [intros t Ht; by apply built_core_node|].
  unfold getColInternalIndex, getColExternalIndex, getRowInternalIndex, getRowExternalIndex.
  split; [|split; [|split]].
  - intros c Hlt. split; [by apply (ix_ex2in_lt _ _ _ _ _ _ _ Hcols)|].
    by apply (ix_in2ex_ex2in _ _ _ _ _ _ _ Hcols).
  - intros i Hlt. by apply (indexed_bijection _ _ _ _ _ _ _ _ Hcols).
  - intros r Hlt. split; [by apply (ix_ex2in_lt _ _ _ _ _ _ _ Hrows)|].
    by apply (ix_in2ex_ex2in _ _ _ _ _ _ _ Hrows).
  - intros i Hlt. by apply (indexed_bijection _ _ _ _ _ _ _ _ Hrows).
Qed.

Lemma construction_completes_witness :
  ∃ core,
    SmiCoreData_construct small_osi 1 [0; 0] [0] [1] 1 [] 0 = returned core ∧
    length (Core.nodes_ core) = 1 ∧
    (∀ t, t < 1 →
       ∃ cn, Core.nodes_ core !! t = Some cn ∧
             Node.isCoreNode_ cn = true ∧ Node.stg_ cn = t) ∧
    (∀ c, c < osi_ncol small_osi →
       getColInternalIndex core c < osi_ncol small_osi ∧
       getColExternalIndex core (getColInternalIndex core c) = c) ∧
    (∀ i, i < osi_ncol small_osi →
       getColExternalIndex core i < osi_ncol small_osi ∧
       getColInternalIndex core (getColExternalIndex core i) = i) ∧
    (∀ r, r < osi_nrow small_osi →
       getRowInternalIndex core r < osi_nrow small_osi ∧
       getRowExternalIndex core (getRowInternalIndex core r) = r) ∧
    (∀ i, i < osi_nrow small_osi →
       getRowExternalIndex core i < osi_nrow small_osi ∧
       getRowInternalIndex core (getRowExternalIndex core i) = i).
Proof.
  apply (construction_completes_on_valid_arguments small_osi 1 [0; 0] [0] [1] 1 [] 0);
    [lia | vm_compute; lia | vm_compute; lia
    | repeat (constructor; [vm_compute; lia|]); constructor
    | repeat (constructor; [vm_compute; lia|]); constructor
    | vm_compute; lia
    | repeat (constructor; [vm_compute; lia|]); constructor
    | vm_compute; lia
    | split; [reflexivity | repeat (constructor; [vm_compute; lia|]); constructor]
    | repeat (constructor; [vm_compute; lia|]); constructor
    | reflexivity | reflexivity | reflexivity | reflexivity | reflexivity].
Defined.

(** ** C9: cross-stage quadratic terms *)

Lemma for_each_thrown {S : Type} (Inv : S → Prop) (bad : nat → Prop)
    (body : S → nat → S * option error_kind) (s : S) (l : list nat) :
  (∀ s i, Inv s → i ∈ l → Inv (body s i).1 ∧ (is_Some (body s i).2 ↔ bad i)) →
  Inv s →
  Inv (for_each body s l).1 ∧ (is_Some (for_each body s l).2 ↔ Exists bad l).
Proof.
  revert s. induction l as [|i l IH]; intros s Hbody Hs.
  - simpl. split; [done|]. split; [by intros [? ?]|by intros ?%Exists_nil].
  - simpl. destruct (Hbody s i Hs ltac:(left)) as [Hi Hbad].
    destruct (body s i) as [s' [e|]] eqn:E; simpl in *.
    + split; [done|]. split; [intros _; left; by apply Hbad|eauto].
    + destruct (IH s') as [Hinv Hex]; [|done|].
      { intros s0 k Hs0 Hk. apply Hbody; [done|by right]. }
      split; [done|]. rewrite Hex, Exists_cons.
      split; [by right|]. intros [Hb|Ht]; [|done].
      apply Hbad in Hb. by destruct Hb.
Qed.

Lemma copy_column_thrown core stg strts ind els nqstarts st j :
  is_Some (copy_column core stg strts ind els nqstarts st j).2
  ↔ bad_column core strts ind stg j.
Proof.
  unfold copy_column, bad_column. case_decide as Hs.
  - destruct (for_each_thrown (λ _, True)
                (λ jj, getColStage core (ind !!! jj) ≠ stg)
                (copy_term core stg ind els nqstarts (getColInternalIndex core j))
                (QFill (q_indx st) (q_dels st) 0)
                (seq (strts !!! j) (strts !!! S j - strts !!! j))) as [_ H]; [|done|].
    { intros s jj _ _. split; [done|]. unfold copy_term. case_decide; simpl.
      - split; [done|eauto].
      - split; [by intros [? ?]|done]. }
    rewrite H, Exists_exists. split.
    + intros (jj & Hjj & Hb). apply elem_of_seq in Hjj. split; [done|].
      exists jj. split; [lia|done].
    + intros (_ & jj & Hjj & Hb). exists jj. split; [|done]. apply elem_of_seq. lia.
  - simpl. split; [by intros [? ?]|]. by intros [? _].
Qed.

Section QStarts.
Variables (core : Core.t) (stg ncols : nat) (strts : list nat).
Hypotheses (ex2in_inj : ∀ a b, a < ncols → b < ncols →
                               getColInternalIndex core a = getColInternalIndex core b → a = b)
           (ex2in_lt : ∀ a, a < ncols → getColInternalIndex core a < ncols).

Let size (a : list nat) (j : nat) : list nat :=
  if decide (getColStage core j = stg)
  then <[S (getColInternalIndex core j) := strts !!! S j - strts !!! j]> a
  else a.

Lemma sized_inv (a0 : list nat) k :
  length a0 = S ncols → k ≤ ncols →
  let a := foldl size a0 (seq 0 k) in
  length a = S ncols ∧
  ∀ j, j < k → getColStage core j = stg →
       a !!! S (getColInternalIndex core j) = strts !!! S j - strts !!! j.
Proof.
  intros Hlen Hk. cbv zeta. induction k as [|k IH]; [split; [done|lia]|].
  destruct IH as [Hl Hj]; [lia|]. rewrite foldl_seq_S.
  set (a := foldl size a0 (seq 0 k)) in *. unfold size.
  case_decide as Hs.
  - split; [by rewrite length_insert|]. intros j Hjk Hjs.
    pose proof (ex2in_lt k ltac:(lia)). pose proof (ex2in_lt j ltac:(lia)).
    rewrite lookup_total_assign by lia. case_decide as E.
    + assert (k = j) as -> by (apply ex2in_inj; lia). done.
    + apply Hj; [|done]. destruct (decide (j = k)) as [->|]; [done|lia].
  - split; [done|]. intros j Hjk Hjs. apply Hj; [|done].
    destruct (decide (j = k)) as [->|]; [done|lia].
Qed.

Lemma summed_inv (a0 : list nat) k :
  length a0 = S ncols → k ≤ ncols →
  let a := foldl (λ a j, <[S j := a !!! S j + a !!! j]> a) a0 (seq 0 k) in
  length a = S ncols ∧ (∀ m, k < m → a !!! m = a0 !!! m) ∧
  (∀ m, 1 ≤ m ≤ k → a0 !!! m ≤ a !!! k).
Proof.
  intros Hlen Hk. cbv zeta. induction k as [|k IH]; [repeat split; [done|lia]|].
  destruct IH as (Hl & Hgt & Hle); [lia|]. rewrite foldl_seq_S.
  set (a := foldl _ a0 (seq 0 k)) in *.
  split; [by rewrite length_insert|]. split.
  - intros m Hm. rewrite list_lookup_total_insert_ne by lia. apply Hgt. lia.
  - intros m Hm. rewrite list_lookup_total_insert_eq by lia.
    rewrite (Hgt (S k)) by lia.
    destruct (decide (m = S k)) as [->|]; [lia|].
    specialize (Hle m ltac:(lia)). lia.
Qed.

(** A column of the stage that has a term makes the node's copy count
    at least one element. *)
Lemma node_qstarts_pos j :
  j < ncols → getColStage core j = stg → strts !!! j < strts !!! S j →
  0 < node_qstarts core stg strts ncols (replicate (S ncols) 0) !!! ncols.
Proof.
  intros Hj Hs Hterm. unfold node_qstarts. fold size.
  destruct (sized_inv (<[0 := 0]> (replicate (S ncols) 0)) ncols) as [Hl Hsz];
    [by rewrite length_insert, length_replicate|done|]. cbv zeta in *.
  destruct (summed_inv (foldl size (<[0 := 0]> (replicate (S ncols) 0)) (seq 0 ncols)) ncols)
    as (_ & _ & Hle); [done|done|]. cbv zeta in Hle.
  pose proof (ex2in_lt j Hj).
  specialize (Hle (S (getColInternalIndex core j)) ltac:(lia)).
  rewrite (Hsz j Hj Hs) in Hle. lia.
Qed.
End QStarts.

Lemma node_addQuadratic_spec stg c sq nd :
  core_indexed c →
  let r := SmiNodeData_addQuadraticObjective stg c sq nd in
  node_linear r.1 = node_linear nd ∧
  (is_thrown r.2 ↔ ∃ j, j < getNumColsTotal c ∧
                        bad_column c (qd_starts sq) (qd_indx sq) stg j).
Proof.
  intros [Hcols _]. cbv zeta. unfold SmiNodeData_addQuadraticObjective.
  set (ncols := getNumColsTotal c).
  change (qd_starts (SmiQuadraticDataDC_new ncols (getNumEls sq)))
    with (replicate (S ncols) 0).
  case_decide as Hz.
  - split; [done|]. split; [by intros [e ?]|].
    intros (j & Hj & Hs & jj & Hjj & _). exfalso.
    pose proof (node_qstarts_pos c stg ncols (qd_starts sq)
                  (ix_ex2in_inj _ _ _ _ _ _ _ Hcols) (ix_ex2in_lt _ _ _ _ _ _ _ Hcols)
                  j Hj Hs ltac:(lia)) as Hpos.
    lia.
  - destruct (for_each_thrown (λ _, True)
                (bad_column c (qd_starts sq) (qd_indx sq) stg)
                (copy_column c stg (qd_starts sq) (qd_indx sq) (qd_dels sq)
                   (node_qstarts c stg (qd_starts sq) ncols (replicate (S ncols) 0)))
                (QFill (qd_indx (SmiQuadraticDataDC_new ncols (getNumEls sq)))
                       (qd_dels (SmiQuadraticDataDC_new ncols (getNumEls sq))) 0)
                (seq 0 ncols)) as [_ H]; [|done|].
    { intros s j _ _. split; [done|]. apply copy_column_thrown. }
    destruct (for_each _ _ _) as [st e]. simpl in *. split; [done|].
    rewrite Exists_exists in H. split.
    + intros [err Herr]. destruct e as [e|]; [|discriminate].
      destruct (proj1 H ltac:(eauto)) as (j & Hj & Hb).
      exists j. split; [|done]. apply elem_of_seq in Hj. lia.
    + intros (j & Hj & Hb).
      destruct (proj2 H) as [err Herr].
      { exists j. split; [|done]. apply elem_of_seq. lia. }
      subst e. by exists err.
Qed.

Lemma add_to_stage_spec sqp core0 c t :
  core_indexed core0 → t < Core.nstag_ core0 → length (Core.nodes_ core0) = Core.nstag_ core0 →
  linear_data c = linear_data core0 ∧ Core.hasQdata_ c = true →
  (linear_data (add_to_stage sqp c t).1 = linear_data core0 ∧
   Core.hasQdata_ (add_to_stage sqp c t).1 = true) ∧
  (is_Some (add_to_stage sqp c t).2
   ↔ ∃ j, j < getNumColsTotal core0 ∧
          bad_column core0 (qd_starts sqp) (qd_indx sqp) t j).
Proof.
  intros Hix Ht Hnodes [Hlin Hq].
  assert (Hm : maps_of c = maps_of core0) by (unfold linear_data in Hlin; congruence).
  assert (Hln : node_linear <$> Core.nodes_ c = node_linear <$> Core.nodes_ core0)
    by (unfold linear_data in Hlin; congruence).
  assert (Hlen : length (Core.nodes_ c) = Core.nstag_ core0).
  { rewrite <- Hnodes. apply (f_equal length) in Hln. by rewrite !length_fmap in Hln. }
  destruct (getters_same_maps _ _ Hm) as (_ & _ & _ & _ & Gst & _ & _ & _ & _ & _ & Gn & _).
  unfold add_to_stage.
  destruct (lookup_lt_is_Some_2 (Core.nodes_ c) t ltac:(lia)) as [nd Hnd]. rewrite Hnd.
  destruct (node_addQuadratic_spec t c sqp nd (core_indexed_same_maps _ _ Hm Hix))
    as [Hnl Hthrown]. cbv zeta in *.
  destruct (SmiNodeData_addQuadraticObjective t c sqp nd) as [nd' r]. simpl in *.
  split; [split|].
  - unfold linear_data in *. cbn [Core.nodes_ Core.cdrlo_ Core.cdrup_ Core.cdobj_
      Core.cdclo_ Core.cdcup_ Core.integerIndices_ Core.binaryIndices_
      Core.intColsStagewise set_quadratic].
    rewrite list_fmap_insert, Hnl.
    rewrite (list_insert_id (node_linear <$> Core.nodes_ c))
      by (by rewrite list_lookup_fmap, Hnd).
    exact Hlin.
  - done.
  - unfold bad_column in *. rewrite <- Gn, <- Gst, <- Hthrown. unfold is_thrown.
    destruct r as [[]|e]; split.
    + by intros [? ?].
    + by intros [? ?].
    + eauto.
    + eauto.
Qed.

Lemma sort_rows_qdata nd irow n :
  Node.hasQdata_ (sort_rows nd irow n) = Node.hasQdata_ nd.
Proof.
  unfold sort_rows. revert nd. induction (seq irow n) as [|i l IH]; intros nd; [done|].
  simpl. rewrite IH. unfold sort_row. by case_decide.
Qed.

Lemma built_nodes_no_qdata nrow ncol nstag cstag rstag matrix dclo dcup dobj drlo drup
    ints il bins bl :
  Forall (λ nd, Node.hasQdata_ nd = false)
         (Core.nodes_ (gutsOfConstructor nrow ncol nstag cstag rstag matrix
                         dclo dcup dobj drlo drup ints il bins bl)).
Proof.
  unfold gutsOfConstructor.
  destruct (stages_loop matrix dclo dcup dobj drlo drup
              (core_maps nrow ncol nstag cstag rstag ints il bins bl) nstag)
    as (_ & -> & _).
  apply Forall_app. split; [constructor|]. apply Forall_fmap, Forall_forall.
  intros t _. simpl. unfold core_node. by rewrite sort_rows_qdata.
Qed.

Lemma node_qstarts_zero core stg strts ncols :
  no_quadratic_term strts ncols →
  node_qstarts core stg strts ncols (replicate (S ncols) 0) = replicate (S ncols) 0.
Proof.
  intros Hno. unfold node_qstarts.
  assert (Hput : ∀ k n, <[k := 0]> (replicate n 0) = replicate n 0).
  { intros k n. destruct (decide (k < n)) as [Hk|Hk].
    - apply list_insert_id. by rewrite lookup_replicate.
    - apply list_insert_ge. rewrite length_replicate. lia. }
  assert (Hsized : ∀ k, k ≤ ncols →
            foldl (λ a j, if decide (getColStage core j = stg)
                          then <[S (getColInternalIndex core j)
                                 := strts !!! S j - strts !!! j]> a
                          else a)
                  (<[0 := 0]> (replicate (S ncols) 0)) (seq 0 k)
            = replicate (S ncols) 0).
  { induction k as [|k IH]; intros Hk; [apply Hput|].
    rewrite foldl_seq_S, IH by lia. case_decide; [|done].
    rewrite <- (Hno k) by lia. rewrite Nat.sub_diag. apply Hput. }
  rewrite Hsized by done.
  assert (Hsum : ∀ k, k ≤ ncols →
            foldl (λ a j, <[S j := a !!! S j + a !!! j]> a) (replicate (S ncols) 0) (seq 0 k)
            = replicate (S ncols) 0).
  { induction k as [|k IH]; intros Hk; [done|].
    rewrite foldl_seq_S, IH by lia.
    rewrite !lookup_total_replicate_2 by lia. apply Hput. }
  by apply Hsum.
Qed.

Lemma add_to_stage_no_terms sqp c t :
  no_quadratic_term (qd_starts sqp) (getNumColsTotal c) →
  Forall (λ nd, Node.hasQdata_ nd = false) (Core.nodes_ c) →
  (add_to_stage sqp c t).2 = None ∧
  Forall (λ nd, Node.hasQdata_ nd = false) (Core.nodes_ (add_to_stage sqp c t).1) ∧
  getNumColsTotal (add_to_stage sqp c t).1 = getNumColsTotal c.
Proof.
  intros Hno Hall. unfold add_to_stage.
  destruct (Core.nodes_ c !! t) as [nd|] eqn:Hnd; [|done].
  unfold SmiNodeData_addQuadraticObjective.
  change (qd_starts (SmiQuadraticDataDC_new ?n ?e)) with (replicate (S n) 0).
  rewrite node_qstarts_zero by done.
  rewrite lookup_total_replicate_2 by lia. rewrite decide_True by done.
  cbn [fst snd set_quadratic Core.nodes_]. split; [done|]. split; [|done].
  apply Forall_insert; done.
Qed.

Lemma starts_monotone (s : list nat) n a b :
  (∀ j, j < n → s !!! j ≤ s !!! S j) → a ≤ b → b ≤ n → s !!! a ≤ s !!! b.
Proof.
  intros Hmono Hab. induction Hab as [|b Hab IH]; intros Hb; [done|].
  specialize (Hmono b ltac:(lia)). specialize (IH ltac:(lia)). lia.
Qed.

(** C9 does not hold in its last part: a call that throws on a core
    without quadratic data leaves the core flagged as having some.  The
    string thrown holds no stage number. *)
Lemma failed_call_keeps_quadratic_flag :
  let call := SmiCoreData_addQuadraticObjectiveToCore scenario_core
                (Some [0; 1; 1]) [1] [1%float] in
  call.2 = thrown (cross_stage_data
                     "Exception: Quadratic data for timestage includes data from timestage ") ∧
  without_quadratic_data scenario_core ∧
  Core.hasQdata_ call.1 = true ∧
  ¬ without_quadratic_data call.1.
Proof.
  cbv zeta. split; [reflexivity|]. split; [|split; [reflexivity|]].
  - split; [reflexivity|]. repeat constructor.
  - intros [H _]. vm_compute in H. discriminate H.
Qed.

(** C9, as the code has it.  On a constructed core, with column starts
    that do not decrease: the call throws if and only if some quadratic
    term of a column names a column of another stage.  When no column has
    a quadratic term it returns without throwing and no node holds
    quadratic data; when [hasData()] reports none it returns at once,
    with the flag and the nodes of the core untouched.  Every outcome
    leaves the index maps, the dense arrays and the buffers of the nodes
    as they were; a throw leaves the quadratic flag of the core set. *)
Theorem quadratic_cross_stage_rejection
    (nrow ncol nstag : nat) (cstag rstag : list nat) (matrix : option CoinPackedMatrix)
    (dclo dcup dobj drlo drup : option CoinPackedVector)
    (ints : list nat) (il : nat) (bins : list nat) (bl : nat)
    (starts : option (list nat)) (indx : list nat) (dels : list double) :
  length cstag = ncol → length rstag = nrow →
  Forall (λ s, s < nstag) cstag → Forall (λ s, s < nstag) rstag →
  (∀ j, j < ncol → default [] starts !!! j ≤ default [] starts !!! S j) →
  let core := gutsOfConstructor nrow ncol nstag cstag rstag matrix dclo dcup dobj drlo drup
                                ints il bins bl in
  let call := SmiCoreData_addQuadraticObjectiveToCore core starts indx dels in
  (is_thrown call.2 ↔ cross_stage_term core (default [] starts) indx) ∧
  (no_quadratic_term (default [] starts) ncol →
   call.2 = returned () ∧
   Forall (λ nd, Node.hasQdata_ nd = false) (Core.nodes_ call.1)) ∧
  (qd_hasData (SmiQuadraticData_new ncol starts indx dels) = false →
   call.2 = returned () ∧ Core.hasQdata_ call.1 = false ∧
   Core.nodes_ call.1 = Core.nodes_ core) ∧
  linear_data call.1 = linear_data core ∧
  (is_thrown call.2 → Core.hasQdata_ call.1 = true).
Proof.
  intros Hlc Hlr Hc Hr Hmono core call.
  pose proof (scenario_core_indexed nrow ncol nstag cstag rstag matrix
                dclo dcup dobj drlo drup ints il bins bl Hlc Hlr Hc Hr) as Hix.
  destruct (built_dims nrow ncol nstag cstag rstag matrix dclo dcup dobj drlo drup
              ints il bins bl) as (Hn & Hnc & _ & Hcs & _).
  pose proof (built_nodes_length nrow ncol nstag cstag rstag matrix dclo dcup dobj drlo drup
                ints il bins bl) as Hnl.
  pose proof (built_nodes_no_qdata nrow ncol nstag cstag rstag matrix dclo dcup dobj drlo drup
                ints il bins bl) as Hnq.
  fold core in Hix, Hn, Hnc, Hcs, Hnl, Hnq.
  assert (Hq0 : Core.hasQdata_ core = false).
  { unfold core, gutsOfConstructor.
    by destruct (stages_loop matrix dclo dcup dobj drlo drup
                   (core_maps nrow ncol nstag cstag rstag ints il bins bl) nstag)
      as (_ & _ & _ & _ & _ & _ & _ & -> & _). }
  assert (Hncols : getNumColsTotal core = ncol) by done.
  set (s := default [] starts) in *.
  assert (Hstage : ∀ j, j < ncol → getColStage core j < nstag).
  { intros j Hj. unfold getColStage. rewrite Hcs, firstn_all2 by lia.
    rewrite Forall_lookup in Hc. apply (Hc j). apply list_lookup_lookup_total_lt. lia. }
  assert (Hnone : s !!! ncol = 0 → ¬ cross_stage_term core s indx).
  { intros Hz (j & jj & Hj & Hjj & _). rewrite Hncols in Hj.
    pose proof (starts_monotone s ncol (S j) ncol Hmono ltac:(lia) ltac:(lia)). lia. }
  subst call. unfold SmiCoreData_addQuadraticObjectiveToCore.
  rewrite Hncols. set (sqp := SmiQuadraticData_new ncol starts indx dels).
  assert (Hhd : qd_hasData sqp = bool_decide (0 < s !!! ncol)) by reflexivity.
  destruct (qd_hasData sqp) eqn:Hhas; cbn [negb]; symmetry in Hhd.
  - apply bool_decide_eq_true in Hhd.
    set (core2 := set_quadratic _ true _ _).
    destruct (for_each_thrown
                (λ c, linear_data c = linear_data core ∧ Core.hasQdata_ c = true)
                (λ t, ∃ j, j < getNumColsTotal core ∧
                           bad_column core (qd_starts sqp) (qd_indx sqp) t j)
                (add_to_stage sqp) core2 (seq 0 (Core.nstag_ core2))) as [[Hlin Hq] Hex].
    { intros c' t Hc' Ht. apply elem_of_seq in Ht.
      apply add_to_stage_spec; try done; [|by rewrite Hnl, Hn].
      change (Core.nstag_ core2) with (Core.nstag_ core) in Ht. lia. }
    { done. }
    pose proof (for_each_thrown
                  (λ c, Forall (λ nd, Node.hasQdata_ nd = false) (Core.nodes_ c) ∧
                        getNumColsTotal c = ncol)
                  (λ _, False) (add_to_stage sqp) core2 (seq 0 (Core.nstag_ core2))) as Hquiet.
    destruct (for_each (add_to_stage sqp) core2 (seq 0 (Core.nstag_ core2))) as [core3 e].
    cbn [fst snd] in *.
    assert (Hiff : is_Some e ↔ cross_stage_term core s indx).
    { rewrite Hex, Exists_exists. unfold cross_stage_term, bad_column. split.
      - intros (t & _ & j & Hj & Hs & jj & Hjj & Hb). exists j, jj. by rewrite Hs.
      - intros (j & jj & Hj & Hjj & Hb). exists (getColStage core j). split.
        + apply elem_of_seq. change (Core.nstag_ core2) with (Core.nstag_ core).
          rewrite Hn. specialize (Hstage j ltac:(lia)). lia.
        + exists j. split; [done|]. split; [done|]. by exists jj. }
    split; [|split; [|split; [|split]]].
    + rewrite <- Hiff. unfold is_thrown. destruct e as [err|]; split.
      * eauto.
      * eauto.
      * by intros [? ?].
      * by intros [? ?].
    + intros Hno. destruct Hquiet as [[Hall _] Hnever].
      { intros c' t [Hall' Hn'] _.
        destruct (add_to_stage_no_terms sqp c' t) as (He & Hall'' & Hn''); [|done|].
        { by rewrite Hn'. }
        split; [split; [done|congruence]|]. rewrite He. split; [by intros [? ?]|done]. }
      { done. }
      split; [|done]. destruct e as [err|]; [|done].
      pose proof (proj1 Hnever ltac:(eauto)) as Hex'.
      apply Exists_exists in Hex' as (? & _ & []).
    + intros Hfalse. congruence.
    + done.
    + done.
  - apply bool_decide_eq_false in Hhd. assert (Hz : s !!! ncol = 0) by lia.
    cbn [fst snd]. split; [|split; [|split; [|split]]].
    + split; [by intros [e ?]|]. intros Ht. by apply Hnone in Ht.
    + intros _. done.
    + intros _. done.
    + done.
    + by intros [e ?].
Qed.

Lemma quadratic_rejection_witness :
  let core := gutsOfConstructor 1 2 2 [0; 1] [1] (Some (osi_matrix scenario_osi))
                                None None None None None [] 0 [] 0 in
  let call := SmiCoreData_addQuadraticObjectiveToCore core (Some [0; 1; 1]) [1] [1%float] in
  (is_thrown call.2 ↔ cross_stage_term core (default [] (Some [0; 1; 1])) [1]) ∧
  (no_quadratic_term (default [] (Some [0; 1; 1])) 2 →
   call.2 = returned () ∧
   Forall (λ nd, Node.hasQdata_ nd = false) (Core.nodes_ call.1)) ∧
  (qd_hasData (SmiQuadraticData_new 2 (Some [0; 1; 1]) [1] [1%float]) = false →
   call.2 = returned () ∧ Core.hasQdata_ call.1 = false ∧
   Core.nodes_ call.1 = Core.nodes_ core) ∧
  linear_data call.1 = linear_data core ∧
  (is_thrown call.2 → Core.hasQdata_ call.1 = true).
Proof.
  apply (quadratic_cross_stage_rejection 1 2 2 [0; 1] [1] (Some (osi_matrix scenario_osi))
           None None None None None [] 0 [] 0 (Some [0; 1; 1]) [1] [1%float]
           eq_refl eq_refl);
    [repeat constructor | repeat constructor
    | intros j Hj; destruct j as [|[|j]]; [vm_compute; lia | vm_compute; lia | lia]].
Defined.

(** * Further properties *)

(** ** The internal numbering *)

Lemma below_app t (l1 l2 : list nat) : below t (l1 ++ l2) = below t l1 + below t l2.
Proof. unfold below. by rewrite filter_app, length_app. Qed.

Lemma rank_lt_same (l : list nat) c d :
  d < length l → c < d → l !!! c = l !!! d → rank l c < rank l d.
Proof.
  intros Hd Hcd Heq. unfold rank. rewrite Heq.
  assert (occ (l !!! d) (take c l) < occ (l !!! d) (take d l)); [|lia].
  replace (take c l) with (take c (take d l)) by (rewrite take_take; f_equal; lia).
  apply occ_take_lt. rewrite lookup_take_lt by done.
  rewrite <- Heq. apply list_lookup_lookup_total_lt. lia.
Qed.

Lemma rank_lt_stage (l : list nat) c d :
  c < length l → l !!! c < l !!! d → rank l c < rank l d.
Proof.
  intros Hc Hlt. pose proof (rank_lt_next l c Hc). pose proof (rank_ge l d).
  pose proof (below_mono (S (l !!! c)) (l !!! d) l ltac:(lia)). lia.
Qed.

Lemma rank_lt_iff (l : list nat) c d :
  c < length l → d < length l →
  rank l c < rank l d ↔ l !!! c < l !!! d ∨ (l !!! c = l !!! d ∧ c < d).
Proof.
  intros Hc Hd. split.
  - intros Hlt.
    destruct (decide (l !!! c < l !!! d)) as [|Hn]; [by left|].
    destruct (decide (l !!! d < l !!! c)) as [Hgt|Hn'].
    { pose proof (rank_lt_stage l d c Hd Hgt). lia. }
    assert (l !!! c = l !!! d) as Heq by lia. right. split; [done|].
    destruct (decide (c < d)) as [|Hge]; [done|].
    destruct (decide (c = d)) as [->|Hne]; [lia|].
    pose proof (rank_lt_same l d c Hc ltac:(lia) (eq_sym Heq)). lia.
  - intros [Hlt|[Heq Hlt]]; [by apply rank_lt_stage | by apply rank_lt_same].
Qed.

Lemma below_occ_le x (l : list nat) :
  Forall (λ y, y ≤ x) l → below x l + occ x l = length l.
Proof.
  induction 1 as [|y l Hy _ IH]; [done|].
  rewrite below_cons, occ_cons. simpl. repeat case_decide; lia.
Qed.

Lemma below_none x (l : list nat) : Forall (λ y, x ≤ y) l → below x l = 0.
Proof.
  induction 1 as [|y l Hy _ IH]; [done|].
  rewrite below_cons, IH. case_decide; lia.
Qed.

Lemma rank_sorted (l : list nat) c :
  (∀ a b, a ≤ b → b < length l → l !!! a ≤ l !!! b) → c < length l → rank l c = c.
Proof.
  intros Hs Hc. unfold rank.
  rewrite <- (take_drop c l) at 2. rewrite below_app.
  rewrite (below_none _ (drop c l)).
  - rewrite Nat.add_0_r, below_occ_le; [by rewrite length_take_le by lia|].
    apply Forall_lookup_2. intros i y Hi.
    apply lookup_take_Some in Hi as [Hi Hic].
    rewrite <- (list_lookup_total_correct _ _ _ Hi). apply Hs; lia.
  - apply Forall_lookup_2. intros i y Hi.
    rewrite lookup_drop in Hi. pose proof (lookup_lt_Some _ _ _ Hi).
    rewrite <- (list_lookup_total_correct _ _ _ Hi). apply Hs; lia.
Qed.

Lemma built_indexed nrow ncol nstag cstag rstag matrix dclo dcup dobj drlo drup ints il bins bl :
  length cstag = ncol → length rstag = nrow →
  Forall (λ s, s < nstag) cstag → Forall (λ s, s < nstag) rstag →
  let core := gutsOfConstructor nrow ncol nstag cstag rstag matrix dclo dcup dobj drlo drup
                                ints il bins bl in
  indexed nstag ncol cstag (Core.colEx2In_ core) (Core.colIn2Ex_ core)
          (Core.stageColPtr_ core) (Core.nColInStage_ core) ∧
  indexed nstag nrow rstag (Core.rowEx2In_ core) (Core.rowIn2Ex_ core)
          (Core.stageRowPtr_ core) (Core.nRowInStage_ core).
Proof.
  intros Hlc Hlr Hc Hr core.
  assert (Hix : core_indexed core).
  { apply gutsOfConstructor_indexed; try done;
      eapply Forall_impl; try eassumption; simpl; lia. }
  destruct (built_dims nrow ncol nstag cstag rstag matrix dclo dcup dobj drlo drup
                       ints il bins bl) as (Hn & Hnc & Hnr & Hcs & Hrs).
  fold core in Hn, Hnc, Hnr, Hcs, Hrs. destruct Hix as [Hcols Hrows].
  rewrite Hn, Hnc, Hcs, take_ge in Hcols by lia.
  rewrite Hn, Hnr, Hrs, take_ge in Hrows by lia. done.
Qed.

Lemma built_stages nrow ncol nstag cstag rstag matrix dclo dcup dobj drlo drup ints il bins bl :
  length cstag = ncol → length rstag = nrow →
  let core := gutsOfConstructor nrow ncol nstag cstag rstag matrix dclo dcup dobj drlo drup
                                ints il bins bl in
  Core.colStage_ core = cstag ∧ Core.rowStage_ core = rstag.
Proof.
  intros Hlc Hlr core.
  destruct (built_dims nrow ncol nstag cstag rstag matrix dclo dcup dobj drlo drup
                       ints il bins bl) as (_ & _ & _ & Hcs & Hrs).
  fold core in Hcs, Hrs. rewrite Hcs, Hrs, !take_ge by lia. done.
Qed.

Lemma indexed_order nstag n stage ex2in in2ex ptr cnt c d :
  indexed nstag n stage ex2in in2ex ptr cnt → c < n → d < n →
  ex2in !!! c < ex2in !!! d ↔ stage !!! c < stage !!! d ∨ (stage !!! c = stage !!! d ∧ c < d).
Proof.
  intros ix Hc Hd.
  rewrite (ix_ex2in _ _ _ _ _ _ _ ix c Hc), (ix_ex2in _ _ _ _ _ _ _ ix d Hd).
  apply rank_lt_iff; by rewrite (ix_len _ _ _ _ _ _ _ ix).
Qed.

(** X1.  The internal numbering orders the columns by stage and, within
    a stage, by their external index: internal index of [c] below that
    of [d] exactly when the stage of [c] is below that of [d], or the
    stages are equal and [c < d].  The same holds for the rows. *)
Theorem internal_order_is_stage_then_input
    (nrow ncol nstag : nat) (cstag rstag : list nat) (matrix : option CoinPackedMatrix)
    (dclo dcup dobj drlo drup : option CoinPackedVector)
    (ints : list nat) (il : nat) (bins : list nat) (bl : nat) :
  length cstag = ncol → length rstag = nrow →
  Forall (λ s, s < nstag) cstag → Forall (λ s, s < nstag) rstag →
  let core := gutsOfConstructor nrow ncol nstag cstag rstag matrix dclo dcup dobj drlo drup
                                ints il bins bl in
  (∀ c d, c < ncol → d < ncol →
     getColInternalIndex core c < getColInternalIndex core d
     ↔ getColStage core c < getColStage core d
       ∨ (getColStage core c = getColStage core d ∧ c < d)) ∧
  (∀ r s, r < nrow → s < nrow →
     getRowInternalIndex core r < getRowInternalIndex core s
     ↔ getRowStage core r < getRowStage core s
       ∨ (getRowStage core r = getRowStage core s ∧ r < s)).
Proof.
  intros Hlc Hlr Hc Hr core.
  destruct (built_indexed nrow ncol nstag cstag rstag matrix dclo dcup dobj drlo drup
              ints il bins bl Hlc Hlr Hc Hr) as [Hcols Hrows].
  destruct (built_stages nrow ncol nstag cstag rstag matrix dclo dcup dobj drlo drup
              ints il bins bl Hlc Hlr) as [Hcs Hrs].
  fold core in Hcols, Hrows, Hcs, Hrs.
  unfold getColInternalIndex, getColStage, getRowInternalIndex, getRowStage.
  rewrite Hcs, Hrs. split.
  - intros c d. by apply (indexed_order _ _ _ _ _ _ _ c d Hcols).
  - intros r s. by apply (indexed_order _ _ _ _ _ _ _ r s Hrows).
Qed.

Lemma internal_order_witness :
  let core := gutsOfConstructor 2 3 2 [1; 0; 1] [1; 0] None None None None None None
                                [] 0 [] 0 in
  ((∀ c d, c < 3 → d < 3 →
     getColInternalIndex core c < getColInternalIndex core d
     ↔ getColStage core c < getColStage core d
       ∨ (getColStage core c = getColStage core d ∧ c < d)) ∧
  (∀ r s, r < 2 → s < 2 →
     getRowInternalIndex core r < getRowInternalIndex core s
     ↔ getRowStage core r < getRowStage core s
       ∨ (getRowStage core r = getRowStage core s ∧ r < s))) ∧
  Core.colEx2In_ core = [1; 0; 2].
Proof.
  split; [|reflexivity].
  apply (internal_order_is_stage_then_input 2 3 2 [1; 0; 1] [1; 0] None None None None None None
           [] 0 [] 0 eq_refl eq_refl); repeat constructor.
Defined.

Lemma indexed_blocks nstag n stage ex2in in2ex ptr cnt :
  indexed nstag n stage ex2in in2ex ptr cnt → Forall (λ s, s < nstag) stage →
  ptr !!! 0 = 0 ∧ (∀ t, t < nstag → ptr !!! S t = ptr !!! t + cnt !!! t) ∧
  ptr !!! nstag = n ∧
  (∀ c, c < n → ptr !!! (stage !!! c) ≤ ex2in !!! c < ptr !!! (stage !!! c) + cnt !!! (stage !!! c)).
Proof.
  intros ix Hlt. split; [|split; [|split]].
  - rewrite (ix_ptr _ _ _ _ _ _ _ ix) by lia. apply below_0.
  - intros t Ht. by apply (ix_ptr_S _ _ _ _ _ _ _ ix).
  - rewrite (ix_ptr _ _ _ _ _ _ _ ix) by lia. rewrite <- (ix_len _ _ _ _ _ _ _ ix).
    by apply below_all.
  - intros c Hc.
    assert (stage !!! c < nstag) as Hs.
    { rewrite <- (ix_len _ _ _ _ _ _ _ ix) in Hc.
      destruct (lookup_lt_is_Some_2 _ _ Hc) as [s Hs].
      rewrite (list_lookup_total_correct _ _ _ Hs).
      by apply (Forall_lookup_1 _ _ _ _ Hlt Hs). }
    rewrite <- (ix_ptr_S _ _ _ _ _ _ _ ix) by done.
    by apply (ix_ex2in_block _ _ _ _ _ _ _ ix).
Qed.

(** X2.  The stage starts are the running sums of the stage sizes: the
    first stage starts at 0, each stage starts where the one before it
    ends, and the last one ends at the number of columns; every column
    has its internal index inside the block of its own stage.  The same
    holds for the rows. *)
Theorem stage_blocks_partition_indices
    (nrow ncol nstag : nat) (cstag rstag : list nat) (matrix : option CoinPackedMatrix)
    (dclo dcup dobj drlo drup : option CoinPackedVector)
    (ints : list nat) (il : nat) (bins : list nat) (bl : nat) :
  length cstag = ncol → length rstag = nrow →
  Forall (λ s, s < nstag) cstag → Forall (λ s, s < nstag) rstag →
  let core := gutsOfConstructor nrow ncol nstag cstag rstag matrix dclo dcup dobj drlo drup
                                ints il bins bl in
  (getColStart core 0 = 0 ∧
   (∀ t, t < nstag → getColStart core (S t) = getColStart core t + getNumCols core t) ∧
   getColStart core nstag = getNumColsTotal core ∧ getNumColsTotal core = ncol ∧
   (∀ c, c < ncol →
      getColStart core (getColStage core c) ≤ getColInternalIndex core c
      < getColStart core (getColStage core c) + getNumCols core (getColStage core c))) ∧
  (getRowStart core 0 = 0 ∧
   (∀ t, t < nstag → getRowStart core (S t) = getRowStart core t + getNumRows core t) ∧
   getRowStart core nstag = getNumRowsTotal core ∧ getNumRowsTotal core = nrow ∧
   (∀ r, r < nrow →
      getRowStart core (getRowStage core r) ≤ getRowInternalIndex core r
      < getRowStart core (getRowStage core r) + getNumRows core (getRowStage core r))).
Proof.
  intros Hlc Hlr Hc Hr core.
  destruct (built_indexed nrow ncol nstag cstag rstag matrix dclo dcup dobj drlo drup
              ints il bins bl Hlc Hlr Hc Hr) as [Hcols Hrows].
  destruct (built_stages nrow ncol nstag cstag rstag matrix dclo dcup dobj drlo drup
              ints il bins bl Hlc Hlr) as [Hcs Hrs].
  destruct (built_dims nrow ncol nstag cstag rstag matrix dclo dcup dobj drlo drup
              ints il bins bl) as (_ & Hnc & Hnr & _).
  fold core in Hcols, Hrows, Hcs, Hrs, Hnc, Hnr.
  unfold getColInternalIndex, getColStage, getColStart, getNumCols, getNumColsTotal,
    getRowInternalIndex, getRowStage, getRowStart, getNumRows, getNumRowsTotal.
  rewrite Hcs, Hrs, Hnc, Hnr.
  destruct (indexed_blocks _ _ _ _ _ _ _ Hcols Hc) as (? & ? & ? & ?).
  destruct (indexed_blocks _ _ _ _ _ _ _ Hrows Hr) as (? & ? & ? & ?).
  done.
Qed.

Lemma stage_blocks_witness :
  let core := gutsOfConstructor 2 3 2 [1; 0; 1] [1; 0] None None None None None None
                                [] 0 [] 0 in
  ((getColStart core 0 = 0 ∧
   (∀ t, t < 2 → getColStart core (S t) = getColStart core t + getNumCols core t) ∧
   getColStart core 2 = getNumColsTotal core ∧ getNumColsTotal core = 3 ∧
   (∀ c, c < 3 →
      getColStart core (getColStage core c) ≤ getColInternalIndex core c
      < getColStart core (getColStage core c) + getNumCols core (getColStage core c))) ∧
  (getRowStart core 0 = 0 ∧
   (∀ t, t < 2 → getRowStart core (S t) = getRowStart core t + getNumRows core t) ∧
   getRowStart core 2 = getNumRowsTotal core ∧ getNumRowsTotal core = 2 ∧
   (∀ r, r < 2 →
      getRowStart core (getRowStage core r) ≤ getRowInternalIndex core r
      < getRowStart core (getRowStage core r) + getNumRows core (getRowStage core r)))) ∧
  Core.stageColPtr_ core = [0; 1; 3].
Proof.
  split; [|reflexivity].
  apply (stage_blocks_partition_indices 2 3 2 [1; 0; 1] [1; 0] None None None None None None
           [] 0 [] 0 eq_refl eq_refl); repeat constructor.
Defined.

Lemma indexed_sorted nstag n stage ex2in in2ex ptr cnt c :
  indexed nstag n stage ex2in in2ex ptr cnt →
  (∀ a b, a ≤ b → b < n → stage !!! a ≤ stage !!! b) → c < n →
  ex2in !!! c = c ∧ in2ex !!! c = c.
Proof.
  intros ix Hs Hc.
  assert (rank stage c = c) as Hrk.
  { apply rank_sorted; rewrite (ix_len _ _ _ _ _ _ _ ix); done. }
  split.
  - by rewrite (ix_ex2in _ _ _ _ _ _ _ ix c Hc).
  - rewrite <- Hrk at 1. by apply (ix_in2ex _ _ _ _ _ _ _ ix).
Qed.

(** X3.  When the stage labels of the columns never decrease along the
    external order, the internal numbering of the columns is the
    external one: both index maps are the identity.  The same holds for
    the rows. *)
Theorem stage_ordered_input_keeps_numbering
    (nrow ncol nstag : nat) (cstag rstag : list nat) (matrix : option CoinPackedMatrix)
    (dclo dcup dobj drlo drup : option CoinPackedVector)
    (ints : list nat) (il : nat) (bins : list nat) (bl : nat) :
  length cstag = ncol → length rstag = nrow →
  Forall (λ s, s < nstag) cstag → Forall (λ s, s < nstag) rstag →
  let core := gutsOfConstructor nrow ncol nstag cstag rstag matrix dclo dcup dobj drlo drup
                                ints il bins bl in
  ((∀ a b, a ≤ b → b < ncol → cstag !!! a ≤ cstag !!! b) →
   ∀ c, c < ncol → getColInternalIndex core c = c ∧ getColExternalIndex core c = c) ∧
  ((∀ a b, a ≤ b → b < nrow → rstag !!! a ≤ rstag !!! b) →
   ∀ r, r < nrow → getRowInternalIndex core r = r ∧ getRowExternalIndex core r = r).
Proof.
  intros Hlc Hlr Hc Hr core.
  destruct (built_indexed nrow ncol nstag cstag rstag matrix dclo dcup dobj drlo drup
              ints il bins bl Hlc Hlr Hc Hr) as [Hcols Hrows].
  fold core in Hcols, Hrows.
  unfold getColInternalIndex, getColExternalIndex, getRowInternalIndex, getRowExternalIndex.
  split; intros Hs c Hlt.
  - by apply (indexed_sorted _ _ _ _ _ _ _ c Hcols).
  - by apply (indexed_sorted _ _ _ _ _ _ _ c Hrows).
Qed.

Lemma stage_ordered_input_witness :
  let core := gutsOfConstructor 2 3 2 [0; 0; 1] [0; 1] None None None None None None
                                [] 0 [] 0 in
  (((∀ a b, a ≤ b → b < 3 → [0; 0; 1] !!! a ≤ [0; 0; 1] !!! b) →
   ∀ c, c < 3 → getColInternalIndex core c = c ∧ getColExternalIndex core c = c) ∧
  ((∀ a b, a ≤ b → b < 2 → [0; 1] !!! a ≤ [0; 1] !!! b) →
   ∀ r, r < 2 → getRowInternalIndex core r = r ∧ getRowExternalIndex core r = r)) ∧
  (∀ a b, a ≤ b → b < 3 → [0; 0; 1] !!! a ≤ [0; 0; 1] !!! b) ∧
  Core.colEx2In_ core = [0; 1; 2].
Proof.
  split; [|split; [|reflexivity]].
  - apply (stage_ordered_input_keeps_numbering 2 3 2 [0; 0; 1] [0; 1]
             None None None None None None [] 0 [] 0 eq_refl eq_refl); repeat constructor.
  - intros a b Hab Hb. destruct b as [|[|[|b]]]; [| | |lia];
      destruct a as [|[|[|a]]]; simpl; lia.
Defined.

(** ** Integer columns by stage *)

Lemma nColInPrevStages_spec nstag (cnt l : list nat) :
  (∀ s, s ≤ nstag → cnt !!! s = occ s l) →
  ∀ t, t < nstag → nColInPrevStages nstag cnt !!! t = below t l.
Proof.
  intros Hcnt. unfold nColInPrevStages.
  assert (∀ k, k < nstag →
    let p := foldl (λ p i, <[i := p !!! (i - 1) + cnt !!! (i - 1)]> p)
                   (<[0 := 0]> (replicate nstag 0)) (seq 1 k) in
    length p = nstag ∧ ∀ t, t ≤ k → p !!! t = below t l) as H.
  { induction k as [|k IH]; intros Hk p.
    - subst p. cbn [seq foldl]. rewrite length_insert, length_replicate. split; [done|].
      intros t Ht. assert (t = 0) as -> by lia.
      rewrite lookup_total_assign by (rewrite length_replicate; lia).
      rewrite decide_True by done. by rewrite below_0.
    - subst p. rewrite seq_S, foldl_snoc. cbn [Nat.add].
      destruct (IH ltac:(lia)) as [Hlen Hp]. cbv zeta in Hlen, Hp.
      rewrite length_insert. split; [done|]. intros t Ht.
      rewrite lookup_total_assign by lia. case_decide as Hd.
      + subst t. replace (S k - 1) with k by lia.
        rewrite Hp, Hcnt, below_S by lia. done.
      + apply Hp. lia. }
  intros t Ht.
  destruct nstag as [|n]; [lia|]. replace (S n - 1) with n by lia.
  destruct (decide (t = n)) as [->|Hne].
  - destruct n as [|n].
    + cbn [seq foldl]. rewrite lookup_total_assign by (rewrite length_replicate; lia).
      rewrite decide_True by done. by rewrite below_0.
    + destruct (H (S n) ltac:(lia)) as [_ Hp]. by apply Hp.
  - destruct (H n ltac:(lia)) as [_ Hp]. apply Hp. lia.
Qed.

Lemma int_cols_loop nstag (st ints : list nat) (f : nat → nat → Z) k :
  k ≤ length ints → Forall (λ c, st !!! c < nstag) (take k ints) →
  let acc := foldl (λ acc i, let indice := ints !!! i in
                             let stage := st !!! indice in
                             <[stage := acc !!! stage ++ [f indice stage]]> acc)
                   (replicate nstag []) (seq 0 k) in
  length acc = nstag ∧
  ∀ t, t < nstag → acc !!! t = (λ c, f c t) <$> filter (λ c, st !!! c = t) (take k ints).
Proof.
  induction k as [|k IH]; intros Hk Hst acc; subst acc.
  - cbn [seq foldl]. rewrite length_replicate. split; [done|]. intros t Ht.
    rewrite take_0. by rewrite lookup_total_replicate_2.
  - rewrite foldl_seq_S.
    assert (ints !! k = Some (ints !!! k)) as Hik
      by (apply list_lookup_lookup_total_lt; lia).
    rewrite (take_S_r _ _ _ Hik) in Hst |- *.
    apply Forall_app in Hst as [Hst Hlast]. rewrite Forall_singleton in Hlast.
    destruct (IH ltac:(lia) Hst) as [Hlen Hacc]. cbv zeta in Hlen, Hacc.
    set (acc := foldl _ _ (seq 0 k)) in *.
    cbv zeta. rewrite length_insert. split; [done|]. intros t Ht.
    rewrite lookup_total_assign by (rewrite Hlen; exact Hlast).
    rewrite filter_app, fmap_app, filter_cons, filter_nil.
    case_decide as Hd.
    + subst t. simpl. by rewrite Hacc.
    + simpl. rewrite app_nil_r. by apply Hacc.
Qed.

Lemma stages_keep_integers matrix dclo dcup dobj drlo drup c0 k :
  let c := foldl (core_stage matrix dclo dcup dobj drlo drup) c0 (seq 0 k) in
  Core.intColsStagewise c = Core.intColsStagewise c0 ∧
  Core.integerIndices_ c = Core.integerIndices_ c0 ∧
  Core.integerLength_ c = Core.integerLength_ c0 ∧
  Core.binaryIndices_ c = Core.binaryIndices_ c0 ∧
  Core.binaryLength_ c = Core.binaryLength_ c0.
Proof.
  cbv zeta. induction k as [|k IH]; [done|].
  rewrite foldl_seq_S. unfold core_stage at 1 3 5 7 9. unfold push_stage. simpl. exact IH.
Qed.

(** X4.  [intColsStagewise] has one list per stage; the list of stage
    [t] holds, for each integer column of stage [t] in the order of
    [integerIndices], its external index minus the start of stage [t], a
    signed number.  When the stage labels of the columns never decrease,
    this is the position of the column inside its stage, between 0 and
    the size of the stage. *)
Theorem integer_columns_by_stage
    (nrow ncol nstag : nat) (cstag rstag : list nat) (matrix : option CoinPackedMatrix)
    (dclo dcup dobj drlo drup : option CoinPackedVector)
    (ints : list nat) (il : nat) (bins : list nat) (bl : nat) :
  length cstag = ncol → length rstag = nrow →
  Forall (λ s, s < nstag) cstag → Forall (λ s, s < nstag) rstag →
  il ≤ length ints → Forall (λ c, c < ncol) (take il ints) →
  let core := gutsOfConstructor nrow ncol nstag cstag rstag matrix dclo dcup dobj drlo drup
                                ints il bins bl in
  length (Core.intColsStagewise core) = nstag ∧
  (∀ t, t < nstag →
     Core.intColsStagewise core !!! t
     = (λ c, (Z.of_nat c - Z.of_nat (getColStart core t))%Z)
         <$> filter (λ c, getColStage core c = t) (take il ints)) ∧
  ((∀ a b, a ≤ b → b < ncol → cstag !!! a ≤ cstag !!! b) →
   ∀ t, t < nstag →
     Core.intColsStagewise core !!! t
     = (λ c, Z.of_nat (getColInternalIndex core c - getColStart core t))
         <$> filter (λ c, getColStage core c = t) (take il ints) ∧
     Forall (λ z, (0 ≤ z < Z.of_nat (getNumCols core t))%Z) (Core.intColsStagewise core !!! t)).
Proof.
  intros Hlc Hlr Hc Hr Hil Hints core.
  destruct (built_indexed nrow ncol nstag cstag rstag matrix dclo dcup dobj drlo drup
              ints il bins bl Hlc Hlr Hc Hr) as [Hcols _].
  destruct (built_stages nrow ncol nstag cstag rstag matrix dclo dcup dobj drlo drup
              ints il bins bl Hlc Hlr) as [Hcs _].
  fold core in Hcols, Hcs.
  destruct (stages_keep_integers matrix dclo dcup dobj drlo drup
              (core_maps nrow ncol nstag cstag rstag ints il bins bl) nstag) as (Hint & _).
  cbv zeta in Hint. fold (gutsOfConstructor nrow ncol nstag cstag rstag matrix dclo dcup dobj
                            drlo drup ints il bins bl) in Hint. fold core in Hint.
  unfold core_maps in Hint. cbn [Core.intColsStagewise] in Hint.
  rewrite take_ge in Hint by lia. unfold int_cols_stagewise in Hint. cbv zeta in Hint.
  assert (Forall (λ c, cstag !!! c < nstag) (take il ints)) as Hst.
  { eapply Forall_impl; [exact Hints|]. simpl. intros c Hcl.
    rewrite <- Hlc in Hcl. destruct (lookup_lt_is_Some_2 _ _ Hcl) as [s Hs].
    rewrite (list_lookup_total_correct _ _ _ Hs). by apply (Forall_lookup_1 _ _ _ _ Hc Hs). }
  set (prev := nColInPrevStages nstag _) in Hint.
  destruct (int_cols_loop nstag cstag ints
              (λ indice stage, (Z.of_nat indice - Z.of_nat (prev !!! stage))%Z) il Hil Hst)
    as [Hlen Hacc].
  cbv zeta in Hlen, Hacc. rewrite <- Hint in Hlen, Hacc.
  assert (∀ t, t < nstag → prev !!! t = getColStart core t) as Hprev.
  { intros t Ht. unfold getColStart. rewrite (ix_ptr _ _ _ _ _ _ _ Hcols) by lia.
    subst prev. apply nColInPrevStages_spec; [|done].
    intros s Hs. pose proof (build_stage_maps_spec nstag cstag) as Hb.
    rewrite Hlc in Hb. destruct Hb as (_ & _ & _ & _ & Hocc & _).
    { eapply Forall_impl; [exact Hc|]. simpl. lia. }
    by apply Hocc. }
  assert (∀ t, t < nstag →
     Core.intColsStagewise core !!! t
     = (λ c, (Z.of_nat c - Z.of_nat (getColStart core t))%Z)
         <$> filter (λ c, getColStage core c = t) (take il ints)) as Hmain.
  { intros t Ht. rewrite Hacc by done. unfold getColStage. rewrite Hcs.
    apply list_fmap_ext. intros _ c _. by rewrite Hprev. }
  split; [done|]. split; [done|].
  intros Hsorted t Ht. rewrite Hmain by done.
  assert (∀ c, c ∈ filter (λ c, getColStage core c = t) (take il ints) →
               getColInternalIndex core c = c ∧
               getColStart core t ≤ c < getColStart core t + getNumCols core t) as Hin.
  { intros c Hel. apply list_elem_of_filter in Hel as [Hstage Hel].
    assert (c < ncol) as Hcl by (by apply (Forall_forall (λ c, c < ncol) (take il ints))).
    destruct (indexed_sorted _ _ _ _ _ _ _ c Hcols Hsorted Hcl) as [He _].
    destruct (indexed_blocks _ _ _ _ _ _ _ Hcols Hc) as (_ & _ & _ & Hblk).
    specialize (Hblk c Hcl). unfold getColStage in Hstage. rewrite Hcs in Hstage.
    rewrite Hstage, He in Hblk.
    unfold getColInternalIndex, getColStart, getNumCols. done. }
  split.
  - apply list_fmap_ext. intros i c Hi.
    destruct (Hin c (list_elem_of_lookup_2 _ _ _ Hi)) as [-> ?]. lia.
  - apply Forall_fmap, Forall_forall. intros c Hel. simpl.
    destruct (Hin c Hel) as [_ ?]. lia.
Qed.

Lemma integer_columns_witness :
  let core := gutsOfConstructor 2 3 2 [1; 0; 1] [1; 0] None None None None None None
                                [2; 1; 0] 3 [] 0 in
  (length (Core.intColsStagewise core) = 2 ∧
  (∀ t, t < 2 →
     Core.intColsStagewise core !!! t
     = (λ c, (Z.of_nat c - Z.of_nat (getColStart core t))%Z)
         <$> filter (λ c, getColStage core c = t) (take 3 [2; 1; 0])) ∧
  ((∀ a b, a ≤ b → b < 3 → [1; 0; 1] !!! a ≤ [1; 0; 1] !!! b) →
   ∀ t, t < 2 →
     Core.intColsStagewise core !!! t
     = (λ c, Z.of_nat (getColInternalIndex core c - getColStart core t))
         <$> filter (λ c, getColStage core c = t) (take 3 [2; 1; 0]) ∧
     Forall (λ z, (0 ≤ z < Z.of_nat (getNumCols core t))%Z) (Core.intColsStagewise core !!! t))) ∧
  Core.intColsStagewise core = [[1%Z]; [1%Z; (-1)%Z]].
Proof.
  split; [|reflexivity].
  apply (integer_columns_by_stage 2 3 2 [1; 0; 1] [1; 0] None None None None None None
           [2; 1; 0] 3 [] 0 eq_refl eq_refl);
    [repeat constructor | repeat constructor | simpl; lia
    | repeat (constructor; [lia|]); constructor].
Defined.

(** ** The dense stage arrays *)

(** X5.  On a constructed core, for a stage [t], each of
    [SmiCoreData::copyRowLower], [copyRowUpper], [copyColLower],
    [copyColUpper] and [copyObjective] writes at position [j] inside the
    stage the value the vector given to the constructor holds for the
    external index of slot [j]: the value of its last entry with that
    index, and [0.0] when the vector has no such entry or is null.  No
    position behind the stage is changed. *)
Theorem core_copies_constructor_values
    (nrow ncol nstag : nat) (cstag rstag : list nat) (matrix : option CoinPackedMatrix)
    (dclo dcup dobj drlo drup : option CoinPackedVector)
    (ints : list nat) (il : nat) (bins : list nat) (bl : nat) :
  length cstag = ncol → length rstag = nrow →
  Forall (λ s, s < nstag) cstag → Forall (λ s, s < nstag) rstag →
  matrix_ok matrix nrow →
  Forall (λ e, e.1 < ncol) (default [] dclo) → Forall (λ e, e.1 < ncol) (default [] dcup) →
  Forall (λ e, e.1 < ncol) (default [] dobj) →
  Forall (λ e, e.1 < nrow) (default [] drlo) → Forall (λ e, e.1 < nrow) (default [] drup) →
  let core := gutsOfConstructor nrow ncol nstag cstag rstag matrix dclo dcup dobj drlo drup
                                ints il bins bl in
  ∀ t j d, t < nstag →
    (j < getNumCols core t →
     let c := getColExternalIndex core (getColStart core t + j) in
     SmiCoreData_copyColLower core d t !! j = Some (last_value dclo c) ∧
     SmiCoreData_copyColUpper core d t !! j = Some (last_value dcup c) ∧
     SmiCoreData_copyObjective core d t !! j = Some (last_value dobj c)) ∧
    (j < getNumRows core t →
     let r := getRowExternalIndex core (getRowStart core t + j) in
     SmiCoreData_copyRowLower core d t !! j = Some (last_value drlo r) ∧
     SmiCoreData_copyRowUpper core d t !! j = Some (last_value drup r)) ∧
    (getNumCols core t ≤ j →
     SmiCoreData_copyColLower core d t !! j = d !! j ∧
     SmiCoreData_copyColUpper core d t !! j = d !! j ∧
     SmiCoreData_copyObjective core d t !! j = d !! j) ∧
    (getNumRows core t ≤ j →
     SmiCoreData_copyRowLower core d t !! j = d !! j ∧
     SmiCoreData_copyRowUpper core d t !! j = d !! j).
Proof.
  intros Hlc Hlr Hc Hr Hok Vclo Vcup Vobj Vrlo Vrup core t j d Ht.
  pose proof (built_stage_array_lengths nrow ncol nstag cstag rstag matrix
                dclo dcup dobj drlo drup ints il bins bl t Ht) as Hlen.
  cbv zeta in Hlen. fold core in Hlen.
  destruct Hlen as (Lrlo & Lrup & Lclo & Lcup & Lobj).
  pose proof (built_stage_array_values nrow ncol nstag cstag rstag matrix
                dclo dcup dobj drlo drup ints il bins bl t j
                Hlc Hlr Hc Hr Hok Ht) as Hv.
  cbv zeta in Hv. fold core in Hv. destruct Hv as (A1 & A2 & A3 & A4 & A5).
  unfold SmiCoreData_copyColLower, SmiCoreData_copyColUpper, SmiCoreData_copyObjective,
    SmiCoreData_copyRowLower, SmiCoreData_copyRowUpper.
  split; [|split; [|split]].
  - intros Hj. cbv zeta. rewrite !CoinDisjointCopyN_lookup by lia. auto.
  - intros Hj. cbv zeta. rewrite !CoinDisjointCopyN_lookup by lia. auto.
  - intros Hj. rewrite !CoinDisjointCopyN_frame by lia. auto.
  - intros Hj. rewrite !CoinDisjointCopyN_frame by lia. auto.
Qed.

Lemma core_copies_witness :
  let dclo := Some [(0, 1%float); (0, 4%float)] in
  let core := gutsOfConstructor 2 3 2 [1; 0; 1] [1; 0] None dclo None None None None
                                [] 0 [] 0 in
  (∀ t j d, t < 2 →
    (j < getNumCols core t →
     let c := getColExternalIndex core (getColStart core t + j) in
     SmiCoreData_copyColLower core d t !! j = Some (last_value dclo c) ∧
     SmiCoreData_copyColUpper core d t !! j = Some (last_value None c) ∧
     SmiCoreData_copyObjective core d t !! j = Some (last_value None c)) ∧
    (j < getNumRows core t →
     let r := getRowExternalIndex core (getRowStart core t + j) in
     SmiCoreData_copyRowLower core d t !! j = Some (last_value None r) ∧
     SmiCoreData_copyRowUpper core d t !! j = Some (last_value None r)) ∧
    (getNumCols core t ≤ j →
     SmiCoreData_copyColLower core d t !! j = d !! j ∧
     SmiCoreData_copyColUpper core d t !! j = d !! j ∧
     SmiCoreData_copyObjective core d t !! j = d !! j) ∧
    (getNumRows core t ≤ j →
     SmiCoreData_copyRowLower core d t !! j = d !! j ∧
     SmiCoreData_copyRowUpper core d t !! j = d !! j)) ∧
  SmiCoreData_copyColLower core [9; 9; 9]%float 1 = [4; 0; 9]%float.
Proof.
  split; [|vm_compute; reflexivity].
  apply (core_copies_constructor_values 2 3 2 [1; 0; 1] [1; 0] None
           (Some [(0, 1%float); (0, 4%float)]) None None None None [] 0 [] 0 eq_refl eq_refl);
    [repeat constructor | repeat constructor | exact I
    | repeat (constructor; [simpl; lia|]); constructor
    | constructor | constructor | constructor | constructor].
Defined.

(** ** What the core nodes hold *)

Lemma node_categories_same_maps c c' t dclo dcup dobj drlo drup :
  maps_of c = maps_of c' →
  node_categories c t dclo dcup dobj drlo drup = node_categories c' t dclo dcup dobj drlo drup.
Proof.
  intros Hm.
  destruct (getters_same_maps _ _ Hm) as (_ & _ & _ & _ & Gcs & Grs & Gci & Gri & _).
  unfold node_categories. by rewrite Gcs, Grs, Gci, Gri.
Qed.

Lemma node_rows_same_maps c c' t matrix :
  maps_of c = maps_of c' → node_rows c t matrix = node_rows c' t matrix.
Proof.
  intros Hm.
  destruct (getters_same_maps _ _ Hm)
    as (_ & Gnr & _ & Grs & _ & _ & Gci & _ & _ & Gre & _).
  unfold node_rows, stage_rows, internal_entry. by rewrite Gnr, Grs, Gci, Gre.
Qed.

Lemma sort_rows_strt nd irow n : Node.strt_ (sort_rows nd irow n) = Node.strt_ nd.
Proof.
  unfold sort_rows. revert nd. induction (seq irow n) as [|i l IH]; intros nd; [done|].
  simpl. rewrite IH. unfold sort_row. by case_decide.
Qed.

(** The node a constructed core holds for stage [t]: the rows of the
    stage, each sorted, and the five categories, with the offsets of the
    node as the node constructor left them. *)
Lemma built_core_node_layout nrow ncol nstag cstag rstag matrix dclo dcup dobj drlo drup
    ints il bins bl t :
  length cstag = ncol → length rstag = nrow →
  Forall (λ s, s < nstag) cstag → Forall (λ s, s < nstag) rstag →
  matrix_ok matrix nrow → t < nstag →
  let core := gutsOfConstructor nrow ncol nstag cstag rstag matrix dclo dcup dobj drlo drup
                                ints il bins bl in
  ∃ cn, Core.nodes_ core !! t = Some cn ∧
        laid_out cn (sortIncrIndex <$> node_rows core t matrix)
                 (node_categories core t dclo dcup dobj drlo drup) ∧
        Node.strt_ cn = Node.strt_ (SmiNodeData_new t core matrix dclo dcup dobj drlo drup).
Proof.
  intros Hlc Hlr Hc Hr Hok Ht core.
  set (c0 := core_maps nrow ncol nstag cstag rstag ints il bins bl).
  assert (Hix0 : core_indexed c0).
  { apply core_maps_indexed; try assumption; eapply Forall_impl; try eassumption; simpl; lia. }
  pose proof (built_maps nrow ncol nstag cstag rstag matrix
                dclo dcup dobj drlo drup ints il bins bl) as Hm.
  fold c0 in Hm. change (gutsOfConstructor _ _ _ _ _ _ _ _ _ _ _ _ _ _ _) with core in Hm.
  destruct (core_node_laid_out c0 t matrix dclo dcup dobj drlo drup Hix0 Ht Hok)
    as (Hlo & _).
  exists (core_node matrix dclo dcup dobj drlo drup c0 t). split; [|split].
  - apply (built_node nrow ncol nstag cstag rstag matrix dclo dcup dobj drlo drup
             ints il bins bl t Ht).
  - rewrite (node_rows_same_maps _ _ t matrix Hm).
    rewrite (node_categories_same_maps _ _ t dclo dcup dobj drlo drup Hm). exact Hlo.
  - unfold core_node. rewrite sort_rows_strt.
    by rewrite (SmiNodeData_new_same_maps _ _ t matrix dclo dcup dobj drlo drup Hm).
Qed.

Lemma full_stage_entries nstag n stage ex2in in2ex ptr cnt t (d : list double) :
  indexed nstag n stage ex2in in2ex ptr cnt → t ≤ nstag →
  stage_entries (λ i, stage !!! i) (λ i, ex2in !!! i) t (Some (CoinPackedVector_full n d))
  = (λ k, (ptr !!! t + k, d !!! (in2ex !!! (ptr !!! t + k)))) <$> seq 0 (cnt !!! t).
Proof.
  intros ix Ht. pose proof (ix_len _ _ _ _ _ _ _ ix) as Hlen.
  assert (∀ m, m ≤ n →
    stage_entries (λ i, stage !!! i) (λ i, ex2in !!! i) t (Some (CoinPackedVector_full m d))
    = (λ k, (ptr !!! t + k, d !!! (in2ex !!! (ptr !!! t + k))))
        <$> seq 0 (occ t (take m stage))) as H.
  { induction m as [|m IH]; intros Hm; [done|].
    unfold stage_entries, CoinPackedVector_full in *. cbn [default] in *. unfold id in *.
    rewrite seq_S, fmap_app, filter_app, fmap_app, IH by lia. cbn [fmap list_fmap].
    rewrite occ_take_S by lia. rewrite filter_cons, filter_nil. cbn [fst snd Nat.add].
    case_decide as Hs.
    - rewrite Nat.add_1_r, seq_S, fmap_app. cbn [fmap list_fmap Nat.add fst snd].
      f_equal. f_equal.
      rewrite (ix_ex2in _ _ _ _ _ _ _ ix m) by lia.
      rewrite (ix_ptr _ _ _ _ _ _ _ ix t) by lia.
      assert (rank stage m = below t stage + occ t (take m stage)) as Hrk
        by (unfold rank; by rewrite Hs).
      rewrite <- Hrk. by rewrite (ix_in2ex _ _ _ _ _ _ _ ix m) by lia.
    - by rewrite Nat.add_0_r, app_nil_r. }
  rewrite (H n) by done. rewrite take_ge by lia.
  by rewrite (ix_cnt _ _ _ _ _ _ _ ix t).
Qed.

(** X6.  The core node of stage [t], in a core built from a solver,
    holds a bound of every row and column of the stage and an objective
    coefficient of every column, in the order of the internal indices:
    entry [k] of a column category is the pair of the internal index
    [start + k] and the solver's value of the column at that internal
    index, for [k] below the number of columns of the stage, and
    likewise for the rows. *)
Theorem core_node_holds_every_bound
    (osi : OsiSolverInterface) (nstag : nat) (cstag rstag : list nat)
    (ints : list nat) (il : nat) (bins : list nat) (bl : nat) (t : nat) :
  length cstag = osi_ncol osi → length rstag = osi_nrow osi →
  Forall (λ s, s < nstag) cstag → Forall (λ s, s < nstag) rstag →
  matrix_fits (osi_matrix osi) (osi_nrow osi) → t < nstag →
  let core := SmiCoreData_new osi nstag cstag rstag ints il bins bl in
  let cols (d : list double) :=
    (λ k, (getColStart core t + k, d !!! getColExternalIndex core (getColStart core t + k)))
      <$> seq 0 (getNumCols core t) in
  let rows (d : list double) :=
    (λ k, (getRowStart core t + k, d !!! getRowExternalIndex core (getRowStart core t + k)))
      <$> seq 0 (getNumRows core t) in
  ∃ cn, Core.nodes_ core !! t = Some cn ∧
        getColLower cn = cols (osi_colLower osi) ∧
        getColUpper cn = cols (osi_colUpper osi) ∧
        getObjective cn = cols (osi_obj osi) ∧
        getRowLower cn = rows (osi_rowLower osi) ∧
        getRowUpper cn = rows (osi_rowUpper osi).
Proof.
  intros Hlc Hlr Hc Hr Hfit Ht core. unfold SmiCoreData_new in core.
  set (nrow := osi_nrow osi) in *. set (ncol := osi_ncol osi) in *.
  destruct (built_core_node_layout nrow ncol nstag cstag rstag (Some (osi_matrix osi))
              (Some (CoinPackedVector_full ncol (osi_colLower osi)))
              (Some (CoinPackedVector_full ncol (osi_colUpper osi)))
              (Some (CoinPackedVector_full ncol (osi_obj osi)))
              (Some (CoinPackedVector_full nrow (osi_rowLower osi)))
              (Some (CoinPackedVector_full nrow (osi_rowUpper osi)))
              ints il bins bl t Hlc Hlr Hc Hr Hfit Ht) as (cn & Hcn & Hlo & _).
  destruct (built_indexed nrow ncol nstag cstag rstag (Some (osi_matrix osi))
              (Some (CoinPackedVector_full ncol (osi_colLower osi)))
              (Some (CoinPackedVector_full ncol (osi_colUpper osi)))
              (Some (CoinPackedVector_full ncol (osi_obj osi)))
              (Some (CoinPackedVector_full nrow (osi_rowLower osi)))
              (Some (CoinPackedVector_full nrow (osi_rowUpper osi)))
              ints il bins bl Hlc Hlr Hc Hr) as [Hcols Hrows].
  destruct (built_stages nrow ncol nstag cstag rstag (Some (osi_matrix osi))
              (Some (CoinPackedVector_full ncol (osi_colLower osi)))
              (Some (CoinPackedVector_full ncol (osi_colUpper osi)))
              (Some (CoinPackedVector_full ncol (osi_obj osi)))
              (Some (CoinPackedVector_full nrow (osi_rowLower osi)))
              (Some (CoinPackedVector_full nrow (osi_rowUpper osi)))
              ints il bins bl Hlc Hlr) as [Hcs Hrs].
  fold core in Hcn, Hlo, Hcols, Hrows, Hcs, Hrs.
  exists cn. split; [exact Hcn|].
  rewrite (laid_out_getColLower _ _ _ Hlo), (laid_out_getColUpper _ _ _ Hlo),
    (laid_out_getObjective _ _ _ Hlo), (laid_out_getRowLower _ _ _ Hlo),
    (laid_out_getRowUpper _ _ _ Hlo).
  cbn [node_categories lookup_total list_lookup_total].
  unfold getColStage, getRowStage, getColInternalIndex, getRowInternalIndex,
    getColStart, getRowStart, getNumCols, getNumRows, getColExternalIndex,
    getRowExternalIndex.
  rewrite Hcs, Hrs.
  rewrite !(full_stage_entries _ _ _ _ _ _ _ t _ Hcols) by lia.
  rewrite !(full_stage_entries _ _ _ _ _ _ _ t _ Hrows) by lia.
  repeat split.
Qed.

Lemma core_node_holds_witness :
  let core := SmiCoreData_new example_osi 2 [1; 0; 1] [1; 0] [] 0 [] 0 in
  let cols (d : list double) :=
    (λ k, (getColStart core 1 + k, d !!! getColExternalIndex core (getColStart core 1 + k)))
      <$> seq 0 (getNumCols core 1) in
  let rows (d : list double) :=
    (λ k, (getRowStart core 1 + k, d !!! getRowExternalIndex core (getRowStart core 1 + k)))
      <$> seq 0 (getNumRows core 1) in
  (∃ cn, Core.nodes_ core !! 1 = Some cn ∧
         getColLower cn = cols (osi_colLower example_osi) ∧
         getColUpper cn = cols (osi_colUpper example_osi) ∧
         getObjective cn = cols (osi_obj example_osi) ∧
         getRowLower cn = rows (osi_rowLower example_osi) ∧
         getRowUpper cn = rows (osi_rowUpper example_osi)) ∧
  cols (osi_colLower example_osi) = [(1, 5%float); (2, 7%float)].
Proof.
  split; [|vm_compute; reflexivity].
  apply (core_node_holds_every_bound example_osi 2 [1; 0; 1] [1; 0] [] 0 [] 0 1);
    [reflexivity | reflexivity | repeat constructor | repeat constructor
    | split; [reflexivity | repeat (constructor; [vm_compute; lia|]); constructor]
    | lia].
Defined.

Lemma filter_below_S {A} (f : A → nat) (v : list A) n :
  filter (λ e, f e < S n) v ≡ₚ filter (λ e, f e < n) v ++ filter (λ e, f e = n) v.
Proof.
  induction v as [|e v IH]; [done|].
  rewrite !filter_cons. repeat case_decide; try lia.
  - by rewrite IH.
  - rewrite IH. apply Permutation_middle.
  - done.
Qed.

Lemma concat_filters {A} (f : A → nat) (v : list A) n :
  concat ((λ t, filter (λ e, f e = t) v) <$> seq 0 n) ≡ₚ filter (λ e, f e < n) v.
Proof.
  induction n as [|n IH].
  - simpl. induction v as [|e v IHv]; [done|].
    rewrite filter_cons. case_decide; [lia|done].
  - rewrite seq_S, fmap_app, concat_app, IH, filter_below_S. simpl.
    by rewrite app_nil_r.
Qed.

Lemma filter_all {A} (P : A → Prop) `{∀ x, Decision (P x)} (v : list A) :
  Forall P v → filter P v = v.
Proof.
  induction 1 as [|e v He _ IH]; [done|].
  rewrite filter_cons, decide_True by done. by rewrite IH.
Qed.

(** The entries of a vector, grouped by the stage of their index, are
    the entries of the vector. *)
Lemma stage_entries_partition (stage_of internal_of : nat → nat) nstag
    (v : option CoinPackedVector) :
  Forall (λ e, stage_of e.1 < nstag) (default [] v) →
  concat ((λ t, stage_entries stage_of internal_of t v) <$> seq 0 nstag)
  ≡ₚ (λ e, (internal_of e.1, e.2)) <$> default [] v.
Proof.
  intros Hall. unfold stage_entries.
  assert ((λ t, (λ e : entry, (internal_of e.1, e.2))
                  <$> filter (λ e : entry, stage_of e.1 = t) (default [] v)) <$> seq 0 nstag
          = fmap (M:=list) (λ e : entry, (internal_of e.1, e.2))
              <$> ((λ t, filter (λ e : entry, stage_of e.1 = t) (default [] v))
                     <$> seq 0 nstag)) as ->
    by (by rewrite <- list_fmap_compose).
  rewrite concat_fmap.
  rewrite (concat_filters (λ e : entry, stage_of e.1) (default [] v) nstag).
  by rewrite filter_all.
Qed.

Lemma nodes_category (get : Node.t → list entry) (cat : nat → list entry)
    (nodes : list Node.t) nstag :
  length nodes = nstag →
  (∀ t, t < nstag → ∃ cn, nodes !! t = Some cn ∧ get cn = cat t) →
  get <$> nodes = cat <$> seq 0 nstag.
Proof.
  intros Hlen Hcat. apply list_eq. intros t.
  rewrite !list_lookup_fmap.
  destruct (decide (t < nstag)) as [Ht|Ht].
  - destruct (Hcat t Ht) as (cn & -> & Hg).
    rewrite lookup_seq_lt by done. simpl. by rewrite Hg.
  - rewrite lookup_ge_None_2 by lia. by rewrite lookup_seq_ge by lia.
Qed.

(** X7.  The core nodes of a constructed core share out the vectors
    given to the constructor: taken over all the stages, the lower
    bounds the nodes store are the entries of the input vector, each
    exactly once, with its index translated to the internal numbering;
    so are the upper bounds, the objective coefficients and the row
    bounds.  No entry is dropped and none is stored twice. *)
Theorem core_nodes_share_out_the_input
    (nrow ncol nstag : nat) (cstag rstag : list nat) (matrix : option CoinPackedMatrix)
    (dclo dcup dobj drlo drup : option CoinPackedVector)
    (ints : list nat) (il : nat) (bins : list nat) (bl : nat) :
  length cstag = ncol → length rstag = nrow →
  Forall (λ s, s < nstag) cstag → Forall (λ s, s < nstag) rstag →
  matrix_ok matrix nrow →
  Forall (λ e, e.1 < ncol) (default [] dclo) → Forall (λ e, e.1 < ncol) (default [] dcup) →
  Forall (λ e, e.1 < ncol) (default [] dobj) →
  Forall (λ e, e.1 < nrow) (default [] drlo) → Forall (λ e, e.1 < nrow) (default [] drup) →
  let core := gutsOfConstructor nrow ncol nstag cstag rstag matrix dclo dcup dobj drlo drup
                                ints il bins bl in
  let col (e : entry) := (getColInternalIndex core e.1, e.2) in
  let row (e : entry) := (getRowInternalIndex core e.1, e.2) in
  concat (getColLower <$> Core.nodes_ core) ≡ₚ col <$> default [] dclo ∧
  concat (getColUpper <$> Core.nodes_ core) ≡ₚ col <$> default [] dcup ∧
  concat (getObjective <$> Core.nodes_ core) ≡ₚ col <$> default [] dobj ∧
  concat (getRowLower <$> Core.nodes_ core) ≡ₚ row <$> default [] drlo ∧
  concat (getRowUpper <$> Core.nodes_ core) ≡ₚ row <$> default [] drup.
Proof.
  intros Hlc Hlr Hc Hr Hok Vclo Vcup Vobj Vrlo Vrup core col row.
  pose proof (built_nodes_length nrow ncol nstag cstag rstag matrix dclo dcup dobj drlo drup
                ints il bins bl) as Hnl.
  destruct (built_stages nrow ncol nstag cstag rstag matrix dclo dcup dobj drlo drup
              ints il bins bl Hlc Hlr) as [Hcs Hrs].
  fold core in Hnl, Hcs, Hrs.
  assert (Hnode : ∀ t, t < nstag →
            ∃ cn, Core.nodes_ core !! t = Some cn ∧
                  laid_out cn (sortIncrIndex <$> node_rows core t matrix)
                           (node_categories core t dclo dcup dobj drlo drup)).
  { intros t Ht.
    destruct (built_core_node_layout nrow ncol nstag cstag rstag matrix
                dclo dcup dobj drlo drup ints il bins bl t Hlc Hlr Hc Hr Hok Ht)
      as (cn & Hcn & Hlo & _).
    by exists cn. }
  assert (Hcstage : ∀ v : option CoinPackedVector,
            Forall (λ e, e.1 < ncol) (default [] v) →
            Forall (λ e, getColStage core e.1 < nstag) (default [] v)).
  { intros v Hv. eapply Forall_impl; [exact Hv|]. simpl. intros e He.
    unfold getColStage. rewrite Hcs. rewrite <- Hlc in He.
    destruct (lookup_lt_is_Some_2 _ _ He) as [s Hs].
    rewrite (list_lookup_total_correct _ _ _ Hs). by apply (Forall_lookup_1 _ _ _ _ Hc Hs). }
  assert (Hrstage : ∀ v : option CoinPackedVector,
            Forall (λ e, e.1 < nrow) (default [] v) →
            Forall (λ e, getRowStage core e.1 < nstag) (default [] v)).
  { intros v Hv. eapply Forall_impl; [exact Hv|]. simpl. intros e He.
    unfold getRowStage. rewrite Hrs. rewrite <- Hlr in He.
    destruct (lookup_lt_is_Some_2 _ _ He) as [s Hs].
    rewrite (list_lookup_total_correct _ _ _ Hs). by apply (Forall_lookup_1 _ _ _ _ Hr Hs). }
  split; [|split; [|split; [|split]]].
  - rewrite (nodes_category getColLower
               (λ t, stage_entries (getColStage core) (getColInternalIndex core) t dclo)
               (Core.nodes_ core) nstag Hnl).
    + apply stage_entries_partition. by apply Hcstage.
    + intros t Ht. destruct (Hnode t Ht) as (cn & Hcn & Hlo).
      exists cn. split; [done|]. by rewrite (laid_out_getColLower _ _ _ Hlo).
  - rewrite (nodes_category getColUpper
               (λ t, stage_entries (getColStage core) (getColInternalIndex core) t dcup)
               (Core.nodes_ core) nstag Hnl).
    + apply stage_entries_partition. by apply Hcstage.
    + intros t Ht. destruct (Hnode t Ht) as (cn & Hcn & Hlo).
      exists cn. split; [done|]. by rewrite (laid_out_getColUpper _ _ _ Hlo).
  - rewrite (nodes_category getObjective
               (λ t, stage_entries (getColStage core) (getColInternalIndex core) t dobj)
               (Core.nodes_ core) nstag Hnl).
    + apply stage_entries_partition. by apply Hcstage.
    + intros t Ht. destruct (Hnode t Ht) as (cn & Hcn & Hlo).
      exists cn. split; [done|]. by rewrite (laid_out_getObjective _ _ _ Hlo).
  - rewrite (nodes_category getRowLower
               (λ t, stage_entries (getRowStage core) (getRowInternalIndex core) t drlo)
               (Core.nodes_ core) nstag Hnl).
    + apply stage_entries_partition. by apply Hrstage.
    + intros t Ht. destruct (Hnode t Ht) as (cn & Hcn & Hlo).
      exists cn. split; [done|]. by rewrite (laid_out_getRowLower _ _ _ Hlo).
  - rewrite (nodes_category getRowUpper
               (λ t, stage_entries (getRowStage core) (getRowInternalIndex core) t drup)
               (Core.nodes_ core) nstag Hnl).
    + apply stage_entries_partition. by apply Hrstage.
    + intros t Ht. destruct (Hnode t Ht) as (cn & Hcn & Hlo).
      exists cn. split; [done|]. by rewrite (laid_out_getRowUpper _ _ _ Hlo).
Qed.

Lemma core_nodes_share_out_witness :
  let dclo := Some [(2, 1%float); (1, 2%float); (0, 3%float)] in
  let core := gutsOfConstructor 2 3 2 [1; 0; 1] [1; 0] None dclo None None None None
                                [] 0 [] 0 in
  let col (e : entry) := (getColInternalIndex core e.1, e.2) in
  let row (e : entry) := (getRowInternalIndex core e.1, e.2) in
  (concat (getColLower <$> Core.nodes_ core) ≡ₚ col <$> default [] dclo ∧
   concat (getColUpper <$> Core.nodes_ core) ≡ₚ col <$> default [] None ∧
   concat (getObjective <$> Core.nodes_ core) ≡ₚ col <$> default [] None ∧
   concat (getRowLower <$> Core.nodes_ core) ≡ₚ row <$> default [] None ∧
   concat (getRowUpper <$> Core.nodes_ core) ≡ₚ row <$> default [] None) ∧
  concat (getColLower <$> Core.nodes_ core) = [(0, 2%float); (2, 1%float); (1, 3%float)].
Proof.
  split; [|vm_compute; reflexivity].
  apply (core_nodes_share_out_the_input 2 3 2 [1; 0; 1] [1; 0] None
           (Some [(2, 1%float); (1, 2%float); (0, 3%float)]) None None None None
           [] 0 [] 0 eq_refl eq_refl);
    [repeat constructor | repeat constructor | exact I
    | repeat (constructor; [simpl; lia|]); constructor
    | constructor | constructor | constructor | constructor].
Defined.

(** ** Dense rows of different rows *)



(** ** The sorting pass of the core constructor *)

Lemma concat_sorted_rows (rows : list (list entry)) :
  concat (sortIncrIndex <$> rows) ≡ₚ concat rows.
Proof.
  induction rows as [|r rows IH]; [done|].
  rewrite fmap_cons. cbn [concat]. by rewrite IH, sortIncrIndex_Permutation.
Qed.

(** X9.  The pass of [gutsOfConstructor] that sorts the rows of a core
    node changes nothing but the order of the entries inside a row: the
    core node of stage [t] has the start offsets and the five bound and
    objective segments of a node built afresh for stage [t] from the
    same data, and its buffer holds the same entries. *)
Theorem sorting_keeps_offsets_and_bounds
    (nrow ncol nstag : nat) (cstag rstag : list nat) (matrix : option CoinPackedMatrix)
    (dclo dcup dobj drlo drup : option CoinPackedVector)
    (ints : list nat) (il : nat) (bins : list nat) (bl : nat) (t : nat) :
  length cstag = ncol → length rstag = nrow →
  Forall (λ s, s < nstag) cstag → Forall (λ s, s < nstag) rstag →
  matrix_ok matrix nrow → t < nstag →
  let core := gutsOfConstructor nrow ncol nstag cstag rstag matrix dclo dcup dobj drlo drup
                                ints il bins bl in
  let fresh := SmiNodeData_new t core matrix dclo dcup dobj drlo drup in
  ∃ cn, Core.nodes_ core !! t = Some cn ∧
        Node.strt_ cn = Node.strt_ fresh ∧
        getColLower cn = getColLower fresh ∧ getColUpper cn = getColUpper fresh ∧
        getObjective cn = getObjective fresh ∧
        getRowLower cn = getRowLower fresh ∧ getRowUpper cn = getRowUpper fresh ∧
        Node.ents_ cn ≡ₚ Node.ents_ fresh.
Proof.
  intros Hlc Hlr Hc Hr Hok Ht core fresh.
  destruct (built_core_node_layout nrow ncol nstag cstag rstag matrix
              dclo dcup dobj drlo drup ints il bins bl t Hlc Hlr Hc Hr Hok Ht)
    as (cn & Hcn & Hlo & Hstrt).
  pose proof (scenario_node_laid_out nrow ncol nstag cstag rstag matrix
                dclo dcup dobj drlo drup ints il bins bl Hlc Hlr Hc Hr
                t matrix dclo dcup dobj drlo drup Ht Hok) as Hfresh.
  fold core in Hcn, Hlo, Hstrt, Hfresh. fold fresh in Hstrt, Hfresh.
  exists cn. split; [exact Hcn|]. split; [exact Hstrt|].
  rewrite (laid_out_getColLower _ _ _ Hlo), (laid_out_getColLower _ _ _ Hfresh),
    (laid_out_getColUpper _ _ _ Hlo), (laid_out_getColUpper _ _ _ Hfresh),
    (laid_out_getObjective _ _ _ Hlo), (laid_out_getObjective _ _ _ Hfresh),
    (laid_out_getRowLower _ _ _ Hlo), (laid_out_getRowLower _ _ _ Hfresh),
    (laid_out_getRowUpper _ _ _ Hlo), (laid_out_getRowUpper _ _ _ Hfresh).
  repeat (split; [reflexivity|]).
  rewrite (lo_ents _ _ _ Hlo), (lo_ents _ _ _ Hfresh), !concat_app.
  by rewrite concat_sorted_rows.
Qed.

Lemma sorting_keeps_witness :
  let core := gutsOfConstructor 2 3 2 [1; 0; 1] [1; 0] (Some (osi_matrix example_osi))
                                None None None None None [] 0 [] 0 in
  let fresh := SmiNodeData_new 1 core (Some (osi_matrix example_osi))
                               None None None None None in
  (∃ cn, Core.nodes_ core !! 1 = Some cn ∧
         Node.strt_ cn = Node.strt_ fresh ∧
         getColLower cn = getColLower fresh ∧ getColUpper cn = getColUpper fresh ∧
         getObjective cn = getObjective fresh ∧
         getRowLower cn = getRowLower fresh ∧ getRowUpper cn = getRowUpper fresh ∧
         Node.ents_ cn ≡ₚ Node.ents_ fresh) ∧
  Node.ents_ fresh = [(2, 1%float); (1, 2%float); (0, 3%float)] ∧
  (Node.ents_ <$> Core.nodes_ core !! 1)
  = Some [(0, 3%float); (1, 2%float); (2, 1%float)].
Proof.
  split; [|split; vm_compute; reflexivity].
  apply (sorting_keeps_offsets_and_bounds 2 3 2 [1; 0; 1] [1; 0]
           (Some (osi_matrix example_osi)) None None None None None [] 0 [] 0 1
           eq_refl eq_refl);
    [repeat constructor | repeat constructor
    | split; [reflexivity | repeat (constructor; [vm_compute; lia|]); constructor]
    | lia].
Defined.
